(** * otel-launcher-go, lightstep/sdk/metric: the numeric value and the
      viewstate instruments and accumulators

    A shallow embedding of [number/number.go] and of the [viewstate]
    package (the four [Collect] strategies and the accumulators), with the
    properties of the specification stated over it. *)

From stdpp Require Import gmap strings list fin_maps.
From Stdlib Require Import ZArith Lia.

Local Open Scope Z_scope.

(** ** Package [number] *)

Module number.

(** [type Kind int8] with its two constants. *)
Inductive Kind : Type :=
| Int64Kind
| Float64Kind.

Definition Kind_eqb (a b : Kind) : bool :=
  match a, b with
  | Int64Kind, Int64Kind | Float64Kind, Float64Kind => true
  | _, _ => false
  end.

(** Go's [uint64] and [int64] are integers with wrap-around; a conversion
    between them keeps the 64 bits. *)
Definition uint64 : Type := Z.
Definition int64 : Type := Z.

Definition is_uint64 (z : Z) : Prop := 0 <= z < 2 ^ 64.
Definition is_int64 (z : Z) : Prop := - 2 ^ 63 <= z < 2 ^ 63.

Definition to_uint64 (z : Z) : uint64 := z mod 2 ^ 64.
Definition to_int64 (z : Z) : int64 := (z + 2 ^ 63) mod 2 ^ 64 - 2 ^ 63.

(** [type Number uint64]. *)
Definition Number : Type := uint64.

(** A [float64] is its IEEE 754 binary64 datum: a sign bit, an 11-bit
    biased exponent and a 52-bit fraction.  NaN payloads, both infinities
    and both zeros are distinct data. *)
Record float64 : Type := mkFloat64 {
  f_sign : bool;
  f_exp : Z;
  f_frac : Z
}.

Definition is_float64 (f : float64) : Prop :=
  0 <= f_exp f < 2 ^ 11 /\ 0 <= f_frac f < 2 ^ 52.

(** [math.Float64bits]: the sign in bit 63, the exponent in bits 52..62,
    the fraction in bits 0..51. *)
Definition Float64bits (f : float64) : uint64 :=
  Z.lor (Z.lor (if f_sign f then Z.shiftl 1 63 else 0)
               (Z.shiftl (f_exp f) 52))
        (f_frac f).

(** [math.Float64frombits]. *)
Definition Float64frombits (b : uint64) : float64 :=
  {| f_sign := Z.testbit b 63;
     f_exp := Z.land (Z.shiftr b 52) (Z.ones 11);
     f_frac := Z.land b (Z.ones 52) |}.

(** Go's conversion [float64(x)] of an integer [x]: the nearest binary64
    value, ties to even.  For [|x| < 2^64] the result is finite. *)
Definition float64_of_Z (z : Z) : float64 :=
  if z =? 0 then mkFloat64 false 0 0
  else
    let s := z <? 0 in
    let m := Z.abs z in
    let e := Z.log2 m in
    if e <=? 52 then mkFloat64 s (1023 + e) (m * 2 ^ (52 - e) - 2 ^ 52)
    else
      let sh := e - 52 in
      let q := Z.shiftr m sh in
      let r := Z.land m (Z.ones sh) in
      let half := 2 ^ (sh - 1) in
      let q' := if (half <? r) || ((r =? half) && Z.odd q) then q + 1 else q in
      if q' =? 2 ^ 53 then mkFloat64 s (1023 + e + 1) 0
      else mkFloat64 s (1023 + e) (q' - 2 ^ 52).

(** [func (n Number) CoerceToFloat64(k Kind) float64]: for [Int64Kind] the
    source converts [n] itself, a [uint64]. *)
Definition CoerceToFloat64 (n : Number) (k : Kind) : float64 :=
  if Kind_eqb k Int64Kind then float64_of_Z n
  else Float64frombits (to_uint64 n).

Definition ToFloat64 (n : Number) : float64 := Float64frombits (to_uint64 n).

Definition ToInt64 (n : Number) : int64 := to_int64 n.

Definition FromFloat64 (n : float64) : Number := to_uint64 (Float64bits n).

Definition FromInt64 (n : int64) : Number := to_uint64 n.

(** Some binary64 data. *)
Definition f64_pos_zero : float64 := mkFloat64 false 0 0.
Definition f64_neg_zero : float64 := mkFloat64 true 0 0.
Definition f64_pos_inf : float64 := mkFloat64 false 2047 0.
Definition f64_neg_inf : float64 := mkFloat64 true 2047 0.
Definition f64_nan : float64 := mkFloat64 false 2047 (2 ^ 51 + 1).
Definition f64_neg_one : float64 := mkFloat64 true 1023 0.

End number.

(** ** Package [viewstate] *)

Module viewstate.

(** Modelled from the spec: [aggregation.Temporality], whose package is not
    among the sources: cumulative or delta, and the zero value. *)
Inductive Temporality : Type :=
| UndefinedTemporality
| CumulativeTemporality
| DeltaTemporality.

(** [time.Time], as a number of ticks. *)
Definition Time : Type := Z.

(** Modelled from the spec: [data.Sequence], whose package is not among the
    sources: the three timestamps of one collection cycle. *)
Record Sequence : Type := mkSequence {
  seq_Start : Time;
  seq_Last : Time;
  seq_Now : Time
}.

(** A Go slice: the elements up to its length, then the slots of the
    backing array between its length and its capacity. *)
Record slice (A : Type) : Type := mkSlice {
  elems : list A;
  spare : list A
}.
Arguments mkSlice {A} _ _.
Arguments elems {A} _.
Arguments spare {A} _.

Definition len {A} (s : slice A) : nat := length (elems s).
Definition cap {A} (s : slice A) : nat := (length (elems s) + length (spare s))%nat.

(** [s[0 : len(s)-1 : cap(s)]]: the last element goes back to the spare
    slots, where the next append finds it. *)
Definition rollback {A} (s : slice A) : slice A :=
  match last (elems s) with
  | Some x => mkSlice (removelast (elems s)) (x :: spare s)
  | None => s
  end.

(** The address of a [storageHolder]: the maps hold pointers, and so do the
    accumulators. *)
Definition loc : Type := positive.

(** Modelled from the spec: [storageHolder[Storage, Auxiliary]] of
    base_instrument.go, which is not among the sources: the storage of one
    series and the auxiliary field. *)
Record storageHolder (Storage Auxiliary : Type) : Type := mkHolder {
  storage : Storage;
  auxiliary : Auxiliary
}.
Arguments mkHolder {Storage Auxiliary} _ _.
Arguments storage {Storage Auxiliary} _.
Arguments auxiliary {Storage Auxiliary} _.

(** Modelled from the spec: [notUsed] of base_instrument.go, the auxiliary
    type of the asynchronous instruments. *)
Inductive notUsed : Type := mkNotUsed.

(** Modelled from the spec: [aggregator.Methods[N, Storage]], the
    aggregation algebra, whose package is not among the sources.  Its
    methods are the ones section 6 of the specification lists, with [Init]
    and [ToAggregation] as [initStorage] and [appendPoint] need them, and
    the zero values of the Go types [N], [Storage] and
    [aggregator.ExemplarBits].

    The source passes pointers; a method that receives two of them returns
    the two values they point to afterwards, in the order of its arguments,
    except [Copy], which reads its source and returns the destination. *)
Class Methods (N Storage Aggregation ExemplarBits : Type) : Type := {
  zeroNumber : N;
  zeroStorage : Storage;
  zeroExemplarBits : ExemplarBits;
  Init : Storage -> Storage;
  Update : Storage -> N -> ExemplarBits -> Storage;
  Merge : Storage -> Storage -> Storage * Storage;
  Move : Storage -> Storage -> Storage * Storage;
  Copy : Storage -> Storage -> Storage;
  SubtractSwap : Storage -> Storage -> Storage * Storage;
  HasChange : Storage -> bool;
  ToAggregation : Storage -> Aggregation;
  ToStorage : Aggregation -> option Storage;
  ToStorage_ToAggregation : forall s, ToStorage (ToAggregation s) = Some s
}.

(** [for set, entry := range m]: the body runs once per entry, in the order
    [ents] in which the runtime happens to visit them; a failing body (a
    nil dereference) ends the loop. *)
Fixpoint for_range {A S : Type} (body : A -> S -> option S)
    (ents : list A) (st : S) : option S :=
  match ents with
  | [] => Some st
  | e :: rest =>
      match body e st with
      | Some st' => for_range body rest st'
      | None => None
      end
  end.

(** Go does not fix the order in which [range] visits a map. *)
Definition range_of {K V : Type} `{Countable K} (m : gmap K V)
    (ents : list (K * V)) : Prop :=
  ents ≡ₚ map_to_list m.

Section instruments.

Context {K : Type} `{Countable K}.
Context {Descriptor N Storage Aggregation ExemplarBits : Type}.
Context `{!Methods N Storage Aggregation ExemplarBits}.

(** [pipeline.OverflowAttributeSet], whose package is not among the
    sources: any one attribute set. *)
Variable OverflowAttributeSet : K.

(** Modelled from the spec: [data.Point], whose package is not among the
    sources, with the five fields that [appendPoint] sets. *)
Record Point : Type := mkPoint {
  p_Attributes : K;
  p_Aggregation : Aggregation;
  p_Temporality : Temporality;
  p_Start : Time;
  p_End : Time
}.

(** Modelled from the spec: [data.Instrument], whose package is not among
    the sources: the descriptor and the points. *)
Record Instrument : Type := mkInstrument {
  i_Descriptor : Descriptor;
  i_Points : slice Point
}.

(** Modelled from the spec: [instrumentBase] of base_instrument.go, which
    is not among the sources: the fields the instruments below use, and
    the store of the holders that [data] and the accumulators point
    into. *)
Record instrumentBase (Auxiliary : Type) : Type := mkBase {
  heap : gmap loc (storageHolder Storage Auxiliary);
  desc : Descriptor;
  keysFilter : K -> K;
  data : gmap K loc
}.
Arguments mkBase {Auxiliary} _ _ _ _.
Arguments heap {Auxiliary} _.
Arguments desc {Auxiliary} _.
Arguments keysFilter {Auxiliary} _.
Arguments data {Auxiliary} _.

(** Modelled from the spec: [newStorage] and [initStorage] of
    base_instrument.go, which is not among the sources: a zero value
    initialised by the algebra. *)
Definition newStorage : Storage := Init zeroStorage.

(** Modelled from the spec: [appendInstrument] of base_instrument.go, which
    is not among the sources.  It takes the next slot of [output] and sets
    its descriptor; the slot keeps the points slice it had. *)
Definition appendInstrument {Aux} (b : instrumentBase Aux)
    (output : slice Instrument) : Instrument * list Instrument :=
  match spare output with
  | old :: rest => (mkInstrument (desc b) (i_Points old), rest)
  | [] => (mkInstrument (desc b) (mkSlice [] []), [])
  end.

(** The instrument that [ioutput] points to is the last element of
    [output]. *)
Definition storeInstrument (output : slice Instrument)
    (rest : list Instrument) (ioutput : Instrument) : slice Instrument :=
  mkSlice (elems output ++ [ioutput]) rest.

(** Modelled from the spec: [appendPoint] of base_instrument.go, which is
    not among the sources.  The point takes the next slot of the points
    slice and re-uses the storage a spare slot still holds; with [reset]
    the entry's storage is moved out into the point, otherwise the point
    gets a copy and the storage stays as it is.  The result is the
    storage afterwards and the instrument with the point appended. *)
Definition appendPoint (inst : Instrument) (set : K) (sto : Storage)
    (tempo : Temporality) (start end_ : Time) (reset : bool)
    : Storage * Instrument :=
  let pts := i_Points inst in
  let '(reuse, rest) :=
    match spare pts with
    | old :: rest => (ToStorage (p_Aggregation old), rest)
    | [] => (None, [])
    end in
  let out := match reuse with Some o => o | None => newStorage end in
  let '(sto', out') := if reset then Move sto out else (sto, Copy sto out) in
  (sto', mkInstrument (i_Descriptor inst)
           (mkSlice (elems pts ++ [mkPoint set (ToAggregation out') tempo start end_])
                    rest)).

(** Writing through [&entry.storage]. *)
Definition set_storage {Aux} (l : loc) (s : Storage)
    (hp : gmap loc (storageHolder Storage Aux))
    : gmap loc (storageHolder Storage Aux) :=
  match hp !! l with
  | Some h => <[l := mkHolder s (auxiliary h)]> hp
  | None => hp
  end.

(** The storage that the next point re-uses. *)
Definition reused (inst : Instrument) : Storage :=
  match spare (i_Points inst) with
  | old :: _ => default newStorage (ToStorage (p_Aggregation old))
  | [] => newStorage
  end.

(** *** instruments.go *)

(** [statefulSyncInstrument.Collect]. *)
Definition statefulSyncInstrument_body (seq : Sequence) (e : K * loc)
    (st : gmap loc (storageHolder Storage Z) * Instrument)
    : option (gmap loc (storageHolder Storage Z) * Instrument) :=
  let '(set, l) := e in
  let '(hp, ioutput) := st in
  entry ← hp !! l;
  let '(sto', ioutput') :=
    appendPoint ioutput set (storage entry) CumulativeTemporality
      (seq_Start seq) (seq_Now seq) false in
  Some (set_storage l sto' hp, ioutput').

Definition statefulSyncInstrument_Collect (ents : list (K * loc)) (seq : Sequence)
    (p : instrumentBase Z) (output : slice Instrument)
    : option (instrumentBase Z * slice Instrument) :=
  let '(ioutput, rest) := appendInstrument p output in
  '(hp, ioutput') ← for_range (statefulSyncInstrument_body seq) ents (heap p, ioutput);
  Some (mkBase hp (desc p) (keysFilter p) (data p),
        storeInstrument output rest ioutput').

(** [lowmemorySyncInstrument.Collect].  The source drops the second
    result of [ToStorage]; when the conversion fails [cpy] is nil, and the
    model ends the loop there. *)
Definition lowmemorySyncInstrument_body (seq : Sequence) (e : K * loc)
    (st : gmap loc (storageHolder Storage Z) * gmap K loc * Instrument)
    : option (gmap loc (storageHolder Storage Z) * gmap K loc * Instrument) :=
  let '(set, l) := e in
  let '(hp, dat, ioutput) := st in
  entry ← hp !! l;
  let numRefs := auxiliary entry in
  let '(sto', ioutput1) :=
    appendPoint ioutput set (storage entry) DeltaTemporality
      (seq_Last seq) (seq_Now seq) true in
  let hp1 := set_storage l sto' hp in
  let ptsArr := i_Points ioutput1 in
  point ← last (elems ptsArr);
  cpy ← ToStorage (p_Aggregation point);
  if HasChange cpy then Some (hp1, dat, ioutput1)
  else
    let ioutput2 := mkInstrument (i_Descriptor ioutput1) (rollback ptsArr) in
    if numRefs =? 0 then Some (hp1, delete set dat, ioutput2)
    else Some (hp1, dat, ioutput2).

Definition lowmemorySyncInstrument_Collect (ents : list (K * loc)) (seq : Sequence)
    (p : instrumentBase Z) (output : slice Instrument)
    : option (instrumentBase Z * slice Instrument) :=
  let '(ioutput, rest) := appendInstrument p output in
  '(hp, dat, ioutput') ←
    for_range (lowmemorySyncInstrument_body seq) ents (heap p, data p, ioutput);
  Some (mkBase hp (desc p) (keysFilter p) dat,
        storeInstrument output rest ioutput').

(** [lowmemoryAsyncInstrument.Collect]. *)
Definition lowmemoryAsyncInstrument_body (seq : Sequence) (e : K * loc)
    (st : gmap loc (storageHolder Storage notUsed) * Instrument)
    : option (gmap loc (storageHolder Storage notUsed) * Instrument) :=
  let '(set, l) := e in
  let '(hp, ioutput) := st in
  entry ← hp !! l;
  let '(sto', ioutput') :=
    appendPoint ioutput set (storage entry) CumulativeTemporality
      (seq_Start seq) (seq_Now seq) false in
  Some (set_storage l sto' hp, ioutput').

Definition lowmemoryAsyncInstrument_Collect (ents : list (K * loc)) (seq : Sequence)
    (p : instrumentBase notUsed) (output : slice Instrument)
    : option (instrumentBase notUsed * slice Instrument) :=
  let '(ioutput, rest) := appendInstrument p output in
  '(hp, ioutput') ← for_range (lowmemoryAsyncInstrument_body seq) ents (heap p, ioutput);
  Some (mkBase hp (desc p) (keysFilter p) ∅,
        storeInstrument output rest ioutput').

(** What a cumulative [Collect] emits for an entry: a copy of the
    holder's storage, from [seq.Start] to [seq.Now]. *)
Definition cumulative_point (seq : Sequence) {Aux}
    (hp : gmap loc (storageHolder Storage Aux)) (e : K * loc) (pt : Point) : Prop :=
  exists h out,
    hp !! e.2 = Some h /\
    pt = mkPoint e.1 (ToAggregation (Copy (storage h) out))
           CumulativeTemporality (seq_Start seq) (seq_Now seq).

(** The loop body that the two cumulative instruments share. *)
Definition cumulative_body {Aux} (seq : Sequence) (e : K * loc)
    (st : gmap loc (storageHolder Storage Aux) * Instrument)
    : option (gmap loc (storageHolder Storage Aux) * Instrument) :=
  let '(set, l) := e in
  let '(hp, ioutput) := st in
  entry ← hp !! l;
  let '(sto', ioutput') :=
    appendPoint ioutput set (storage entry) CumulativeTemporality
      (seq_Start seq) (seq_Now seq) false in
  Some (set_storage l sto' hp, ioutput').

(** What the low-memory synchronous [Collect] does for an entry, from the
    stores and the maps before and after: the storage is moved out into
    [out]; a moved-out value with a change is the point and the entry
    stays; without a change there is no point, and the entry stays exactly
    when the captured reference count is not zero. *)
Definition lowmemory_entry (seq : Sequence)
    (hp hp' : gmap loc (storageHolder Storage Z)) (dat dat' : gmap K loc)
    (e : K * loc) (o : list Point) : Prop :=
  exists h out,
    hp !! e.2 = Some h /\
    hp' !! e.2 = Some (mkHolder (Move (storage h) out).1 (auxiliary h)) /\
    if HasChange (Move (storage h) out).2
    then o = [mkPoint e.1 (ToAggregation (Move (storage h) out).2)
                DeltaTemporality (seq_Last seq) (seq_Now seq)] /\
         dat' !! e.1 = dat !! e.1
    else o = [] /\
         dat' !! e.1 = (if auxiliary h =? 0 then None else dat !! e.1).

(** [statefulAsyncInstrument]. *)
Record statefulAsyncInstrument : Type := mkStatefulAsync {
  base : instrumentBase notUsed;
  prior : gmap K loc
}.

(** [statefulAsyncInstrument.InMemorySize]. *)
Definition InMemorySize (p : statefulAsyncInstrument) : nat := size (prior p).

(** The state of the loop of [statefulAsyncInstrument.Collect]: the store,
    the output instrument and [ofe]. *)
Record scanState : Type := mkScan {
  sc_heap : gmap loc (storageHolder Storage notUsed);
  sc_ioutput : Instrument;
  sc_ofe : option loc
}.

(** [statefulAsyncInstrument.Collect]: the body of its loop.  The holder
    of [prior] is read again after [SubtractSwap] wrote through the two
    pointers. *)
Definition statefulAsyncInstrument_body (seq : Sequence) (pri : gmap K loc)
    (e : K * loc) (st : scanState) : option scanState :=
  let '(set, l) := e in
  let hp := sc_heap st in
  entry ← hp !! l;
  let ofe := if decide (set = OverflowAttributeSet) then Some l else sc_ofe st in
  match pri !! set with
  | Some pl =>
      pval ← hp !! pl;
      let '(pv', ev') := SubtractSwap (storage pval) (storage entry) in
      let hp1 := set_storage l ev' (set_storage pl pv' hp) in
      pval1 ← hp1 !! pl;
      if negb (HasChange (storage pval1)) then Some (mkScan hp1 (sc_ioutput st) ofe)
      else
        let '(sto', ioutput') :=
          appendPoint (sc_ioutput st) set (storage pval1) DeltaTemporality
            (seq_Last seq) (seq_Now seq) false in
        Some (mkScan (set_storage pl sto' hp1) ioutput' ofe)
  | None =>
      let '(sto', ioutput') :=
        appendPoint (sc_ioutput st) set (storage entry) DeltaTemporality
          (seq_Last seq) (seq_Now seq) false in
      Some (mkScan (set_storage l sto' hp) ioutput' ofe)
  end.

(** The loop, from the store of the instrument and [ofe = nil]. *)
Definition statefulAsyncInstrument_scan (ents : list (K * loc)) (seq : Sequence)
    (p : statefulAsyncInstrument) (ioutput : Instrument) : option scanState :=
  for_range (statefulAsyncInstrument_body seq (prior p)) ents
    (mkScan (heap (base p)) ioutput None).

(** The rotation after the loop: the scanned map becomes [prior], [data]
    starts empty, and the overflow entry is copied into a new holder. *)
Definition statefulAsyncInstrument_rotate (p : statefulAsyncInstrument) (st : scanState)
    : option statefulAsyncInstrument :=
  let b := base p in
  match sc_ofe st with
  | None =>
      Some (mkStatefulAsync (mkBase (sc_heap st) (desc b) (keysFilter b) ∅) (data b))
  | Some ofe =>
      ofh ← sc_heap st !! ofe;
      let hp := sc_heap st in
      let cpy := fresh (dom hp) in
      Some (mkStatefulAsync
              (mkBase (<[cpy := mkHolder (Copy (storage ofh) zeroStorage) mkNotUsed]> hp)
                      (desc b) (keysFilter b)
                      {[OverflowAttributeSet := cpy]})
              (data b))
  end.

(** [statefulAsyncInstrument.Collect]. *)
Definition statefulAsyncInstrument_Collect (ents : list (K * loc)) (seq : Sequence)
    (p : statefulAsyncInstrument) (output : slice Instrument)
    : option (statefulAsyncInstrument * slice Instrument) :=
  let '(ioutput, rest) := appendInstrument (base p) output in
  st ← statefulAsyncInstrument_scan ents seq p ioutput;
  p' ← statefulAsyncInstrument_rotate p st;
  Some (p', storeInstrument output rest (sc_ioutput st)).

(** The points [o] of a key are one delta point, a copy of [s], from
    [seq.Last] to [seq.Now]. *)
Definition delta_point (seq : Sequence) (k : K) (s : Storage) (o : list Point)
    : Prop :=
  exists out,
    o = [mkPoint k (ToAggregation (Copy s out)) DeltaTemporality
           (seq_Last seq) (seq_Now seq)].

(** What the loop of the stateful asynchronous [Collect] does for an
    entry, from the stores before and after.  With the key in [pri], the
    holder of [pri] receives the difference and the entry's holder what
    [SubtractSwap] leaves in its second argument; a difference with a
    change is copied into the point, one without gives no point.  Without
    the key in [pri], the entry's own storage is copied into the point. *)
Definition delta_entry (seq : Sequence) (pri : gmap K loc)
    (hp hp' : gmap loc (storageHolder Storage notUsed))
    (e : K * loc) (o : list Point) : Prop :=
  exists h,
    hp !! e.2 = Some h /\
    match pri !! e.1 with
    | Some pl =>
        exists pv,
          hp !! pl = Some pv /\
          hp' !! pl = Some (mkHolder (SubtractSwap (storage pv) (storage h)).1
                                     (auxiliary pv)) /\
          hp' !! e.2 = Some (mkHolder (SubtractSwap (storage pv) (storage h)).2
                                      (auxiliary h)) /\
          if HasChange (SubtractSwap (storage pv) (storage h)).1
          then delta_point seq e.1 (SubtractSwap (storage pv) (storage h)).1 o
          else o = []
    | None =>
        hp' !! e.2 = Some h /\ delta_point seq e.1 (storage h) o
    end.

(** *** accumulators.go *)

(** Modelled from the spec: [getOrCreateEntry] of base_instrument.go, which
    is not among the sources: the holder of [kvs] if the map has one,
    otherwise a new holder with initialised storage and zero auxiliary
    value.  The callers below have applied the key filter. *)
Definition getOrCreateEntry {Aux} (zeroAux : Aux) (b : instrumentBase Aux)
    (kvs : K) : loc * instrumentBase Aux :=
  match data b !! kvs with
  | Some l => (l, b)
  | None =>
      let l := fresh (dom (heap b)) in
      (l, mkBase (<[l := mkHolder newStorage zeroAux]> (heap b))
                 (desc b) (keysFilter b) (<[kvs := l]> (data b)))
  end.

(** [atomic.AddInt64]. *)
Definition AddInt64 (l : loc) (delta : Z)
    (hp : gmap loc (storageHolder Storage Z))
    : gmap loc (storageHolder Storage Z) :=
  match hp !! l with
  | Some h => <[l := mkHolder (storage h) (number.to_int64 (auxiliary h + delta))]> hp
  | None => hp
  end.

(** [compiledSyncBase.findStorage]. *)
Definition compiledSyncBase_findStorage (c : instrumentBase Z) (kvs : K)
    : loc * instrumentBase Z :=
  let kvs := keysFilter c kvs in
  let '(entry, c1) := getOrCreateEntry 0 c kvs in
  (entry, mkBase (AddInt64 entry 1 (heap c1)) (desc c1) (keysFilter c1) (data c1)).

(** [syncAccumulator]. *)
Record syncAccumulator : Type := mkSyncAcc {
  current : Storage;
  snapshot : Storage;
  holder : loc
}.

(** [compiledSyncBase.NewAccumulator]. *)
Definition compiledSyncBase_NewAccumulator (c : instrumentBase Z) (kvs : K)
    : syncAccumulator * instrumentBase Z :=
  let '(h, c') := compiledSyncBase_findStorage c kvs in
  (mkSyncAcc newStorage newStorage h, c').

(** [syncAccumulator.Update]. *)
Definition syncAccumulator_Update (a : syncAccumulator) (number : N) (ex : ExemplarBits)
    : syncAccumulator :=
  mkSyncAcc (Update (current a) number ex) (snapshot a) (holder a).

(** The three steps of [syncAccumulator.SnapshotAndProcess]: the move
    touches the accumulator alone, the merge and the release the shared
    holder. *)
Definition syncAccumulator_move (a : syncAccumulator) : syncAccumulator :=
  let '(cur', snap') := Move (current a) (snapshot a) in
  mkSyncAcc cur' snap' (holder a).

Definition syncAccumulator_merge (a : syncAccumulator)
    (hp : gmap loc (storageHolder Storage Z))
    : option (syncAccumulator * gmap loc (storageHolder Storage Z)) :=
  h ← hp !! holder a;
  let '(snap', sto') := Merge (snapshot a) (storage h) in
  Some (mkSyncAcc (current a) snap' (holder a), set_storage (holder a) sto' hp).

Definition syncAccumulator_release (release : bool) (a : syncAccumulator)
    (hp : gmap loc (storageHolder Storage Z))
    : gmap loc (storageHolder Storage Z) :=
  if release then AddInt64 (holder a) (-1) hp else hp.

(** [syncAccumulator.SnapshotAndProcess]. *)
Definition syncAccumulator_SnapshotAndProcess (release : bool) (a : syncAccumulator)
    (hp : gmap loc (storageHolder Storage Z))
    : option (syncAccumulator * gmap loc (storageHolder Storage Z)) :=
  '(a', hp') ← syncAccumulator_merge (syncAccumulator_move a) hp;
  Some (a', syncAccumulator_release release a' hp').

(** [compiledAsyncBase.findStorage]. *)
Definition compiledAsyncBase_findStorage (c : instrumentBase notUsed) (kvs : K)
    : loc * instrumentBase notUsed :=
  let kvs := keysFilter c kvs in
  getOrCreateEntry mkNotUsed c kvs.

(** [asyncAccumulator]. *)
Record asyncAccumulator : Type := mkAsyncAcc {
  a_current : N;
  a_holder : loc
}.

(** [compiledAsyncBase.NewAccumulator]. *)
Definition compiledAsyncBase_NewAccumulator (c : instrumentBase notUsed) (kvs : K)
    : asyncAccumulator * instrumentBase notUsed :=
  let '(h, c') := compiledAsyncBase_findStorage c kvs in
  (mkAsyncAcc zeroNumber h, c').

(** [asyncAccumulator.Update]. *)
Definition asyncAccumulator_Update (a : asyncAccumulator) (number : N)
    (ex : ExemplarBits) : asyncAccumulator :=
  mkAsyncAcc number (a_holder a).

(** [asyncAccumulator.MaySample]. *)
Definition asyncAccumulator_MaySample (a : asyncAccumulator) (isTraced : bool)
    : bool := false.

(** [asyncAccumulator.SnapshotAndProcess]. *)
Definition asyncAccumulator_SnapshotAndProcess (release : bool)
    (a : asyncAccumulator) (hp : gmap loc (storageHolder Storage notUsed))
    : option (gmap loc (storageHolder Storage notUsed)) :=
  h ← hp !! a_holder a;
  Some (set_storage (a_holder a)
          (Update (storage h) (a_current a) zeroExemplarBits) hp).

(** *** Goroutines

    One goroutine per synchronous accumulator runs [Update(v, ex)] and then
    [SnapshotAndProcess(true)].  The update and the move touch the
    accumulator alone; the merge into the shared holder and the release of
    the reference are the atomic steps of the algebra and of
    [atomic.AddInt64].  A schedule names, step by step, the goroutine that
    runs next. *)
Inductive pc : Type :=
| AtUpdate
| AtMove
| AtMerge
| AtRelease
| Finished.

Record goroutine : Type := mkGoroutine {
  g_acc : syncAccumulator;
  g_pc : pc
}.

Definition goroutine_step (v : N) (ex : ExemplarBits) (g : goroutine)
    (hp : gmap loc (storageHolder Storage Z))
    : option (goroutine * gmap loc (storageHolder Storage Z)) :=
  match g_pc g with
  | AtUpdate => Some (mkGoroutine (syncAccumulator_Update (g_acc g) v ex) AtMove, hp)
  | AtMove => Some (mkGoroutine (syncAccumulator_move (g_acc g)) AtMerge, hp)
  | AtMerge =>
      '(a', hp') ← syncAccumulator_merge (g_acc g) hp;
      Some (mkGoroutine a' AtRelease, hp')
  | AtRelease =>
      Some (mkGoroutine (g_acc g) Finished, syncAccumulator_release true (g_acc g) hp)
  | Finished => None
  end.

Definition schedule_step (v : N) (ex : ExemplarBits) (i : nat)
    (cfg : list goroutine * gmap loc (storageHolder Storage Z))
    : option (list goroutine * gmap loc (storageHolder Storage Z)) :=
  let '(gs, hp) := cfg in
  g ← gs !! i;
  '(g', hp') ← goroutine_step v ex g hp;
  Some (<[i := g']> gs, hp').

Definition run_schedule (v : N) (ex : ExemplarBits) (sched : list nat)
    (cfg : list goroutine * gmap loc (storageHolder Storage Z))
    : option (list goroutine * gmap loc (storageHolder Storage Z)) :=
  for_range (schedule_step v ex) sched cfg.

Definition is_finished (g : goroutine) : bool :=
  match g_pc g with Finished => true | _ => false end.

(** A schedule for [n] goroutines is complete when it names goroutines
    below [n] only and each of them four times, once per step. *)
Definition steps_done (c : pc) : nat :=
  match c with
  | AtUpdate => 0
  | AtMove => 1
  | AtMerge => 2
  | AtRelease => 3
  | Finished => 4
  end.

Definition turns (i : nat) (sched : list nat) : nat :=
  length (filter (fun j => j = i) sched).

Definition complete_schedule (n : nat) (sched : list nat) : Prop :=
  Forall (fun i => (i < n)%nat) sched /\
  Forall (fun i => turns i sched = 4%nat) (seq 0 n).

(** The schedule that runs the goroutines one after the other. *)
Definition sequential_schedule (n : nat) : list nat :=
  flat_map (fun i => replicate 4 i) (seq 0 n).

(** [n] calls of [NewAccumulator(kvs)], one accumulator per goroutine. *)
Fixpoint new_accumulators (n : nat) (c : instrumentBase Z) (kvs : K)
    : list syncAccumulator * instrumentBase Z :=
  match n with
  | O => ([], c)
  | S m =>
      let '(a, c1) := compiledSyncBase_NewAccumulator c kvs in
      let '(accs, c2) := new_accumulators m c1 kvs in
      (a :: accs, c2)
  end.

(** The points a [Collect] appended to the instrument it added to
    [output]. *)
Definition emitted {Aux} (b : instrumentBase Aux)
    (output output' : slice Instrument) : list Point :=
  match last (elems output') with
  | Some inst =>
      drop (len (i_Points (appendInstrument b output).1)) (elems (i_Points inst))
  | None => []
  end.

(** Every pointer of the maps is allocated, and no holder is reachable
    twice. *)
Definition locs_of (m : gmap K loc) : list loc := (map_to_list m).*2.

Definition separated {Aux} (hp : gmap loc (storageHolder Storage Aux))
    (ls : list loc) : Prop :=
  NoDup ls /\ Forall (fun l => is_Some (hp !! l)) ls.

(** The holders of the two maps of a stateful asynchronous instrument are
    allocated and distinct. *)
Definition wf_async (p : statefulAsyncInstrument) : Prop :=
  separated (heap (base p)) (locs_of (data (base p)) ++ locs_of (prior p)).

End instruments.

Arguments mkBase {K _ _ Descriptor Storage Auxiliary} _ _ _ _.
Arguments heap {K _ _ Descriptor Storage Auxiliary} _.
Arguments desc {K _ _ Descriptor Storage Auxiliary} _.
Arguments keysFilter {K _ _ Descriptor Storage Auxiliary} _.
Arguments data {K _ _ Descriptor Storage Auxiliary} _.

(** *** Sum-like algebras

    An algebra is sum-like when every storage has a total, an [int64], that
    the methods treat as a sum with Go's wrap-around: [Update] adds the
    measurement, [Merge] adds the source to the destination, [Move] and
    [Copy] carry the total over, [SubtractSwap] leaves the difference in
    its first argument, and [HasChange] tells a total other than zero. *)
Class SumLike {N Storage Aggregation ExemplarBits : Type}
    (M : Methods N Storage Aggregation ExemplarBits) : Type := {
  total : Storage -> Z;
  toZ : N -> Z;
  total_newStorage : total (Init zeroStorage) = 0;
  total_Update : forall s n e,
    total (Update s n e) = number.to_int64 (total s + toZ n);
  total_Merge : forall src dst,
    total (Merge src dst).1 = total src /\
    total (Merge src dst).2 = number.to_int64 (total dst + total src);
  total_Move : forall src dst,
    total (Move src dst).1 = 0 /\ total (Move src dst).2 = total src;
  total_Copy : forall src dst, total (Copy src dst) = total src;
  total_SubtractSwap : forall a b,
    total (SubtractSwap a b).1 = number.to_int64 (total b - total a) /\
    total (SubtractSwap a b).2 = total b;
  HasChange_total : forall s, HasChange s = negb (total s =? 0)
}.

(** Modelled from the spec: the sum aggregation over [int64] of the
    [aggregator] packages, which are not among the sources: the storage is
    the running sum. *)
#[export] Instance Int64Sum : Methods Z Z Z unit := {|
  zeroNumber := 0;
  zeroStorage := 0;
  zeroExemplarBits := tt;
  Init := fun s => s;
  Update := fun s n _ => number.to_int64 (s + n);
  Merge := fun src dst => (src, number.to_int64 (dst + src));
  Move := fun src _ => (0, src);
  Copy := fun src _ => src;
  SubtractSwap := fun a b => (number.to_int64 (b - a), b);
  HasChange := fun s => negb (s =? 0);
  ToAggregation := fun s => s;
  ToStorage := fun a => Some a;
  ToStorage_ToAggregation := fun s => eq_refl
|}.

#[export] Instance Int64Sum_SumLike : SumLike Int64Sum := {|
  total := fun s => s;
  toZ := fun n => n;
  total_newStorage := eq_refl;
  total_Update := fun s n e => eq_refl;
  total_Merge := fun src dst => conj eq_refl eq_refl;
  total_Move := fun src dst => conj eq_refl eq_refl;
  total_Copy := fun src dst => eq_refl;
  total_SubtractSwap := fun a b => conj eq_refl eq_refl;
  HasChange_total := fun s => eq_refl
|}.

(** *** The invariant of the goroutines

    For goroutines that add [v] through accumulators bound to the holder
    [l] of a sum-like algebra: what each one has staged at its step, and
    how many of them have merged. *)
Section goroutine_invariant.

Context {N Storage Aggregation ExemplarBits : Type}.
Context `{M : !Methods N Storage Aggregation ExemplarBits} (SL : SumLike M).

Definition local_ok (v : N) (l : loc) (g : goroutine (Storage:=Storage)) : Prop :=
  holder (g_acc g) = l /\
  match g_pc g with
  | AtUpdate => total (current (g_acc g)) = 0
  | AtMove => total (current (g_acc g)) = number.to_int64 (toZ v)
  | AtMerge => total (snapshot (g_acc g)) = number.to_int64 (toZ v)
  | AtRelease | Finished => True
  end.

Definition has_merged (g : goroutine (Storage:=Storage)) : Z :=
  match g_pc g with
  | AtRelease | Finished => 1
  | _ => 0
  end.

Definition merged (gs : list (goroutine (Storage:=Storage))) : Z :=
  foldr (fun g z => has_merged g + z) 0 gs.

End goroutine_invariant.

(** *** More definitions for the properties of the instruments *)
Section more_instruments.

Context {K : Type} `{Countable K}.
Context {Descriptor N Storage Aggregation ExemplarBits : Type}.
Context `{!Methods N Storage Aggregation ExemplarBits}.

(** [output'] is [output] with one more instrument, of descriptor [d], in
    the next slot of the backing array. *)
Definition one_instrument_appended (d : Descriptor)
    (output output' : slice (Instrument (K:=K) (Descriptor:=Descriptor)
                               (Aggregation:=Aggregation))) : Prop :=
  exists inst,
    elems output' = elems output ++ [inst] /\
    i_Descriptor inst = d /\
    spare output' = tail (spare output).

(** *** A synchronous instrument and its bound accumulators

    The low-memory synchronous instrument with the accumulators that are
    bound and not released yet, each with the attribute set, after the key
    filter, that it was bound to. *)
Record syncSystem : Type := mkSyncSystem {
  sys_inst : instrumentBase (K:=K) (Descriptor:=Descriptor) (Storage:=Storage) Z;
  sys_live : list (K * syncAccumulator (Storage:=Storage))
}.

Definition with_heap
    (p : instrumentBase (K:=K) (Descriptor:=Descriptor) (Storage:=Storage) Z)
    (hp : gmap loc (storageHolder Storage Z))
    : instrumentBase (K:=K) (Descriptor:=Descriptor) (Storage:=Storage) Z :=
  mkBase hp (desc p) (keysFilter p) (data p).

(** The calls of the interface: [NewAccumulator], [Update],
    [SnapshotAndProcess(false)], the final [SnapshotAndProcess(true)],
    after which the accumulator is not used again, and [Collect].  Fewer
    than [2^63] accumulators are bound at a time. *)
Inductive sync_step : syncSystem -> syncSystem -> Prop :=
| step_NewAccumulator s kvs :
    Z.of_nat (length (sys_live s)) < 2 ^ 63 - 1 ->
    sync_step s
      (mkSyncSystem (compiledSyncBase_NewAccumulator (sys_inst s) kvs).2
         ((keysFilter (sys_inst s) kvs,
           (compiledSyncBase_NewAccumulator (sys_inst s) kvs).1) :: sys_live s))
| step_Update s i k a v ex :
    sys_live s !! i = Some (k, a) ->
    sync_step s
      (mkSyncSystem (sys_inst s) (<[i := (k, syncAccumulator_Update a v ex)]> (sys_live s)))
| step_Snapshot s i k a a' hp' :
    sys_live s !! i = Some (k, a) ->
    syncAccumulator_SnapshotAndProcess false a (heap (sys_inst s)) = Some (a', hp') ->
    sync_step s
      (mkSyncSystem (with_heap (sys_inst s) hp') (<[i := (k, a')]> (sys_live s)))
| step_Release s i k a a' hp' :
    sys_live s !! i = Some (k, a) ->
    syncAccumulator_SnapshotAndProcess true a (heap (sys_inst s)) = Some (a', hp') ->
    sync_step s
      (mkSyncSystem (with_heap (sys_inst s) hp') (delete i (sys_live s)))
| step_Collect s ents seq output p' output' :
    range_of (data (sys_inst s)) ents ->
    lowmemorySyncInstrument_Collect ents seq (sys_inst s) output = Some (p', output') ->
    sync_step s (mkSyncSystem p' (sys_live s)).

(** The states that the calls reach from an instrument without series. *)
Inductive sync_reachable (d : Descriptor) (f : K -> K) : syncSystem -> Prop :=
| reach_init : sync_reachable d f (mkSyncSystem (mkBase ∅ d f ∅) [])
| reach_step s s' : sync_reachable d f s -> sync_step s s' -> sync_reachable d f s'.

(** The number of bound accumulators that point to the holder [l]. *)
Definition bound_to (l : loc) (live : list (K * syncAccumulator (Storage:=Storage)))
    : nat :=
  length (filter (fun ka => holder ka.2 = l) live).

(** What the calls keep: the holders of the map are allocated and
    distinct; every bound accumulator points to the holder that the map
    has for its attribute set; the reference count of a holder of the map
    is the number of bound accumulators that point to it. *)
Definition sync_invariant (s : syncSystem) : Prop :=
  separated (heap (sys_inst s)) (locs_of (data (sys_inst s))) /\
  Forall (fun ka => data (sys_inst s) !! ka.1 = Some (holder ka.2)) (sys_live s) /\
  (forall k l h,
     data (sys_inst s) !! k = Some l -> heap (sys_inst s) !! l = Some h ->
     auxiliary h = Z.of_nat (bound_to l (sys_live s))) /\
  Z.of_nat (length (sys_live s)) < 2 ^ 63.

(** A run of [Update] calls on one accumulator, in the order of the
    list. *)
Definition syncAccumulator_Updates (a : syncAccumulator (Storage:=Storage))
    (vs : list (N * ExemplarBits)) : syncAccumulator :=
  foldl (fun a ve => syncAccumulator_Update a ve.1 ve.2) a vs.

Definition asyncAccumulator_Updates (a : asyncAccumulator (N:=N))
    (vs : list (N * ExemplarBits)) : asyncAccumulator :=
  foldl (fun a ve => asyncAccumulator_Update a ve.1 ve.2) a vs.

(** The sum of the measurements of a run of updates. *)
Definition sum_of `{!SumLike Methods0} (vs : list (N * ExemplarBits)) : Z :=
  foldr (fun ve z => toZ ve.1 + z) 0 vs.

End more_instruments.

(** *** A stateful asynchronous instrument and its accumulators

    The instrument with the accumulators made so far.  An asynchronous
    accumulator keeps the pointer to its holder when the maps are
    rotated. *)
Section async_system.

Context {K : Type} `{Countable K}.
Context {Descriptor N Storage Aggregation ExemplarBits : Type}.
Context `{!Methods N Storage Aggregation ExemplarBits}.

Variable OverflowAttributeSet : K.

Record asyncSystem : Type := mkAsyncSystem {
  asys_inst : statefulAsyncInstrument (K:=K) (Descriptor:=Descriptor) (Storage:=Storage);
  asys_live : list (asyncAccumulator (N:=N))
}.

(** The calls of the interface: [NewAccumulator], [Update],
    [SnapshotAndProcess] and [Collect]. *)
Inductive async_step : asyncSystem -> asyncSystem -> Prop :=
| astep_NewAccumulator s kvs :
    async_step s
      (mkAsyncSystem
         (mkStatefulAsync
            (compiledAsyncBase_NewAccumulator (base (asys_inst s)) kvs).2
            (prior (asys_inst s)))
         ((compiledAsyncBase_NewAccumulator (base (asys_inst s)) kvs).1 :: asys_live s))
| astep_Update s i a v (ex : ExemplarBits) :
    asys_live s !! i = Some a ->
    async_step s
      (mkAsyncSystem (asys_inst s) (<[i := asyncAccumulator_Update a v ex]> (asys_live s)))
| astep_Snapshot s i a release hp' :
    asys_live s !! i = Some a ->
    asyncAccumulator_SnapshotAndProcess release a (heap (base (asys_inst s))) = Some hp' ->
    async_step s
      (mkAsyncSystem
         (mkStatefulAsync
            (mkBase hp' (desc (base (asys_inst s))) (keysFilter (base (asys_inst s)))
               (data (base (asys_inst s))))
            (prior (asys_inst s)))
         (asys_live s))
| astep_Collect s ents seq output p' output' :
    range_of (data (base (asys_inst s))) ents ->
    statefulAsyncInstrument_Collect OverflowAttributeSet ents seq (asys_inst s) output
      = Some (p', output') ->
    async_step s (mkAsyncSystem p' (asys_live s)).

(** The states that the calls reach from an instrument without series. *)
Inductive async_reachable (d : Descriptor) (f : K -> K) : asyncSystem -> Prop :=
| areach_init :
    async_reachable d f (mkAsyncSystem (mkStatefulAsync (mkBase ∅ d f ∅) ∅) [])
| areach_step s s' :
    async_reachable d f s -> async_step s s' -> async_reachable d f s'.

(** What the calls keep: the holders of the two maps are allocated and
    distinct, and so is the holder of every accumulator. *)
Definition async_invariant (s : asyncSystem) : Prop :=
  wf_async (asys_inst s) /\
  Forall (fun a => is_Some (heap (base (asys_inst s)) !! a_holder a)) (asys_live s).

End async_system.

(** *** The accumulator interfaces and the fan-out accumulator *)

Section accumulator_interface.

(** The objects that the accumulators point to. *)
Context {W N ExemplarBits : Type}.

(** Modelled from the spec: the [Updater[N]] interface of the package,
    whose declaration is not among the sources: [Update] and [MaySample].
    A method of an interface value is a function of the state of the
    objects; a call that panics returns [None]. *)
Record Updater : Type := mkUpdater {
  upd_Update : N -> ExemplarBits -> W -> option W;
  upd_MaySample : bool -> W -> option bool
}.

(** Modelled from the spec: the [Accumulator] interface of the package,
    whose declaration is not among the sources: [SnapshotAndProcess], and
    what the type assertion [coll.(Updater[N])] finds. *)
Record Accumulator : Type := mkAccumulator {
  acc_SnapshotAndProcess : bool -> W -> option W;
  acc_Updater : option Updater
}.

(** [type multiAccumulator[N] []Accumulator]. *)
Definition multiAccumulator : Type := list Accumulator.

(** [multiAccumulator.SnapshotAndProcess]. *)
Definition multiAccumulator_SnapshotAndProcess (a : multiAccumulator)
    (release : bool) (w : W) : option W :=
  for_range (fun coll w => acc_SnapshotAndProcess coll release w) a w.

(** [multiAccumulator.Update]. *)
Definition multiAccumulator_Update (a : multiAccumulator) (value : N)
    (ex : ExemplarBits) (w : W) : option W :=
  for_range (fun coll w => u ← acc_Updater coll; upd_Update u value ex w) a w.

(** [multiAccumulator.MaySample]. *)
Fixpoint multiAccumulator_MaySample (a : multiAccumulator) (isTraced : bool)
    (w : W) : option bool :=
  match a with
  | [] => Some false
  | coll :: rest =>
      u ← acc_Updater coll;
      b ← upd_MaySample u isTraced w;
      if b : bool then Some true else multiAccumulator_MaySample rest isTraced w
  end.

(** A [multiAccumulator] as a value of the two interfaces. *)
Definition multiAccumulator_Accumulator (a : multiAccumulator) : Accumulator :=
  mkAccumulator (multiAccumulator_SnapshotAndProcess a)
    (Some (mkUpdater (multiAccumulator_Update a) (multiAccumulator_MaySample a))).

(** A member that is an [Updater] and answers [b] to [MaySample]. *)
Definition answers (isTraced : bool) (w : W) (b : bool) (coll : Accumulator) : Prop :=
  exists u, acc_Updater coll = Some u /\ upd_MaySample u isTraced w = Some b.

End accumulator_interface.

Arguments Updater : clear implicits.
Arguments Accumulator : clear implicits.
Arguments multiAccumulator : clear implicits.

(** The accumulators as objects: the holders of the synchronous and of the
    asynchronous instruments, and the accumulators by address. *)
Section accumulator_objects.

Context {N Storage Aggregation ExemplarBits : Type}.
Context `{!Methods N Storage Aggregation ExemplarBits}.

Record world : Type := mkWorld {
  w_holders : gmap loc (storageHolder Storage Z);
  w_async_holders : gmap loc (storageHolder Storage notUsed);
  w_sync : gmap loc (syncAccumulator (Storage:=Storage));
  w_async : gmap loc (asyncAccumulator (N:=N))
}.

(** [syncAccumulator.MaySample]: the sampling policy [Samp] of the
    instrument decides. *)
Definition syncAccumulator_MaySample (Samp_MaySample : bool -> bool)
    (a : syncAccumulator (Storage:=Storage)) (isTraced : bool) : bool :=
  Samp_MaySample isTraced.

(** A [*syncAccumulator] as a value of the two interfaces.  [MaySample]
    does not read the accumulator. *)
Definition syncAccumulator_Accumulator (Samp_MaySample : bool -> bool) (l : loc)
    : Accumulator world N ExemplarBits :=
  mkAccumulator
    (fun release w =>
       a ← w_sync w !! l;
       '(a', hp') ← syncAccumulator_SnapshotAndProcess release a (w_holders w);
       Some (mkWorld hp' (w_async_holders w) (<[l := a']> (w_sync w)) (w_async w)))
    (Some (mkUpdater
             (fun value ex w =>
                a ← w_sync w !! l;
                Some (mkWorld (w_holders w) (w_async_holders w)
                        (<[l := syncAccumulator_Update a value ex]> (w_sync w))
                        (w_async w)))
             (fun isTraced w => Some (Samp_MaySample isTraced)))).

(** A [*asyncAccumulator] as a value of the two interfaces. *)
Definition asyncAccumulator_Accumulator (l : loc)
    : Accumulator world N ExemplarBits :=
  mkAccumulator
    (fun release w =>
       a ← w_async w !! l;
       hp' ← asyncAccumulator_SnapshotAndProcess release a (w_async_holders w);
       Some (mkWorld (w_holders w) hp' (w_sync w) (w_async w)))
    (Some (mkUpdater
             (fun value ex w =>
                a ← w_async w !! l;
                Some (mkWorld (w_holders w) (w_async_holders w) (w_sync w)
                        (<[l := asyncAccumulator_Update a value ex]> (w_async w))))
             (fun isTraced w => Some false))).

(** How often a fan-out names the accumulator at [l]. *)
Definition occurrences (l : loc) (ls : list loc) : nat :=
  length (filter (fun l' => l' = l) ls).

End accumulator_objects.

End viewstate.

(** ** Example states

    Instruments of the sum algebra over [int64], with strings for the
    attribute sets and for the descriptor. *)

Module examples.
Import viewstate.

Definition OverflowAttributeSet : string := "otel.metric.overflow".

Definition seq1 : Sequence := mkSequence 100 200 300.

Definition no_output
    : slice (Instrument (K:=string) (Descriptor:=string) (Aggregation:=Z)) :=
  mkSlice [] [].

(** A synchronous instrument: ["a"] has a sum and no reference, ["b"] has
    neither, ["c"] has no sum and two references. *)
Definition sync1 : instrumentBase (K:=string) (Descriptor:=string) (Storage:=Z) Z :=
  mkBase
    (list_to_map [(1%positive, mkHolder 5 0); (2%positive, mkHolder 0 0);
                  (3%positive, mkHolder 0 2)])
    "requests" (fun k => k)
    (list_to_map [("a", 1%positive); ("b", 2%positive); ("c", 3%positive)]).

(** An asynchronous instrument with two series. *)
Definition async1
    : instrumentBase (K:=string) (Descriptor:=string) (Storage:=Z) notUsed :=
  mkBase
    (list_to_map [(1%positive, mkHolder 7 mkNotUsed); (2%positive, mkHolder 4 mkNotUsed)])
    "queue" (fun k => k)
    (list_to_map [("a", 1%positive); ("b", 2%positive)]).

(** A stateful asynchronous instrument: ["a"] went from 4 to 7, the
    overflow series stayed at 9, and ["gone"] was not observed again. *)
Definition stateful1
    : statefulAsyncInstrument (K:=string) (Descriptor:=string) (Storage:=Z) :=
  mkStatefulAsync
    (mkBase
       (list_to_map [(1%positive, mkHolder 7 mkNotUsed); (2%positive, mkHolder 4 mkNotUsed);
                     (3%positive, mkHolder 9 mkNotUsed); (4%positive, mkHolder 9 mkNotUsed);
                     (5%positive, mkHolder 3 mkNotUsed)])
       "queue" (fun k => k)
       (list_to_map [("a", 1%positive); (OverflowAttributeSet, 3%positive)]))
    (list_to_map [("a", 2%positive); (OverflowAttributeSet, 4%positive);
                  ("gone", 5%positive)]).

(** The state of the next cycle: ["a"] is observed at 12 and ["gone"] is
    back at 8, in new holders; [prior] is the map scanned before. *)
Definition stateful2
    : statefulAsyncInstrument (K:=string) (Descriptor:=string) (Storage:=Z) :=
  mkStatefulAsync
    (mkBase
       (list_to_map [(1%positive, mkHolder 7 mkNotUsed); (3%positive, mkHolder 9 mkNotUsed);
                     (6%positive, mkHolder 9 mkNotUsed); (7%positive, mkHolder 12 mkNotUsed);
                     (8%positive, mkHolder 8 mkNotUsed)])
       "queue" (fun k => k)
       (list_to_map [("a", 7%positive); (OverflowAttributeSet, 6%positive);
                     ("gone", 8%positive)]))
    (list_to_map [("a", 1%positive); (OverflowAttributeSet, 3%positive)]).

Definition acc1 : syncAccumulator (Storage:=Z) := mkSyncAcc 5 0 1%positive.

Definition heap1 : gmap loc (storageHolder Z Z) := {[1%positive := mkHolder 10 2]}.

Definition async_acc1 : asyncAccumulator (N:=Z) := mkAsyncAcc 4 1%positive.

Definition async_heap1 : gmap loc (storageHolder Z notUsed) :=
  {[1%positive := mkHolder 10 mkNotUsed]}.

(** Three goroutines, interleaved. *)
Definition schedule1 : list nat := [0; 1; 0; 2; 1; 1; 1; 0; 0; 2; 2; 2]%nat.

End examples.

(** ** Properties of the numeric value *)

Module number_facts.
Import number.

Lemma to_int64_to_uint64 (i : Z) : is_int64 i -> to_int64 (to_uint64 i) = i.
Proof.
  unfold is_int64, to_int64, to_uint64. intros Hi.
  destruct (Z_lt_le_dec i 0) as [Hneg|Hpos].
  - replace (i mod 2 ^ 64) with (i + 2 ^ 64).
    + replace (i + 2 ^ 64 + 2 ^ 63) with (i + 2 ^ 63 + 1 * 2 ^ 64) by lia.
      rewrite Z_mod_plus_full. rewrite Z.mod_small by lia. lia.
    + apply Z.mod_unique with (q := -1); lia.
  - rewrite (Z.mod_small i) by lia. rewrite Z.mod_small by lia. lia.
Qed.

Lemma lor_shiftl_low (hi lo k : Z) :
  0 <= k -> 0 <= lo < 2 ^ k -> Z.lor (Z.shiftl hi k) lo = hi * 2 ^ k + lo.
Proof.
  intros Hk Hlo.
  assert (Hd : Z.land (Z.shiftl hi k) lo = 0).
  { apply Z.bits_inj'. intros n Hn. rewrite Z.land_spec, Z.bits_0.
    destruct (Z_lt_le_dec n k) as [Hlt|Hge].
    - rewrite Z.shiftl_spec_low by lia. reflexivity.
    - destruct (Z.eq_dec lo 0) as [->|Hnz].
      + rewrite Z.bits_0. apply andb_false_r.
      + rewrite (Z.bits_above_log2 lo n); [apply andb_false_r|lia|].
        assert (Z.log2 lo < k) by (apply Z.log2_lt_pow2; lia). lia. }
  rewrite <- Z.lxor_lor by exact Hd.
  rewrite <- Z.add_nocarry_lxor by exact Hd.
  rewrite Z.shiftl_mul_pow2 by lia. reflexivity.
Qed.

Lemma Float64bits_arith (f : float64) :
  is_float64 f ->
  Float64bits f = Z.b2z (f_sign f) * 2 ^ 63 + f_exp f * 2 ^ 52 + f_frac f.
Proof.
  intros [He Hf]. unfold Float64bits.
  replace (if f_sign f then Z.shiftl 1 63 else 0)
    with (Z.shiftl (Z.shiftl (Z.b2z (f_sign f)) 11) 52)
    by (destruct (f_sign f); reflexivity).
  rewrite <- Z.shiftl_lor.
  rewrite (lor_shiftl_low _ (f_exp f) 11) by lia.
  rewrite lor_shiftl_low by lia. lia.
Qed.

Lemma Float64bits_range (f : float64) : is_float64 f -> is_uint64 (Float64bits f).
Proof.
  intros Hwf. rewrite Float64bits_arith by exact Hwf.
  destruct Hwf as [He Hf]. unfold is_uint64.
  destruct (f_sign f); simpl Z.b2z; lia.
Qed.

Lemma Float64frombits_bits (f : float64) :
  is_float64 f -> Float64frombits (Float64bits f) = f.
Proof.
  intros Hwf. unfold Float64frombits.
  rewrite Z.testbit_odd, Z.shiftr_div_pow2, !Z.land_ones, Z.shiftr_div_pow2 by lia.
  rewrite Float64bits_arith by exact Hwf.
  destruct Hwf as [He Hf]. destruct f as [s e m]; simpl in *.
  assert (Hs : 0 <= Z.b2z s <= 1) by (destruct s; simpl; lia).
  f_equal.
  - replace (Z.b2z s * 2 ^ 63 + e * 2 ^ 52 + m)
      with (e * 2 ^ 52 + m + Z.b2z s * 2 ^ 63) by lia.
    rewrite Z.div_add by lia. rewrite Z.div_small by lia.
    destruct s; reflexivity.
  - replace (Z.b2z s * 2 ^ 63 + e * 2 ^ 52 + m)
      with (m + (Z.b2z s * 2 ^ 11 + e) * 2 ^ 52) by lia.
    rewrite Z.div_add by lia. rewrite (Z.div_small m) by lia.
    rewrite Z.add_0_l, Z.add_comm, Z_mod_plus_full. apply Z.mod_small; lia.
  - replace (Z.b2z s * 2 ^ 63 + e * 2 ^ 52 + m)
      with (m + (Z.b2z s * 2 ^ 11 + e) * 2 ^ 52) by lia.
    rewrite Z_mod_plus_full. apply Z.mod_small; lia.
Qed.

Lemma to_uint64_small (z : Z) : is_uint64 z -> to_uint64 z = z.
Proof. intros Hz. apply Z.mod_small. exact Hz. Qed.

Lemma ToFloat64_FromFloat64 (f : float64) :
  is_float64 f -> ToFloat64 (FromFloat64 f) = f.
Proof.
  intros Hwf. unfold ToFloat64, FromFloat64.
  pose proof (Float64bits_range f Hwf) as Hr.
  rewrite (to_uint64_small (Float64bits f)) by exact Hr.
  rewrite (to_uint64_small (Float64bits f)) by exact Hr.
  apply Float64frombits_bits. exact Hwf.
Qed.

(** NaN with its payload, the infinities and the zeros are binary64 data. *)
Lemma special_values_are_float64 :
  Forall is_float64
    [f64_nan; f64_pos_inf; f64_neg_inf; f64_pos_zero; f64_neg_zero].
Proof. repeat constructor; simpl; lia. Qed.

(** C5.  An [int64] written into a [Number] reads back as the same
    integer, negative ones included; a [float64] written into a [Number]
    reads back with the bit pattern it had, whatever datum it is (NaN,
    an infinity, a zero). *)
Theorem Number_roundtrip :
  (forall i : int64, is_int64 i -> ToInt64 (FromInt64 i) = i) /\
  (forall f : float64, is_float64 f ->
     Float64bits (ToFloat64 (FromFloat64 f)) = Float64bits f).
Proof.
  split.
  - intros i Hi. unfold ToInt64, FromInt64. apply to_int64_to_uint64. exact Hi.
  - intros f Hf. rewrite ToFloat64_FromFloat64 by exact Hf. reflexivity.
Qed.

Lemma Number_roundtrip_witness :
  ToInt64 (FromInt64 (-5)) = -5 /\
  Float64bits (ToFloat64 (FromFloat64 f64_nan)) = Float64bits f64_nan /\
  Float64bits (ToFloat64 (FromFloat64 f64_neg_zero)) = Float64bits f64_neg_zero.
Proof.
  destruct Number_roundtrip as [Hint Hfloat].
  split; [|split].
  - apply Hint. unfold is_int64. lia.
  - apply Hfloat. unfold is_float64. simpl. lia.
  - apply Hfloat. unfold is_float64. simpl. lia.
Defined.

(** The float half of the coercion keeps the bits. *)
Lemma CoerceToFloat64_Float64Kind (f : float64) :
  is_float64 f ->
  Float64bits (CoerceToFloat64 (FromFloat64 f) Float64Kind) = Float64bits f.
Proof.
  intros Hf. unfold CoerceToFloat64. simpl.
  change (Float64frombits (to_uint64 (FromFloat64 f))) with (ToFloat64 (FromFloat64 f)).
  rewrite ToFloat64_FromFloat64 by exact Hf. reflexivity.
Qed.

(** An integer that is not negative coerces to its conversion. *)
Lemma CoerceToFloat64_Int64Kind_nonneg (i : int64) :
  is_int64 i -> 0 <= i ->
  CoerceToFloat64 (FromInt64 i) Int64Kind = float64_of_Z i.
Proof.
  intros Hi Hpos. unfold CoerceToFloat64, FromInt64. simpl.
  rewrite to_uint64_small; [reflexivity|]. unfold is_int64, is_uint64 in *. lia.
Qed.

Lemma float64_of_Z_sign (z : Z) : f_sign (float64_of_Z z) = (z <? 0).
Proof.
  unfold float64_of_Z.
  destruct (Z.eqb_spec z 0) as [->|Hz]; [reflexivity|].
  repeat match goal with |- context [if ?b then _ else _] => destruct b end;
    reflexivity.
Qed.

(** A negative integer coerces to a float that is not negative, where its
    conversion is. *)
Lemma CoerceToFloat64_Int64Kind_negative (i : int64) :
  is_int64 i -> i < 0 ->
  f_sign (CoerceToFloat64 (FromInt64 i) Int64Kind) = false /\
  f_sign (float64_of_Z i) = true.
Proof.
  intros Hi Hneg. unfold CoerceToFloat64, FromInt64. simpl.
  rewrite !float64_of_Z_sign. split.
  - apply Z.ltb_ge. unfold to_uint64. apply Z.mod_pos_bound. lia.
  - apply Z.ltb_lt. exact Hneg.
Qed.

(** C6.  At [-1] the coercion under [Int64Kind] converts the unsigned
    value [2^64 - 1] and returns [2^64]; the conversion of the signed
    integer is [-1.0]. *)
Theorem CoerceToFloat64_minus_one :
  CoerceToFloat64 (FromInt64 (-1)) Int64Kind = mkFloat64 false 1087 0 /\
  float64_of_Z (-1) = f64_neg_one /\
  CoerceToFloat64 (FromInt64 (-1)) Int64Kind <> float64_of_Z (-1).
Proof.
  split; [|split].
  - vm_compute. reflexivity.
  - vm_compute. reflexivity.
  - vm_compute. discriminate.
Qed.

End number_facts.


(** ** Properties of the accumulators and of the instruments *)

Module viewstate_facts.
Import number viewstate number_facts.

Lemma to_int64_range (z : Z) : is_int64 (to_int64 z).
Proof.
  unfold is_int64, to_int64.
  pose proof (Z.mod_pos_bound (z + 2 ^ 63) (2 ^ 64)). lia.
Qed.

Lemma to_int64_small (z : Z) : is_int64 z -> to_int64 z = z.
Proof.
  unfold is_int64, to_int64. intros Hz. rewrite Z.mod_small by lia. lia.
Qed.

Lemma to_int64_add_l (a b : Z) : to_int64 (to_int64 a + b) = to_int64 (a + b).
Proof.
  unfold to_int64.
  replace ((a + 2 ^ 63) mod 2 ^ 64 - 2 ^ 63 + b + 2 ^ 63)
    with ((a + 2 ^ 63) mod 2 ^ 64 + b) by lia.
  rewrite Zplus_mod_idemp_l. f_equal. f_equal. lia.
Qed.

Lemma to_int64_add_r (a b : Z) : to_int64 (a + to_int64 b) = to_int64 (a + b).
Proof. rewrite Z.add_comm, to_int64_add_l. f_equal. lia. Qed.

Lemma to_int64_sub_eq_0 (a b : Z) :
  is_int64 a -> is_int64 b -> to_int64 (b - a) = 0 <-> a = b.
Proof.
  unfold is_int64, to_int64. intros Ha Hb. split.
  - intros Hz.
    assert (Hm : (b - a + 2 ^ 63) mod 2 ^ 64 = 2 ^ 63) by lia.
    destruct (Z_lt_le_dec (b - a) (- 2 ^ 63)) as [Hlo|Hlo].
    + assert ((b - a + 2 ^ 63) mod 2 ^ 64 = b - a + 2 ^ 63 + 2 ^ 64)
        by (symmetry; apply Z.mod_unique with (q := -1); lia). lia.
    + destruct (Z_lt_le_dec (b - a) (2 ^ 63)) as [Hhi|Hhi].
      * rewrite Z.mod_small in Hm by lia. lia.
      * assert ((b - a + 2 ^ 63) mod 2 ^ 64 = b - a + 2 ^ 63 - 2 ^ 64)
          by (symmetry; apply Z.mod_unique with (q := 1); lia). lia.
  - intros ->. rewrite Z.sub_diag. reflexivity.
Qed.

Section accumulators.

Context {N Storage Aggregation ExemplarBits : Type}.
Context `{M : !Methods N Storage Aggregation ExemplarBits}.

(** A write through a pointer into a holder changes that holder's storage
    and nothing else. *)
Lemma set_storage_alter {Aux} (l : loc) (s : Storage)
    (hp : gmap loc (storageHolder Storage Aux)) :
  set_storage l s hp = alter (fun h => mkHolder s (auxiliary h)) l hp.
Proof.
  unfold set_storage. apply map_eq. intros i.
  destruct (hp !! l) as [h|] eqn:Hl.
  - destruct (decide (l = i)) as [<-|Hne].
    + rewrite lookup_insert_eq, lookup_alter_eq, Hl. reflexivity.
    + rewrite lookup_insert_ne, lookup_alter_ne by done. reflexivity.
  - destruct (decide (l = i)) as [<-|Hne].
    + rewrite lookup_alter_eq, Hl. reflexivity.
    + rewrite lookup_alter_ne by done. reflexivity.
Qed.

Lemma set_storage_lookup {Aux} (l : loc) (s : Storage)
    (hp : gmap loc (storageHolder Storage Aux)) (h : storageHolder Storage Aux) :
  hp !! l = Some h -> set_storage l s hp !! l = Some (mkHolder s (auxiliary h)).
Proof. intros Hl. rewrite set_storage_alter, lookup_alter_eq, Hl. reflexivity. Qed.

Lemma set_storage_lookup_ne {Aux} (l l' : loc) (s : Storage)
    (hp : gmap loc (storageHolder Storage Aux)) :
  l <> l' -> set_storage l s hp !! l' = hp !! l'.
Proof. intros Hne. rewrite set_storage_alter, lookup_alter_ne by done. reflexivity. Qed.

Lemma set_storage_is_Some {Aux} (l l' : loc) (s : Storage)
    (hp : gmap loc (storageHolder Storage Aux)) :
  is_Some (set_storage l s hp !! l') <-> is_Some (hp !! l').
Proof.
  rewrite set_storage_alter. destruct (decide (l = l')) as [<-|Hne].
  - rewrite lookup_alter_eq. rewrite fmap_is_Some. reflexivity.
  - rewrite lookup_alter_ne by done. reflexivity.
Qed.

Lemma set_storage_auxiliary {Aux} (l l' : loc) (s : Storage)
    (hp : gmap loc (storageHolder Storage Aux)) :
  auxiliary <$> set_storage l s hp !! l' = auxiliary <$> hp !! l'.
Proof.
  rewrite set_storage_alter. destruct (decide (l = l')) as [<-|Hne].
  - rewrite lookup_alter_eq. destruct (hp !! l); reflexivity.
  - rewrite lookup_alter_ne by done. reflexivity.
Qed.

Lemma AddInt64_lookup (l : loc) (delta : Z)
    (hp : gmap loc (storageHolder Storage Z)) (h : storageHolder Storage Z) :
  hp !! l = Some h ->
  AddInt64 l delta hp !! l = Some (mkHolder (storage h) (to_int64 (auxiliary h + delta))).
Proof. intros Hl. unfold AddInt64. rewrite Hl, lookup_insert_eq. reflexivity. Qed.

Lemma AddInt64_lookup_ne (l l' : loc) (delta : Z)
    (hp : gmap loc (storageHolder Storage Z)) :
  l <> l' -> AddInt64 l delta hp !! l' = hp !! l'.
Proof.
  intros Hne. unfold AddInt64. destruct (hp !! l); [|reflexivity].
  rewrite lookup_insert_ne by done. reflexivity.
Qed.

(** C7.  With its holder allocated, [SnapshotAndProcess(release)] returns:
    [current] has been moved into [snapshot] and is what [Move] leaves
    behind, the snapshot has been merged into the holder's storage, every
    other holder is as it was, and the reference count is one less (in
    [int64]) when [release] is true and unchanged when it is false. *)
Theorem syncAccumulator_SnapshotAndProcess_spec (release : bool)
    (a : syncAccumulator) (hp : gmap loc (storageHolder Storage Z))
    (h : storageHolder Storage Z) :
  hp !! holder a = Some h ->
  exists a' hp',
    syncAccumulator_SnapshotAndProcess release a hp = Some (a', hp') /\
    holder a' = holder a /\
    current a' = (Move (current a) (snapshot a)).1 /\
    snapshot a' = (Merge (Move (current a) (snapshot a)).2 (storage h)).1 /\
    hp' !! holder a =
      Some (mkHolder (Merge (Move (current a) (snapshot a)).2 (storage h)).2
                     (if release then to_int64 (auxiliary h - 1) else auxiliary h)) /\
    (forall l, l <> holder a -> hp' !! l = hp !! l) /\
    (release = true -> - 2 ^ 63 < auxiliary h < 2 ^ 63 ->
     auxiliary <$> hp' !! holder a = Some (auxiliary h - 1)) /\
    (release = false -> auxiliary <$> hp' !! holder a = Some (auxiliary h)).
Proof.
  intros Hl.
  unfold syncAccumulator_SnapshotAndProcess, syncAccumulator_merge,
    syncAccumulator_move, syncAccumulator_release.
  destruct (Move (current a) (snapshot a)) as [cur' snap1] eqn:Hmove. simpl.
  rewrite Hl. simpl.
  destruct (Merge snap1 (storage h)) as [snap2 sto'] eqn:Hmerge. simpl.
  pose proof (set_storage_lookup (holder a) sto' hp h Hl) as Hset.
  eexists _, _. split; [reflexivity|].
  set (hp' := if release then AddInt64 (holder a) (-1) (set_storage (holder a) sto' hp)
              else set_storage (holder a) sto' hp).
  assert (Hfinal : hp' !! holder a =
            Some (mkHolder sto' (if release then to_int64 (auxiliary h - 1)
                                 else auxiliary h))).
  { unfold hp'. destruct release; [|exact Hset].
    rewrite (AddInt64_lookup _ _ _ _ Hset). reflexivity. }
  rewrite !Hfinal.
  split; [reflexivity|]. split; [reflexivity|]. split; [reflexivity|].
  split; [reflexivity|]. split; [|split].
  - intros l Hne. unfold hp'. destruct release.
    + rewrite AddInt64_lookup_ne by done. apply set_storage_lookup_ne. done.
    + apply set_storage_lookup_ne. done.
  - intros -> Hrange.
    etrans; [exact (f_equal (fmap auxiliary) Hfinal)|]. simpl. f_equal.
    apply to_int64_small. unfold is_int64. lia.
  - intros ->. exact (f_equal (fmap auxiliary) Hfinal).
Qed.

(** C10.  [asyncAccumulator.SnapshotAndProcess] does the same whatever
    its argument: it applies the staged value to the holder's storage with
    [Update] and the zero exemplar bits.  A second call applies the same
    value again, and for a sum-like algebra a staged value other than zero
    makes the second result differ from the first. *)
Theorem asyncAccumulator_SnapshotAndProcess_spec (r1 r2 : bool)
    (a : asyncAccumulator) (hp : gmap loc (storageHolder Storage notUsed))
    (h : storageHolder Storage notUsed) :
  hp !! a_holder a = Some h ->
  let once := Update (storage h) (a_current a) zeroExemplarBits in
  let twice := Update once (a_current a) zeroExemplarBits in
  asyncAccumulator_SnapshotAndProcess r1 a hp =
    asyncAccumulator_SnapshotAndProcess r2 a hp /\
  asyncAccumulator_SnapshotAndProcess r1 a hp =
    Some (<[a_holder a := mkHolder once (auxiliary h)]> hp) /\
  (asyncAccumulator_SnapshotAndProcess r1 a hp
     ≫= asyncAccumulator_SnapshotAndProcess r2 a) =
    Some (<[a_holder a := mkHolder twice (auxiliary h)]> hp) /\
  (forall SL : SumLike M,
     total twice = to_int64 (total (storage h) + 2 * toZ (a_current a)) /\
     (to_int64 (toZ (a_current a)) <> 0 -> twice <> once)).
Proof.
  intros Hl once twice.
  assert (Hstep : forall r hp0 h0, hp0 !! a_holder a = Some h0 ->
            asyncAccumulator_SnapshotAndProcess r a hp0 =
            Some (<[a_holder a :=
                      mkHolder (Update (storage h0) (a_current a) zeroExemplarBits)
                               (auxiliary h0)]> hp0)).
  { intros r hp0 h0 H0. unfold asyncAccumulator_SnapshotAndProcess, set_storage.
    rewrite H0. reflexivity. }
  split; [rewrite !(Hstep _ _ _ Hl); reflexivity|].
  split; [apply (Hstep _ _ _ Hl)|].
  split.
  - rewrite (Hstep r1 _ _ Hl).
    change (asyncAccumulator_SnapshotAndProcess r2 a
              (<[a_holder a := mkHolder once (auxiliary h)]> hp) =
            Some (<[a_holder a := mkHolder twice (auxiliary h)]> hp)).
    rewrite (Hstep r2 _ (mkHolder once (auxiliary h))) by apply lookup_insert_eq.
    rewrite insert_insert_eq. reflexivity.
  - intros SL. split.
    + unfold twice, once. rewrite !total_Update, to_int64_add_l.
      f_equal. lia.
    + intros Hnz Heq.
      assert (Hrange : is_int64 (total once))
        by (unfold once; rewrite total_Update; apply to_int64_range).
      assert (Ht : total twice = total once) by (rewrite Heq; reflexivity).
      unfold twice in Ht. rewrite total_Update in Ht.
      apply Hnz. rewrite <- (to_int64_small _ Hrange) in Ht at 2.
      revert Ht. generalize (total once) (toZ (a_current a)). intros x y.
      unfold to_int64. intros Ht.
      assert (Hm : (x + y + 2 ^ 63) mod 2 ^ 64 = (x + 2 ^ 63) mod 2 ^ 64) by lia.
      assert (Hy : (y + 2 ^ 63) mod 2 ^ 64 = 2 ^ 63 mod 2 ^ 64); [|rewrite Hy; reflexivity].
      replace (y + 2 ^ 63) with ((x + y + 2 ^ 63) - x) by lia.
      rewrite Zminus_mod, Hm, <- Zminus_mod. f_equal. lia.
Qed.

End accumulators.

Section collect.

Context {K : Type} `{Countable K}.
Context {Descriptor N Storage Aggregation ExemplarBits : Type}.
Context `{M : !Methods N Storage Aggregation ExemplarBits}.

Local Abbreviation Point := (@Point K Aggregation).
Local Abbreviation Instrument := (@Instrument K Descriptor Aggregation).
Local Abbreviation instrumentBase := (@instrumentBase K _ _ Descriptor Storage).
Local Abbreviation scanState := (@scanState K Descriptor Storage Aggregation).
Local Abbreviation statefulAsyncInstrument :=
  (@statefulAsyncInstrument K _ _ Descriptor Storage).

Lemma appendPoint_eq (inst : Instrument) (set : K) (sto : Storage)
    (tempo : Temporality) (start end_ : Time) (reset : bool) :
  appendPoint inst set sto tempo start end_ reset =
  let r := if reset then Move sto (reused inst)
           else (sto, Copy sto (reused inst)) in
  (r.1, mkInstrument (i_Descriptor inst)
          (mkSlice (elems (i_Points inst) ++
                      [mkPoint set (ToAggregation r.2) tempo start end_])
                   (tail (spare (i_Points inst))))).
Proof.
  unfold appendPoint, reused.
  destruct (spare (i_Points inst)) as [|old rest]; simpl.
  - destruct reset; [destruct (Move sto newStorage)|]; reflexivity.
  - destruct (ToStorage (p_Aggregation old)) as [o|]; simpl;
      (destruct reset; [destruct (Move sto _)|]; reflexivity).
Qed.

Lemma set_storage_id {Aux} (l : loc) (hp : gmap loc (storageHolder Storage Aux))
    (h : storageHolder Storage Aux) :
  hp !! l = Some h -> set_storage l (storage h) hp = hp.
Proof.
  intros Hl. unfold set_storage. rewrite Hl.
  apply insert_id. rewrite Hl. destruct h; reflexivity.
Qed.

Lemma rollback_snoc {A} (l sp : list A) (x : A) :
  rollback (mkSlice (l ++ [x]) sp) = mkSlice l (x :: sp).
Proof.
  unfold rollback. simpl. rewrite last_snoc, removelast_last. reflexivity.
Qed.

(** What [emitted] reads off the output of a [Collect]. *)
Lemma emitted_store {Aux} (b : instrumentBase Aux) (output : slice Instrument)
    (ioutput' : Instrument) (pts : list Point) :
  elems (i_Points ioutput') =
    elems (i_Points (appendInstrument b output).1) ++ pts ->
  emitted b output
    (storeInstrument output (appendInstrument b output).2 ioutput') = pts.
Proof.
  intros Hpts. unfold emitted, storeInstrument. simpl.
  rewrite last_snoc, Hpts. unfold len. apply drop_app_length.
Qed.

Lemma cumulative_loop {Aux} (seq : Sequence) (ents : list (K * loc))
    (hp : gmap loc (storageHolder Storage Aux)) (ioutput : Instrument) :
  Forall (fun e => is_Some (hp !! e.2)) ents ->
  exists ioutput' pts,
    for_range (cumulative_body seq) ents (hp, ioutput) = Some (hp, ioutput') /\
    i_Descriptor ioutput' = i_Descriptor ioutput /\
    elems (i_Points ioutput') = elems (i_Points ioutput) ++ pts /\
    Forall2 (cumulative_point seq hp) ents pts.
Proof.
  intros Hall. revert ioutput.
  induction Hall as [|[k l] ents [h Hl] _ IH]; intros ioutput.
  - exists ioutput, []. simpl. rewrite app_nil_r. repeat split; constructor.
  - simpl in Hl. simpl. rewrite Hl. simpl. rewrite appendPoint_eq. simpl.
    rewrite (set_storage_id _ _ _ Hl).
    edestruct IH as (ioutput' & pts & -> & Hd & Hpts & Hall2).
    eexists ioutput', (_ :: pts). split; [reflexivity|].
    split; [rewrite Hd; reflexivity|]. split.
    + rewrite Hpts. simpl. rewrite <- app_assoc. reflexivity.
    + constructor; [|exact Hall2]. exists h, (reused ioutput). split; done.
Qed.

Lemma range_of_allocated {Aux} (m : gmap K loc)
    (hp : gmap loc (storageHolder Storage Aux)) (ents : list (K * loc)) :
  range_of m ents ->
  (forall k l, m !! k = Some l -> is_Some (hp !! l)) ->
  Forall (fun e => is_Some (hp !! e.2)) ents.
Proof.
  intros Hr Hal. apply Forall_forall. intros [k l] Hin. simpl.
  apply (Hal k). apply elem_of_map_to_list. rewrite <- Hr. exact Hin.
Qed.

Lemma lowmemoryAsyncInstrument_body_eq (seq : Sequence) (e : K * loc)
    (st : gmap loc (storageHolder Storage notUsed) * Instrument) :
  lowmemoryAsyncInstrument_body seq e st = cumulative_body seq e st.
Proof. reflexivity. Qed.

Lemma statefulSyncInstrument_body_eq (seq : Sequence) (e : K * loc)
    (st : gmap loc (storageHolder Storage Z) * Instrument) :
  statefulSyncInstrument_body seq e st = cumulative_body seq e st.
Proof. reflexivity. Qed.

Lemma for_range_cons {A S : Type} (body : A -> S -> option S) (e : A)
    (rest : list A) (st st' : S) :
  body e st = Some st' ->
  for_range body (e :: rest) st = for_range body rest st'.
Proof. intros Hb. simpl. rewrite Hb. reflexivity. Qed.

Lemma for_range_ext {A S : Type} (f g : A -> S -> option S) (l : list A) (st : S) :
  (forall a s, f a s = g a s) -> for_range f l st = for_range g l st.
Proof.
  intros Hfg. revert st. induction l as [|a l IH]; intros st; simpl; [reflexivity|].
  rewrite Hfg. destruct (g a st); [apply IH|reflexivity].
Qed.

(** C8.  With every pointer of the map allocated, the low-memory
    asynchronous [Collect] returns; it emits one point per entry, in the
    order of the visit: a copy of the entry's storage, cumulative, from
    [seq.Start] to [seq.Now]; the holders are as they were, and the map of
    the instrument is empty afterwards.  Whenever it returns, the map is
    empty. *)
Theorem lowmemoryAsyncInstrument_Collect_spec (ents : list (K * loc))
    (seq : Sequence) (p : instrumentBase notUsed) (output : slice Instrument) :
  (forall p' output',
     lowmemoryAsyncInstrument_Collect ents seq p output = Some (p', output') ->
     data p' = ∅ /\ size (data p') = 0%nat) /\
  (range_of (data p) ents ->
   (forall k l, data p !! k = Some l -> is_Some (heap p !! l)) ->
   exists p' output',
     lowmemoryAsyncInstrument_Collect ents seq p output = Some (p', output') /\
     heap p' = heap p /\
     size (data p') = 0%nat /\
     Forall2 (cumulative_point seq (heap p)) ents (emitted p output output')).
Proof.
  unfold lowmemoryAsyncInstrument_Collect.
  destruct (appendInstrument p output) as [ioutput rest] eqn:Happ.
  rewrite (for_range_ext _ _ _ _ (lowmemoryAsyncInstrument_body_eq seq)).
  split.
  - intros p' output' Hc.
    destruct (for_range _ ents _) as [[hp' io']|]; simpl in Hc; [|discriminate].
    injection Hc as <- <-. simpl. split; [reflexivity|apply map_size_empty].
  - intros Hr Hal.
    destruct (cumulative_loop seq ents (heap p) ioutput
                (range_of_allocated _ _ _ Hr Hal))
      as (ioutput' & pts & -> & Hd & Hpts & Hall).
    simpl. eexists _, _. split; [reflexivity|]. simpl.
    split; [reflexivity|]. split; [apply map_size_empty|].
    replace rest with (appendInstrument p output).2 by (rewrite Happ; reflexivity).
    rewrite (emitted_store p output ioutput' pts); [exact Hall|].
    rewrite Happ. exact Hpts.
Qed.

(** The points of an entry carry its attribute set, so the points of a key
    are those of its entry. *)
Lemma filter_key_all (k : K) (o : list Point) :
  Forall (fun pt => p_Attributes pt = k) o ->
  filter (fun pt => p_Attributes pt = k) o = o.
Proof.
  induction 1 as [|pt o Hpt _ IH]; [reflexivity|].
  rewrite filter_cons_True by exact Hpt. rewrite IH. reflexivity.
Qed.

Lemma filter_key_none (k k' : K) (o : list Point) :
  k' <> k ->
  Forall (fun pt => p_Attributes pt = k') o ->
  filter (fun pt => p_Attributes pt = k) o = [].
Proof.
  intros Hne. induction 1 as [|pt o Hpt _ IH]; [reflexivity|].
  rewrite filter_cons_False by congruence. exact IH.
Qed.

Section per_key.

Variable R : K * loc -> list Point -> Prop.
Hypothesis R_key : forall e o, R e o -> Forall (fun pt => p_Attributes pt = e.1) o.

Lemma filter_key_concat_notin (ents : list (K * loc)) (outs : list (list Point))
    (k : K) :
  Forall2 R ents outs -> k ∉ ents.*1 ->
  filter (fun pt => p_Attributes pt = k) (concat outs) = [].
Proof.
  induction 1 as [|e o ents outs He _ IH]; intros Hk; [reflexivity|].
  simpl. rewrite filter_app.
  rewrite fmap_cons, not_elem_of_cons in Hk. destruct Hk as [Hne Hk].
  rewrite (filter_key_none k e.1 o) by eauto. rewrite IH by exact Hk.
  reflexivity.
Qed.

Lemma filter_key_concat_in (ents : list (K * loc)) (outs : list (list Point))
    (k : K) (l : loc) :
  Forall2 R ents outs -> NoDup ents.*1 -> (k, l) ∈ ents ->
  exists o, R (k, l) o /\ filter (fun pt => p_Attributes pt = k) (concat outs) = o.
Proof.
  induction 1 as [|e o ents outs He Hall IH]; intros Hnd Hin.
  - apply elem_of_nil in Hin. destruct Hin.
  - rewrite fmap_cons in Hnd. apply NoDup_cons in Hnd as [Hnotin Hnd].
    simpl. rewrite filter_app.
    apply elem_of_cons in Hin as [<-|Hin].
    + exists o. split; [exact He|].
      rewrite (filter_key_all k o) by (apply (R_key _ _ He)).
      rewrite (filter_key_concat_notin ents outs k Hall Hnotin).
      apply app_nil_r.
    + destruct (IH Hnd Hin) as (o' & Ho' & Hf). exists o'. split; [exact Ho'|].
      rewrite (filter_key_none k e.1 o); [exact Hf| |eauto].
      intros Heq. apply Hnotin. rewrite Heq.
      apply (list_elem_of_fmap_2 fst _ _ Hin).
Qed.

End per_key.

Lemma Forall2_impl_elem {A B} (R R' : A -> B -> Prop) (l : list A) (k : list B) :
  Forall2 R l k -> (forall x y, x ∈ l -> R x y -> R' x y) -> Forall2 R' l k.
Proof.
  induction 1 as [|x y l k Hxy _ IH]; intros Himp; constructor.
  - apply Himp; [left|exact Hxy].
  - apply IH. intros x' y' Hin. apply Himp. right. exact Hin.
Qed.

Lemma lowmemory_entry_key (seq : Sequence)
    (hp hp' : gmap loc (storageHolder Storage Z)) (dat dat' : gmap K loc)
    (e : K * loc) (o : list Point) :
  lowmemory_entry seq hp hp' dat dat' e o ->
  Forall (fun pt => p_Attributes pt = e.1) o.
Proof.
  intros (h & out & _ & _ & Hc).
  destruct (HasChange _); destruct Hc as [-> _]; repeat constructor.
Qed.

(** The loop of the low-memory synchronous [Collect]. *)
Lemma lowmemory_loop (seq : Sequence) (ents : list (K * loc)) :
  forall (hp : gmap loc (storageHolder Storage Z)) (dat : gmap K loc)
         (ioutput : Instrument),
  NoDup ents.*1 -> NoDup ents.*2 ->
  Forall (fun e => is_Some (hp !! e.2)) ents ->
  exists hp' dat' ioutput' outs,
    for_range (lowmemorySyncInstrument_body seq) ents (hp, dat, ioutput)
      = Some (hp', dat', ioutput') /\
    i_Descriptor ioutput' = i_Descriptor ioutput /\
    elems (i_Points ioutput') = elems (i_Points ioutput) ++ concat outs /\
    (cap (i_Points ioutput) <= cap (i_Points ioutput'))%nat /\
    Forall2 (lowmemory_entry seq hp hp' dat dat') ents outs /\
    (forall l, l ∉ ents.*2 -> hp' !! l = hp !! l) /\
    (forall k, k ∉ ents.*1 -> dat' !! k = dat !! k) /\
    (forall l, auxiliary <$> hp' !! l = auxiliary <$> hp !! l).
Proof.
  induction ents as [|[k l] ents IH]; intros hp dat ioutput Hnk Hnl Hal.
  - exists hp, dat, ioutput, []. simpl. rewrite app_nil_r.
    repeat split; (done || constructor).
  - rewrite fmap_cons in Hnk. rewrite fmap_cons in Hnl. simpl in Hnk, Hnl.
    apply NoDup_cons in Hnk as [Hk Hnk]. apply NoDup_cons in Hnl as [Hl Hnl].
    apply Forall_cons in Hal as [[h Hh] Hal]. simpl in Hh.
    set (out := reused ioutput).
    set (r := Move (storage h) out).
    set (pt := mkPoint k (ToAggregation r.2) DeltaTemporality
                 (seq_Last seq) (seq_Now seq)).
    set (hp1 := set_storage l r.1 hp).
    assert (Hal1 : Forall (fun e => is_Some (hp1 !! e.2)) ents).
    { eapply Forall_impl; [exact Hal|]. intros e He.
      apply set_storage_is_Some. exact He. }
    assert (Hhp1 : hp1 !! l = Some (mkHolder r.1 (auxiliary h)))
      by (apply set_storage_lookup; exact Hh).
    assert (Hframe1 : forall l', l' <> l -> hp1 !! l' = hp !! l')
      by (intros l' Hne; apply set_storage_lookup_ne; congruence).
    (* the state after the body *)
    set (dat1 := if HasChange r.2 then dat
                 else if auxiliary h =? 0 then delete k dat else dat).
    set (io1 := mkInstrument (i_Descriptor ioutput)
                  (if HasChange r.2
                   then mkSlice (elems (i_Points ioutput) ++ [pt])
                                (tail (spare (i_Points ioutput)))
                   else mkSlice (elems (i_Points ioutput))
                                (pt :: tail (spare (i_Points ioutput))))).
    assert (Hbody : lowmemorySyncInstrument_body seq (k, l) (hp, dat, ioutput)
                    = Some (hp1, dat1, io1)).
    { unfold lowmemorySyncInstrument_body. rewrite Hh. simpl.
      rewrite appendPoint_eq. simpl. fold out r pt hp1.
      rewrite last_snoc. simpl. rewrite ToStorage_ToAggregation. simpl.
      unfold dat1, io1. destruct (HasChange r.2); [reflexivity|].
      rewrite rollback_snoc. destruct (auxiliary h =? 0); reflexivity. }
    destruct (IH hp1 dat1 io1 Hnk Hnl Hal1)
      as (hp' & dat' & ioutput' & outs & Hrun & Hd & Hel & Hcap & Hall & Hfh & Hfd & Haux).
    exists hp', dat', ioutput',
      ((if HasChange r.2 then [pt] else []) :: outs).
    split; [rewrite (for_range_cons _ _ _ _ _ Hbody); exact Hrun|].
    split; [rewrite Hd; reflexivity|].
    split.
    { rewrite Hel. unfold io1. simpl.
      destruct (HasChange r.2); simpl; [rewrite <- app_assoc|]; reflexivity. }
    split.
    { etrans; [|exact Hcap]. unfold io1, cap. simpl.
      destruct (HasChange r.2); simpl; rewrite ?length_app; simpl;
        destruct (spare (i_Points ioutput)); simpl; lia. }
    split.
    { constructor.
      - exists h, out. simpl. split; [exact Hh|].
        split; [rewrite (Hfh l Hl); exact Hhp1|].
        fold r. rewrite (Hfd k Hk). unfold dat1.
        destruct (HasChange r.2); [split; reflexivity|].
        split; [reflexivity|].
        destruct (auxiliary h =? 0); [apply lookup_delete_eq|reflexivity].
      - eapply Forall2_impl_elem; [exact Hall|].
        intros [k' l'] o Hin (h' & out' & Hh' & Hh'' & Hc). simpl in *.
        assert (Hlne : l' <> l).
        { intros ->. apply Hl. apply (list_elem_of_fmap_2 snd _ _ Hin). }
        assert (Hkne : k' <> k).
        { intros ->. apply Hk. apply (list_elem_of_fmap_2 fst _ _ Hin). }
        assert (Hdat : dat1 !! k' = dat !! k').
        { unfold dat1. destruct (HasChange r.2); [reflexivity|].
          destruct (auxiliary h =? 0); [|reflexivity].
          apply lookup_delete_ne. congruence. }
        exists h', out'. simpl. rewrite <- (Hframe1 l' Hlne), <- Hdat.
        split; [exact Hh'|]. split; [exact Hh''|exact Hc]. }
    split.
    { intros l' Hl'. rewrite fmap_cons, not_elem_of_cons in Hl'.
      destruct Hl' as [Hne Hl']. simpl in Hne.
      rewrite (Hfh l' Hl'). apply Hframe1. exact Hne. }
    split.
    { intros k' Hk'. rewrite fmap_cons, not_elem_of_cons in Hk'.
      destruct Hk' as [Hne Hk']. simpl in Hne.
      rewrite (Hfd k' Hk'). unfold dat1.
      destruct (HasChange r.2); [reflexivity|].
      destruct (auxiliary h =? 0); [|reflexivity].
      apply lookup_delete_ne. congruence. }
    intros l'. rewrite Haux. apply set_storage_auxiliary.
Qed.

Lemma range_of_elem {V} (m : gmap K V) (ents : list (K * V)) (k : K) (v : V) :
  range_of m ents -> ((k, v) ∈ ents <-> m !! k = Some v).
Proof. intros Hr. rewrite Hr. apply elem_of_map_to_list. Qed.

Lemma range_of_NoDup_fst {V} (m : gmap K V) (ents : list (K * V)) :
  range_of m ents -> NoDup ents.*1.
Proof. intros Hr. rewrite Hr. apply NoDup_fst_map_to_list. Qed.

Lemma range_of_notin {V} (m : gmap K V) (ents : list (K * V)) (k : K) :
  range_of m ents -> m !! k = None -> k ∉ ents.*1.
Proof.
  intros Hr Hk Hin. apply list_elem_of_fmap in Hin as ([k' v] & -> & Hin).
  apply (range_of_elem m ents k' v Hr) in Hin. simpl in Hk. congruence.
Qed.

Lemma range_of_locs (m : gmap K loc) (ents : list (K * loc)) :
  range_of m ents -> ents.*2 ≡ₚ locs_of m.
Proof. intros Hr. unfold locs_of. rewrite Hr. reflexivity. Qed.

Lemma rollback_len_cap {A} (s : slice A) :
  elems s <> [] ->
  len (rollback s) = pred (len s) /\ cap (rollback s) = cap s.
Proof.
  destruct s as [l sp]. simpl. intros Hne.
  destruct (exists_last Hne) as (l' & x & ->).
  rewrite rollback_snoc. unfold len, cap. simpl. rewrite length_app. simpl.
  split; lia.
Qed.

(** C3.  With the holders of the map allocated and distinct, the
    low-memory synchronous [Collect] returns.  It does not touch a
    reference count and adds no key.  For every entry, with [numRefs] the
    count read before the move and the storage moved out into a point:
    when the moved-out value has a change, the point is the only point of
    the key and the entry stays; when it has none, the key has no point
    (the appended point was rolled back) and the entry is deleted exactly
    when [numRefs] is zero.  So a deleted entry had [numRefs = 0] and no
    change.  The roll-back shortens a slice by one and keeps its capacity,
    and the capacity of the points slice does not shrink. *)
Theorem lowmemorySyncInstrument_Collect_spec (ents : list (K * loc))
    (seq : Sequence) (p : instrumentBase Z) (output : slice Instrument) :
  range_of (data p) ents ->
  separated (heap p) (locs_of (data p)) ->
  exists p' output' ioutput',
    lowmemorySyncInstrument_Collect ents seq p output = Some (p', output') /\
    last (elems output') = Some ioutput' /\
    (cap (i_Points (appendInstrument p output).1) <= cap (i_Points ioutput'))%nat /\
    (forall s : slice Point, elems s <> [] ->
       len (rollback s) = pred (len s) /\ cap (rollback s) = cap s) /\
    (forall l, auxiliary <$> heap p' !! l = auxiliary <$> heap p !! l) /\
    (forall k, data p !! k = None -> data p' !! k = None) /\
    (forall k l h, data p !! k = Some l -> heap p !! l = Some h ->
       exists out,
         let numRefs := auxiliary h in
         let r := Move (storage h) out in
         heap p' !! l = Some (mkHolder r.1 numRefs) /\
         (HasChange r.2 = true ->
            filter (fun pt => p_Attributes pt = k) (emitted p output output')
              = [mkPoint k (ToAggregation r.2) DeltaTemporality
                   (seq_Last seq) (seq_Now seq)] /\
            data p' !! k = Some l) /\
         (HasChange r.2 = false ->
            filter (fun pt => p_Attributes pt = k) (emitted p output output') = [] /\
            (data p' !! k = None <-> numRefs = 0) /\
            (numRefs <> 0 -> data p' !! k = Some l)) /\
         (data p' !! k = None -> numRefs = 0 /\ HasChange r.2 = false)).
Proof.
  intros Hr [Hnd Hal].
  assert (Hnk : NoDup ents.*1) by (eapply range_of_NoDup_fst; exact Hr).
  assert (Hnl : NoDup ents.*2) by (rewrite (range_of_locs _ _ Hr); exact Hnd).
  assert (Hal' : Forall (fun e => is_Some (heap p !! e.2)) ents).
  { apply Forall_forall. intros [k l] Hin. simpl.
    rewrite Forall_forall in Hal. apply Hal.
    rewrite <- (range_of_locs _ _ Hr). apply (list_elem_of_fmap_2 snd _ _ Hin). }
  unfold lowmemorySyncInstrument_Collect.
  destruct (appendInstrument p output) as [ioutput rest] eqn:Happ.
  destruct (lowmemory_loop seq ents (heap p) (data p) ioutput Hnk Hnl Hal')
    as (hp' & dat' & ioutput' & outs & -> & Hd & Hel & Hcap & Hall & Hfh & Hfd & Haux).
  simpl.
  assert (Hem : emitted p output (storeInstrument output rest ioutput') = concat outs).
  { replace rest with (appendInstrument p output).2 by (rewrite Happ; reflexivity).
    apply emitted_store. rewrite Happ. exact Hel. }
  eexists _, _, ioutput'. split; [reflexivity|].
  split; [apply last_snoc|].
  split; [exact Hcap|].
  split; [intros s; apply rollback_len_cap|].
  split; [exact Haux|].
  split.
  { intros k Hk. simpl. rewrite Hfd; [exact Hk|].
    eapply range_of_notin; [exact Hr|exact Hk]. }
  intros k l h Hk Hh. simpl. rewrite Hem.
  apply (range_of_elem _ _ _ _ Hr) in Hk as Hin.
  destruct (filter_key_concat_in _ (lowmemory_entry_key seq (heap p) hp' (data p) dat')
              ents outs k l Hall Hnk Hin)
    as (o & (h' & out & Hh' & Hh'' & Hc) & ->).
  simpl in *. rewrite Hh in Hh'. injection Hh' as <-.
  exists out. simpl. split; [exact Hh''|].
  destruct (HasChange (Move (storage h) out).2).
  - destruct Hc as [-> Hdat]. rewrite Hdat, Hk.
    split; [intros _; split; reflexivity|]. split; [discriminate|].
    discriminate.
  - destruct Hc as [-> Hdat]. rewrite Hdat, Hk.
    split; [discriminate|].
    destruct (Z.eqb_spec (auxiliary h) 0) as [Hz|Hnz].
    + split; [intros _; split; [reflexivity|]; split; [done|done]|done].
    + split; [intros _; split; [reflexivity|]; split; [|done]|discriminate].
      split; [discriminate|done].
Qed.

Lemma locs_of_elem (m : gmap K loc) (k : K) (l : loc) :
  m !! k = Some l -> l ∈ locs_of m.
Proof.
  intros Hk. unfold locs_of.
  apply (list_elem_of_fmap_2 snd (map_to_list m) (k, l)).
  apply elem_of_map_to_list. exact Hk.
Qed.

Lemma NoDup_fmap_elem_inj {A B} (f : A -> B) (l : list A) (x y : A) :
  NoDup (f <$> l) -> x ∈ l -> y ∈ l -> f x = f y -> x = y.
Proof.
  induction l as [|a l IH]; intros Hnd Hx Hy Hf.
  - apply elem_of_nil in Hx. destruct Hx.
  - rewrite fmap_cons in Hnd. apply NoDup_cons in Hnd as [Ha Hnd].
    apply elem_of_cons in Hx as [->|Hx]; apply elem_of_cons in Hy as [->|Hy].
    + reflexivity.
    + exfalso. apply Ha. rewrite Hf. apply (list_elem_of_fmap_2 f _ _ Hy).
    + exfalso. apply Ha. rewrite <- Hf. apply (list_elem_of_fmap_2 f _ _ Hx).
    + apply IH; assumption.
Qed.

Lemma locs_of_inj (m : gmap K loc) (k k' : K) (l : loc) :
  NoDup (locs_of m) -> m !! k = Some l -> m !! k' = Some l -> k = k'.
Proof.
  intros Hnd Hk Hk'.
  assert (Heq : (k, l) = (k', l)).
  { apply (NoDup_fmap_elem_inj snd (map_to_list m)); [exact Hnd| | |reflexivity];
      apply elem_of_map_to_list; assumption. }
  congruence.
Qed.

Section stateful_async.

Variable OverflowAttributeSet : K.

Lemma delta_entry_key (seq : Sequence) (pri : gmap K loc)
    (hp hp' : gmap loc (storageHolder Storage notUsed))
    (e : K * loc) (o : list Point) :
  delta_entry seq pri hp hp' e o ->
  Forall (fun pt => p_Attributes pt = e.1) o.
Proof.
  intros (h & _ & Hm). destruct (pri !! e.1) as [pl|].
  - destruct Hm as (pv & _ & _ & _ & Hc).
    destruct (HasChange _); [destruct Hc as [out ->]|subst o]; repeat constructor.
  - destruct Hm as (_ & out & ->). repeat constructor.
Qed.

(** One turn of the loop. *)
Lemma statefulAsyncInstrument_body_spec (seq : Sequence) (pri : gmap K loc)
    (k : K) (l : loc) (st : scanState) (h : storageHolder Storage notUsed) :
  sc_heap st !! l = Some h ->
  (forall pl, pri !! k = Some pl -> pl <> l /\ is_Some (sc_heap st !! pl)) ->
  exists st1 o,
    statefulAsyncInstrument_body OverflowAttributeSet seq pri (k, l) st = Some st1 /\
    delta_entry seq pri (sc_heap st) (sc_heap st1) (k, l) o /\
    elems (i_Points (sc_ioutput st1)) = elems (i_Points (sc_ioutput st)) ++ o /\
    i_Descriptor (sc_ioutput st1) = i_Descriptor (sc_ioutput st) /\
    sc_ofe st1 = (if decide (k = OverflowAttributeSet) then Some l else sc_ofe st) /\
    (forall l', l' <> l -> pri !! k <> Some l' ->
       sc_heap st1 !! l' = sc_heap st !! l') /\
    (forall l', is_Some (sc_heap st1 !! l') <-> is_Some (sc_heap st !! l')).
Proof.
  intros Hh Hpri. unfold statefulAsyncInstrument_body, delta_entry. simpl.
  rewrite Hh. simpl.
  destruct (pri !! k) as [pl|] eqn:Hk.
  - destruct (Hpri pl eq_refl) as [Hne [pv Hpv]]. rewrite Hpv. simpl.
    destruct (SubtractSwap (storage pv) (storage h)) as [d e'] eqn:Hss. simpl.
    set (hp1 := set_storage l e' (set_storage pl d (sc_heap st))).
    assert (Hpl : hp1 !! pl = Some (mkHolder d (auxiliary pv))).
    { unfold hp1. rewrite set_storage_lookup_ne by congruence.
      apply set_storage_lookup. exact Hpv. }
    assert (Hl : hp1 !! l = Some (mkHolder e' (auxiliary h))).
    { unfold hp1. apply set_storage_lookup.
      rewrite set_storage_lookup_ne by congruence. exact Hh. }
    assert (Hfr : forall l', l' <> l -> Some pl <> Some l' ->
                    hp1 !! l' = sc_heap st !! l').
    { intros l' H1 H2. unfold hp1.
      rewrite !set_storage_lookup_ne by congruence. reflexivity. }
    assert (Hdom : forall l', is_Some (hp1 !! l') <-> is_Some (sc_heap st !! l')).
    { intros l'. unfold hp1. rewrite !set_storage_is_Some. reflexivity. }
    rewrite Hpl. simpl. destruct (HasChange d) eqn:Hc; simpl.
    + rewrite appendPoint_eq. simpl.
      assert (Hid : set_storage pl d hp1 = hp1)
        by (apply (set_storage_id pl hp1 (mkHolder d (auxiliary pv)) Hpl)).
      rewrite Hid.
      eexists _, _. split; [reflexivity|]. simpl.
      split.
      { exists h. split; [reflexivity|]. exists pv. rewrite Hss. simpl.
        rewrite Hc. repeat split; try done. eexists. reflexivity. }
      repeat split; try done; apply Hdom.
    + eexists _, []. split; [reflexivity|]. simpl. rewrite app_nil_r.
      split.
      { exists h. split; [reflexivity|]. exists pv. rewrite Hss. simpl.
        rewrite Hc. repeat split; done. }
      repeat split; try done; apply Hdom.
  - rewrite appendPoint_eq. simpl. rewrite (set_storage_id l _ _ Hh).
    eexists _, _. split; [reflexivity|]. simpl.
    split.
    { exists h. repeat split; try done. eexists. reflexivity. }
    repeat split; done.
Qed.

Lemma delta_entry_post (seq : Sequence) (pri : gmap K loc)
    (hp hp1 hp' : gmap loc (storageHolder Storage notUsed))
    (e : K * loc) (o : list Point) :
  delta_entry seq pri hp hp1 e o ->
  hp' !! e.2 = hp1 !! e.2 ->
  (forall pl, pri !! e.1 = Some pl -> hp' !! pl = hp1 !! pl) ->
  delta_entry seq pri hp hp' e o.
Proof.
  intros (h & Hh & Hm) He Hpl. exists h. split; [exact Hh|].
  destruct (pri !! e.1) as [pl|].
  - destruct Hm as (pv & Hpv & H1 & H2 & Hc). exists pv.
    rewrite (Hpl pl eq_refl), He. repeat split; assumption.
  - rewrite He. exact Hm.
Qed.

Lemma delta_entry_pre (seq : Sequence) (pri : gmap K loc)
    (hp hp1 hp' : gmap loc (storageHolder Storage notUsed))
    (e : K * loc) (o : list Point) :
  delta_entry seq pri hp1 hp' e o ->
  hp1 !! e.2 = hp !! e.2 ->
  (forall pl, pri !! e.1 = Some pl -> hp1 !! pl = hp !! pl) ->
  delta_entry seq pri hp hp' e o.
Proof.
  intros (h & Hh & Hm) He Hpl. exists h. rewrite <- He. split; [exact Hh|].
  destruct (pri !! e.1) as [pl|].
  - destruct Hm as (pv & Hpv & H1 & H2 & Hc). exists pv.
    rewrite <- (Hpl pl eq_refl). repeat split; assumption.
  - exact Hm.
Qed.

(** The loop of the stateful asynchronous [Collect]. *)
Lemma statefulAsyncInstrument_loop (seq : Sequence) (pri : gmap K loc)
    (ents : list (K * loc)) :
  forall st : scanState,
  NoDup ents.*1 ->
  NoDup (ents.*2 ++ locs_of pri) ->
  Forall (fun l => is_Some (sc_heap st !! l)) (ents.*2 ++ locs_of pri) ->
  exists st' outs,
    for_range (statefulAsyncInstrument_body OverflowAttributeSet seq pri) ents st
      = Some st' /\
    i_Descriptor (sc_ioutput st') = i_Descriptor (sc_ioutput st) /\
    elems (i_Points (sc_ioutput st')) =
      elems (i_Points (sc_ioutput st)) ++ concat outs /\
    Forall2 (delta_entry seq pri (sc_heap st) (sc_heap st')) ents outs /\
    (forall l', l' ∉ ents.*2 ->
       (forall k l, (k, l) ∈ ents -> pri !! k <> Some l') ->
       sc_heap st' !! l' = sc_heap st !! l') /\
    (forall l', is_Some (sc_heap st' !! l') <-> is_Some (sc_heap st !! l')) /\
    (forall l, (OverflowAttributeSet, l) ∈ ents -> sc_ofe st' = Some l) /\
    (OverflowAttributeSet ∉ ents.*1 -> sc_ofe st' = sc_ofe st).
Proof.
  induction ents as [|[k l] ents IH]; intros st Hnk Hnl Hal.
  - exists st, []. simpl. rewrite app_nil_r.
    split; [reflexivity|]. split; [reflexivity|]. split; [reflexivity|].
    split; [constructor|]. split; [done|]. split; [done|].
    split; [|done]. intros l Hin. apply elem_of_nil in Hin. destruct Hin.
  - rewrite fmap_cons in Hnk. rewrite fmap_cons in Hnl. rewrite fmap_cons in Hal.
    simpl in Hnk, Hnl, Hal.
    apply NoDup_cons in Hnk as [Hk Hnk]. apply NoDup_cons in Hnl as [Hl Hnl].
    apply Forall_cons in Hal as [[h Hh] Hal].
    apply NoDup_app in Hnl as Hparts. destruct Hparts as (_ & Hdisj & Hnp).
    assert (Hlp : l ∉ locs_of pri) by (intros Hin; apply Hl, elem_of_app; by right).
    assert (Hlr : l ∉ ents.*2) by (intros Hin; apply Hl, elem_of_app; by left).
    assert (Hpri : forall pl, pri !! k = Some pl ->
                     pl <> l /\ is_Some (sc_heap st !! pl)).
    { intros pl Hpl. pose proof (locs_of_elem _ _ _ Hpl) as Hin. split.
      - intros ->. exact (Hlp Hin).
      - rewrite Forall_forall in Hal. apply Hal, elem_of_app. by right. }
    destruct (statefulAsyncInstrument_body_spec seq pri k l st h Hh Hpri)
      as (st1 & o & Hbody & Hent & Hel1 & Hd1 & Hofe1 & Hfr1 & Hdom1).
    assert (Hal1 : Forall (fun l => is_Some (sc_heap st1 !! l))
                     (ents.*2 ++ locs_of pri)).
    { eapply Forall_impl; [exact Hal|]. intros l' Hl'. apply Hdom1. exact Hl'. }
    destruct (IH st1 Hnk Hnl Hal1)
      as (st' & outs & Hrun & Hd & Hel & Hall & Hfr & Hdom & Hofe & Hofe').
    (* the entries of the tail do not meet the holders of the head *)
    assert (Htail : forall k' l', (k', l') ∈ ents ->
              k' <> k /\ l' <> l /\ pri !! k <> Some l' /\
              (forall pl', pri !! k' = Some pl' ->
                 pl' <> l /\ pri !! k <> Some pl' /\ pl' ∉ ents.*2)).
    { intros k' l' Hin.
      assert (Hk' : k' <> k).
      { intros ->. apply Hk. apply (list_elem_of_fmap_2 fst _ _ Hin). }
      assert (Hl' : l' ∈ ents.*2) by apply (list_elem_of_fmap_2 snd _ _ Hin).
      split; [exact Hk'|]. split; [intros ->; exact (Hlr Hl')|].
      split.
      { intros Hc. apply (Hdisj l' Hl'). eapply locs_of_elem. exact Hc. }
      intros pl' Hpl'. pose proof (locs_of_elem _ _ _ Hpl') as Hin'.
      split; [intros ->; exact (Hlp Hin')|].
      split.
      { intros Hc. apply Hk'. eapply locs_of_inj; eassumption. }
      intros Hc. exact (Hdisj pl' Hc Hin'). }
    exists st', (o :: outs).
    split; [rewrite (for_range_cons _ _ _ _ _ Hbody); exact Hrun|].
    split; [rewrite Hd, Hd1; reflexivity|].
    split; [rewrite Hel, Hel1; simpl; rewrite <- app_assoc; reflexivity|].
    split.
    { constructor.
      - eapply delta_entry_post; [exact Hent| |].
        + simpl. apply Hfr; [exact Hlr|].
          intros k' l' Hin Hc. apply Hlp. eapply locs_of_elem. exact Hc.
        + simpl. intros pl Hpl. apply Hfr.
          * intros Hc. apply (Hdisj pl Hc). eapply locs_of_elem. exact Hpl.
          * intros k' l' Hin Hc.
            destruct (Htail k' l' Hin) as (Hk' & _).
            apply Hk'. eapply locs_of_inj; eassumption.
      - eapply Forall2_impl_elem; [exact Hall|].
        intros [k' l'] o' Hin He.
        destruct (Htail k' l' Hin) as (Hk' & Hl' & Hpk & Hpl').
        eapply delta_entry_pre; [exact He| |].
        + simpl. apply Hfr1; assumption.
        + simpl. intros pl' Hp. destruct (Hpl' pl' Hp) as (H1 & H2 & _).
          apply Hfr1; assumption. }
    split.
    { intros l' Hl' Hnot. rewrite fmap_cons, not_elem_of_cons in Hl'.
      destruct Hl' as [Hne Hl']. simpl in Hne.
      rewrite Hfr.
      - apply Hfr1; [exact Hne|]. apply (Hnot k l). left.
      - exact Hl'.
      - intros k' l0 Hin. apply (Hnot k' l0). right. exact Hin. }
    split; [intros l'; rewrite Hdom; apply Hdom1|].
    split.
    { intros l0 Hin. apply elem_of_cons in Hin as [Heq|Hin].
      - injection Heq as <- <-. rewrite Hofe' by exact Hk.
        rewrite Hofe1. rewrite decide_True by reflexivity. reflexivity.
      - apply Hofe. exact Hin. }
    intros Hnot. rewrite fmap_cons, not_elem_of_cons in Hnot.
    destruct Hnot as [Hne Hnot]. simpl in Hne.
    rewrite (Hofe' Hnot), Hofe1. rewrite decide_False by congruence. reflexivity.
Qed.

(** A whole [Collect] of the stateful asynchronous instrument. *)
Lemma statefulAsyncInstrument_Collect_run (ents : list (K * loc)) (seq : Sequence)
    (p : statefulAsyncInstrument) (output : slice Instrument) :
  range_of (data (base p)) ents ->
  wf_async p ->
  exists p' output' outs,
    statefulAsyncInstrument_Collect OverflowAttributeSet ents seq p output
      = Some (p', output') /\
    emitted (base p) output output' = concat outs /\
    Forall2 (delta_entry seq (prior p) (heap (base p)) (heap (base p'))) ents outs /\
    prior p' = data (base p) /\
    (forall l', is_Some (heap (base p) !! l') ->
       l' ∉ locs_of (data (base p)) ->
       (forall k l, data (base p) !! k = Some l -> prior p !! k <> Some l') ->
       heap (base p') !! l' = heap (base p) !! l') /\
    match data (base p) !! OverflowAttributeSet with
    | None =>
        data (base p') = ∅ /\
        (forall l', is_Some (heap (base p') !! l') <-> is_Some (heap (base p) !! l'))
    | Some l =>
        exists cpy h',
          heap (base p) !! cpy = None /\
          heap (base p') !! l = Some h' /\
          heap (base p') !! cpy =
            Some (mkHolder (Copy (storage h') zeroStorage) mkNotUsed) /\
          data (base p') = {[OverflowAttributeSet := cpy]} /\
          (forall l', l' <> cpy ->
             (is_Some (heap (base p') !! l') <-> is_Some (heap (base p) !! l')))
    end.
Proof.
  intros Hr [Hnd Hal].
  assert (Hnk : NoDup ents.*1) by (eapply range_of_NoDup_fst; exact Hr).
  pose proof (range_of_locs _ _ Hr) as Hlocs.
  unfold statefulAsyncInstrument_Collect, statefulAsyncInstrument_scan.
  destruct (appendInstrument (base p) output) as [ioutput rest] eqn:Happ.
  set (st0 := mkScan (heap (base p)) ioutput None).
  destruct (statefulAsyncInstrument_loop seq (prior p) ents st0)
    as (st & outs & -> & Hd & Hel & Hall & Hfr & Hdom & Hofe & Hofe').
  { exact Hnk. }
  { rewrite Hlocs. exact Hnd. }
  { simpl. rewrite Hlocs. exact Hal. }
  simpl in Hel, Hall, Hfr, Hdom, Hofe'. simpl.
  assert (Hem : emitted (base p) output (storeInstrument output rest (sc_ioutput st))
                = concat outs).
  { replace rest with (appendInstrument (base p) output).2
      by (rewrite Happ; reflexivity).
    apply emitted_store. rewrite Happ. exact Hel. }
  assert (Hfr' : forall l', l' ∉ locs_of (data (base p)) ->
            (forall k l, data (base p) !! k = Some l -> prior p !! k <> Some l') ->
            sc_heap st !! l' = heap (base p) !! l').
  { intros l' H1 H2. apply Hfr.
    - rewrite Hlocs. exact H1.
    - intros k l Hin. apply (H2 k l). apply (range_of_elem _ _ _ _ Hr). exact Hin. }
  unfold statefulAsyncInstrument_rotate.
  destruct (data (base p) !! OverflowAttributeSet) as [l|] eqn:Hov.
  - rewrite (Hofe l) by (apply (range_of_elem _ _ _ _ Hr); exact Hov).
    assert (Hsome : is_Some (sc_heap st !! l)).
    { apply Hdom. rewrite Forall_forall in Hal. apply Hal, elem_of_app.
      left. eapply locs_of_elem. exact Hov. }
    destruct Hsome as [h' Hh']. rewrite Hh'. simpl.
    set (cpy := fresh (dom (sc_heap st))).
    assert (Hfresh : sc_heap st !! cpy = None).
    { apply not_elem_of_dom. apply is_fresh. }
    assert (Hcl : cpy <> l) by (intros Heq; rewrite Heq, Hh' in Hfresh; discriminate).
    eexists _, _, outs. split; [reflexivity|]. simpl.
    split; [exact Hem|]. split.
    { eapply Forall2_impl; [exact Hall|]. intros e o He.
      eapply delta_entry_post; [exact He| |].
      - destruct He as (h & _ & Hm). apply lookup_insert_ne.
        intros Heq.
        assert (Hs : is_Some (sc_heap st !! e.2)).
        { destruct (prior p !! e.1); [destruct Hm as (? & _ & _ & -> & _)|
                                      destruct Hm as [-> _]]; eauto. }
        rewrite <- Heq, Hfresh in Hs. destruct Hs; discriminate.
      - intros pl Hpl. apply lookup_insert_ne. intros Heq.
        destruct He as (h & _ & Hm). rewrite Hpl in Hm.
        destruct Hm as (pv & _ & Hs & _).
        rewrite <- Heq, Hfresh in Hs. discriminate. }
    split; [reflexivity|]. split.
    { intros l' Hs H1 H2. rewrite lookup_insert_ne.
      - apply Hfr'; assumption.
      - intros Heq. apply Hdom in Hs. rewrite <- Heq, Hfresh in Hs.
        destruct Hs; discriminate. }
    exists cpy, h'. split.
    { destruct (heap (base p) !! cpy) eqn:Hc; [|reflexivity].
      assert (Hs : is_Some (sc_heap st !! cpy)) by (apply Hdom; eauto).
      rewrite Hfresh in Hs. destruct Hs; discriminate. }
    split; [rewrite lookup_insert_ne by exact Hcl; exact Hh'|].
    split; [apply lookup_insert_eq|]. split; [reflexivity|].
    intros l' Hne. rewrite lookup_insert_ne by congruence. apply Hdom.
  - rewrite Hofe' by (eapply range_of_notin; [exact Hr|exact Hov]).
    simpl. eexists _, _, outs. split; [reflexivity|]. simpl.
    split; [exact Hem|]. split; [exact Hall|]. split; [reflexivity|].
    split; [intros l' _; apply Hfr'|]. split; [reflexivity|exact Hdom].
Qed.

(** The points of a key after a [Collect]. *)
Lemma statefulAsyncInstrument_Collect_key (ents : list (K * loc)) (seq : Sequence)
    (p : statefulAsyncInstrument) (output : slice Instrument) :
  range_of (data (base p)) ents ->
  wf_async p ->
  exists p' output',
    statefulAsyncInstrument_Collect OverflowAttributeSet ents seq p output
      = Some (p', output') /\
    prior p' = data (base p) /\
    (forall k l, data (base p) !! k = Some l ->
       delta_entry seq (prior p) (heap (base p)) (heap (base p')) (k, l)
         (filter (fun pt => p_Attributes pt = k) (emitted (base p) output output'))) /\
    (forall k, data (base p) !! k = None ->
       filter (fun pt => p_Attributes pt = k) (emitted (base p) output output') = []).
Proof.
  intros Hr Hwf.
  destruct (statefulAsyncInstrument_Collect_run ents seq p output Hr Hwf)
    as (p' & output' & outs & Hc & Hem & Hall & Hpri & _).
  exists p', output'. split; [exact Hc|]. split; [exact Hpri|]. rewrite Hem.
  split.
  - intros k l Hk.
    destruct (filter_key_concat_in _ (delta_entry_key seq (prior p) _ _)
                ents outs k l Hall (range_of_NoDup_fst _ _ Hr))
      as (o & Ho & ->); [|exact Ho].
    apply (range_of_elem _ _ _ _ Hr). exact Hk.
  - intros k Hk.
    apply (filter_key_concat_notin _ (delta_entry_key seq (prior p) _ _)
             ents outs k Hall).
    eapply range_of_notin; [exact Hr|exact Hk].
Qed.

(** C1.  With the holders of the two maps allocated and distinct, the
    stateful asynchronous [Collect] returns, and for every entry of
    [data]: when [prior] has the key, the holder of [prior] holds the
    difference that [SubtractSwap] computes from the two storages, the key
    has no point when the difference has no change, and otherwise its one
    point is a copy of the difference; when [prior] does not have the key,
    its one point is a copy of the entry's storage.

    For a sum-like algebra and a series with total [c1] at this [Collect]
    and total [c2] at the next one (the [prior] map and its holder of the
    series being the ones this [Collect] left): the series has no point in
    the second cycle when [c1 = c2], and otherwise one delta point, from
    [seq.Last] to [seq.Now], whose total is [c2 - c1] in [int64]. *)
Theorem statefulAsyncInstrument_Collect_delta (ents : list (K * loc))
    (seq : Sequence) (p : statefulAsyncInstrument) (output : slice Instrument) :
  range_of (data (base p)) ents ->
  wf_async p ->
  exists p' output',
    statefulAsyncInstrument_Collect OverflowAttributeSet ents seq p output
      = Some (p', output') /\
    (forall k l h,
       data (base p) !! k = Some l -> heap (base p) !! l = Some h ->
       let pts := filter (fun pt => p_Attributes pt = k)
                    (emitted (base p) output output') in
       match prior p !! k with
       | Some pl =>
           exists pv,
             heap (base p) !! pl = Some pv /\
             let diff := (SubtractSwap (storage pv) (storage h)).1 in
             heap (base p') !! pl = Some (mkHolder diff (auxiliary pv)) /\
             (HasChange diff = false -> pts = []) /\
             (HasChange diff = true -> delta_point seq k diff pts)
       | None => delta_point seq k (storage h) pts
       end) /\
    (forall (SL : SumLike M) k l1 h1 ents2 seq2
            (p2 : statefulAsyncInstrument) (output2 : slice Instrument) l2 h2,
       data (base p) !! k = Some l1 -> heap (base p) !! l1 = Some h1 ->
       prior p2 = prior p' ->
       heap (base p2) !! l1 = heap (base p') !! l1 ->
       data (base p2) !! k = Some l2 -> heap (base p2) !! l2 = Some h2 ->
       range_of (data (base p2)) ents2 ->
       wf_async p2 ->
       let c1 := total (storage h1) in
       let c2 := total (storage h2) in
       is_int64 c1 -> is_int64 c2 ->
       exists p3 output3,
         statefulAsyncInstrument_Collect OverflowAttributeSet ents2 seq2 p2 output2
           = Some (p3, output3) /\
         let pts := filter (fun pt => p_Attributes pt = k)
                      (emitted (base p2) output2 output3) in
         (c1 = c2 -> pts = []) /\
         (c1 <> c2 ->
          exists pt s,
            pts = [pt] /\
            ToStorage (p_Aggregation pt) = Some s /\
            total s = to_int64 (c2 - c1) /\
            (is_int64 (c2 - c1) -> total s = c2 - c1) /\
            p_Temporality pt = DeltaTemporality /\
            p_Start pt = seq_Last seq2 /\ p_End pt = seq_Now seq2)).
Proof.
  intros Hr Hwf.
  destruct (statefulAsyncInstrument_Collect_key ents seq p output Hr Hwf)
    as (p' & output' & Hc & Hpri & Hkey & _).
  exists p', output'. split; [exact Hc|]. split.
  - intros k l h Hk Hh pts.
    destruct (Hkey k l Hk) as (h' & Hh' & Hm). simpl in Hh', Hm.
    rewrite Hh in Hh'. injection Hh' as <-.
    destruct (prior p !! k) as [pl|].
    + destruct Hm as (pv & Hpv & H1 & _ & Hch). exists pv.
      split; [exact Hpv|]. split; [exact H1|].
      fold pts in Hch. destruct (HasChange _); split; congruence.
    + destruct Hm as [_ Hpt]. exact Hpt.
  - intros SL k l1 h1 ents2 seq2 p2 output2 l2 h2 Hk Hh1 Hp2 Hl1 Hk2 Hh2 Hr2 Hwf2
      c1 c2 Hc1 Hc2.
    (* the holder of the series after the first cycle *)
    assert (Hpost : exists hpost, heap (base p') !! l1 = Some hpost /\
                                  total (storage hpost) = c1).
    { destruct (Hkey k l1 Hk) as (h' & Hh' & Hm). simpl in Hh', Hm.
      rewrite Hh1 in Hh'. injection Hh' as <-.
      destruct (prior p !! k) as [pl|].
      - destruct Hm as (pv & _ & _ & H2 & _). eexists. split; [exact H2|].
        simpl. apply total_SubtractSwap.
      - destruct Hm as [H2 _]. exists h1. split; [exact H2|reflexivity]. }
    destruct Hpost as (hpost & Hpost & Htot).
    destruct (statefulAsyncInstrument_Collect_key ents2 seq2 p2 output2 Hr2 Hwf2)
      as (p3 & output3 & Hc3 & _ & Hkey2 & _).
    exists p3, output3. split; [exact Hc3|].
    destruct (Hkey2 k l2 Hk2) as (h' & Hh' & Hm). simpl in Hh', Hm.
    rewrite Hh2 in Hh'. injection Hh' as <-.
    rewrite Hp2, Hpri, Hk in Hm.
    destruct Hm as (pv & Hpv & _ & _ & Hch).
    rewrite Hl1, Hpost in Hpv. injection Hpv as <-.
    pose proof (total_SubtractSwap (storage hpost) (storage h2)) as [Hd _].
    rewrite Htot in Hd. fold c2 in Hd.
    rewrite HasChange_total, Hd in Hch.
    pose proof (to_int64_sub_eq_0 c1 c2 Hc1 Hc2) as Hz.
    simpl. split.
    + intros Heq. apply Hz in Heq. rewrite Heq in Hch. exact Hch.
    + intros Hne.
      destruct (Z.eqb_spec (to_int64 (c2 - c1)) 0) as [H0|H0];
        [exfalso; apply Hne, Hz, H0|].
      simpl in Hch. destruct Hch as [out ->].
      eexists _, _. split; [reflexivity|]. simpl.
      split; [apply ToStorage_ToAggregation|].
      rewrite total_Copy, Hd.
      split; [reflexivity|]. split; [apply to_int64_small|]. done.
Qed.

Lemma locs_of_singleton (k : K) (l : loc) : locs_of {[k := l]} = [l].
Proof. unfold locs_of. rewrite map_to_list_singleton. reflexivity. Qed.

Lemma range_of_singleton (k : K) (l : loc) (ents : list (K * loc)) :
  range_of {[k := l]} ents -> ents = [(k, l)].
Proof.
  unfold range_of. rewrite map_to_list_singleton. intros Hp.
  apply Permutation_singleton_r. exact Hp.
Qed.

(** The state after a [Collect] that carried the overflow entry forward
    is well formed again. *)
Lemma wf_async_carried (p p' : statefulAsyncInstrument) (cpy : loc) :
  wf_async p ->
  heap (base p) !! cpy = None ->
  is_Some (heap (base p') !! cpy) ->
  (forall l', l' <> cpy ->
     (is_Some (heap (base p') !! l') <-> is_Some (heap (base p) !! l'))) ->
  data (base p') = {[OverflowAttributeSet := cpy]} ->
  prior p' = data (base p) ->
  wf_async p'.
Proof.
  intros [Hnd Hal] Hfresh Hcpy Hdom Hdat Hpri. unfold wf_async, separated.
  rewrite Hdat, Hpri, locs_of_singleton. simpl.
  apply NoDup_app in Hnd as (Hnd & _ & _).
  apply Forall_app in Hal as [Hal _].
  assert (Hnotin : cpy ∉ locs_of (data (base p))).
  { intros Hin. rewrite Forall_forall in Hal. apply Hal in Hin.
    rewrite Hfresh in Hin. destruct Hin; discriminate. }
  split.
  - apply NoDup_cons. split; assumption.
  - apply Forall_cons. split; [exact Hcpy|].
    apply Forall_forall. intros l' Hin. apply Hdom.
    + intros ->. exact (Hnotin Hin).
    + rewrite Forall_forall in Hal. apply Hal. exact Hin.
Qed.

(** C2.  When [data] has the Overflow Set, the stateful asynchronous
    [Collect] leaves a [data] map with the Overflow Set alone, bound to a
    new holder whose storage is a copy of the storage the scanned entry has
    after the loop; the scanned map is [prior].  For a sum-like algebra the
    copy has the total the entry had, and a next [Collect] on that state,
    with no measurement in between, emits no point and carries the same
    total forward again. *)
Theorem statefulAsyncInstrument_Collect_overflow (ents : list (K * loc))
    (seq : Sequence) (p : statefulAsyncInstrument) (output : slice Instrument)
    (l : loc) :
  range_of (data (base p)) ents ->
  wf_async p ->
  data (base p) !! OverflowAttributeSet = Some l ->
  exists p' output' cpy h',
    statefulAsyncInstrument_Collect OverflowAttributeSet ents seq p output
      = Some (p', output') /\
    heap (base p) !! cpy = None /\
    heap (base p') !! l = Some h' /\
    data (base p') = {[OverflowAttributeSet := cpy]} /\
    heap (base p') !! cpy =
      Some (mkHolder (Copy (storage h') zeroStorage) mkNotUsed) /\
    prior p' = data (base p) /\
    (forall (SL : SumLike M) h, heap (base p) !! l = Some h ->
       total (Copy (storage h') zeroStorage) = total (storage h) /\
       forall ents2 seq2 (output2 : slice Instrument),
         range_of (data (base p')) ents2 ->
         exists p'' output'' cpy2 h2,
           statefulAsyncInstrument_Collect OverflowAttributeSet ents2 seq2 p' output2
             = Some (p'', output'') /\
           emitted (base p') output2 output'' = [] /\
           data (base p'') = {[OverflowAttributeSet := cpy2]} /\
           heap (base p'') !! cpy2 = Some h2 /\
           total (storage h2) = total (storage h)).
Proof.
  intros Hr Hwf Hov.
  destruct (statefulAsyncInstrument_Collect_run ents seq p output Hr Hwf)
    as (p' & output' & outs & Hc & Hem & Hall & Hpri & _ & Hof).
  rewrite Hov in Hof. destruct Hof as (cpy & h' & Hfresh & Hl' & Hcpy & Hdat & Hdom).
  exists p', output', cpy, h'.
  split; [exact Hc|]. split; [exact Hfresh|]. split; [exact Hl'|].
  split; [exact Hdat|]. split; [exact Hcpy|]. split; [exact Hpri|].
  intros SL h Hh.
  (* the entry keeps its total through the loop *)
  assert (Htot : total (storage h') = total (storage h)).
  { destruct (filter_key_concat_in _ (delta_entry_key seq (prior p) _ _)
                ents outs OverflowAttributeSet l Hall (range_of_NoDup_fst _ _ Hr))
      as (o & (h0 & Hh0 & Hm) & _).
    { apply (range_of_elem _ _ _ _ Hr). exact Hov. }
    simpl in Hh0, Hm. rewrite Hh in Hh0. injection Hh0 as <-.
    destruct (prior p !! OverflowAttributeSet).
    - destruct Hm as (pv & _ & _ & H2 & _). rewrite Hl' in H2.
      injection H2 as ->. simpl. apply total_SubtractSwap.
    - destruct Hm as [H2 _]. rewrite Hl' in H2. injection H2 as ->. reflexivity. }
  split; [rewrite total_Copy; exact Htot|].
  intros ents2 seq2 output2 Hr2.
  assert (Hwf' : wf_async p').
  { eapply (wf_async_carried p p' cpy); eauto. }
  destruct (statefulAsyncInstrument_Collect_run ents2 seq2 p' output2 Hr2 Hwf')
    as (p'' & output'' & outs2 & Hc2 & Hem2 & Hall2 & _ & _ & Hof2).
  rewrite Hdat, lookup_singleton_eq in Hof2.
  destruct Hof2 as (cpy2 & h2' & _ & Hl2 & Hcpy2 & Hdat2 & _).
  rewrite Hdat in Hr2. apply range_of_singleton in Hr2. subst ents2.
  apply Forall2_cons_inv_l in Hall2 as (o & outs' & He & Hnil & ->).
  apply Forall2_nil_inv_l in Hnil. subst outs'.
  destruct He as (hc & Hhc & Hm). simpl in Hhc, Hm.
  rewrite Hcpy in Hhc. injection Hhc as <-.
  rewrite Hpri, Hov in Hm. destruct Hm as (pv & Hpv & _ & H2 & Hch).
  rewrite Hl' in Hpv. injection Hpv as <-. simpl in H2, Hch.
  pose proof (total_SubtractSwap (storage h') (Copy (storage h') zeroStorage))
    as [Hd Hs].
  rewrite total_Copy in Hd, Hs. rewrite Z.sub_diag in Hd.
  rewrite HasChange_total, Hd in Hch. simpl in Hch. subst o.
  exists p'', output'', cpy2, (mkHolder (Copy (storage h2') zeroStorage) mkNotUsed).
  split; [exact Hc2|]. split; [rewrite Hem2; reflexivity|].
  split; [exact Hdat2|]. split; [exact Hcpy2|].
  simpl. rewrite total_Copy. rewrite Hl2 in H2. injection H2 as ->.
  simpl. rewrite Hs. exact Htot.
Qed.

(** C9.  A series that [prior] has and [data] does not have gets no point
    in this [Collect] and is not in [prior] afterwards.  When a later
    state, with that [prior] map, has the series in [data] again, its
    [Collect] emits for it one point: a copy of the whole storage of the
    entry. *)
Theorem statefulAsyncInstrument_Collect_dropped (ents : list (K * loc))
    (seq : Sequence) (p : statefulAsyncInstrument) (output : slice Instrument)
    (k : K) (pl : loc) :
  range_of (data (base p)) ents ->
  wf_async p ->
  prior p !! k = Some pl ->
  data (base p) !! k = None ->
  exists p' output',
    statefulAsyncInstrument_Collect OverflowAttributeSet ents seq p output
      = Some (p', output') /\
    filter (fun pt => p_Attributes pt = k) (emitted (base p) output output') = [] /\
    prior p' !! k = None /\
    (forall ents2 seq2 (p2 : statefulAsyncInstrument)
            (output2 : slice Instrument) l2 h2,
       prior p2 = prior p' ->
       data (base p2) !! k = Some l2 -> heap (base p2) !! l2 = Some h2 ->
       range_of (data (base p2)) ents2 ->
       wf_async p2 ->
       exists p3 output3,
         statefulAsyncInstrument_Collect OverflowAttributeSet ents2 seq2 p2 output2
           = Some (p3, output3) /\
         delta_point seq2 k (storage h2)
           (filter (fun pt => p_Attributes pt = k)
              (emitted (base p2) output2 output3))).
Proof.
  intros Hr Hwf Hpl Hk.
  destruct (statefulAsyncInstrument_Collect_key ents seq p output Hr Hwf)
    as (p' & output' & Hc & Hpri & _ & Hnone).
  exists p', output'. split; [exact Hc|]. split; [apply Hnone; exact Hk|].
  split; [rewrite Hpri; exact Hk|].
  intros ents2 seq2 p2 output2 l2 h2 Hp2 Hk2 Hh2 Hr2 Hwf2.
  destruct (statefulAsyncInstrument_Collect_key ents2 seq2 p2 output2 Hr2 Hwf2)
    as (p3 & output3 & Hc3 & _ & Hkey & _).
  exists p3, output3. split; [exact Hc3|].
  destruct (Hkey k l2 Hk2) as (h' & Hh' & Hm). simpl in Hh', Hm.
  rewrite Hh2 in Hh'. injection Hh' as <-.
  rewrite Hp2, Hpri, Hk in Hm. destruct Hm as [_ Hpt]. exact Hpt.
Qed.

(** A [Collect] leaves a stateful asynchronous instrument well formed. *)
Lemma statefulAsyncInstrument_Collect_wf (ents : list (K * loc)) (seq : Sequence)
    (p p' : statefulAsyncInstrument) (output output' : slice Instrument) :
  range_of (data (base p)) ents ->
  wf_async p ->
  statefulAsyncInstrument_Collect OverflowAttributeSet ents seq p output
    = Some (p', output') ->
  wf_async p'.
Proof.
  intros Hr Hwf Hc.
  destruct (statefulAsyncInstrument_Collect_run ents seq p output Hr Hwf)
    as (p1 & output1 & outs & Hc1 & _ & _ & Hpri & _ & Hof).
  rewrite Hc in Hc1. injection Hc1 as <- <-.
  destruct (data (base p) !! OverflowAttributeSet) as [l|].
  - destruct Hof as (cpy & h' & Hfresh & _ & Hcpy & Hdat & Hdom).
    eapply (wf_async_carried p p' cpy); eauto.
  - destruct Hof as [Hdat Hdom]. destruct Hwf as [Hnd Hal].
    unfold wf_async, separated. rewrite Hdat, Hpri.
    unfold locs_of at 1 3. rewrite map_to_list_empty. simpl.
    apply NoDup_app in Hnd as (Hnd & _ & _).
    apply Forall_app in Hal as [Hal _].
    split; [exact Hnd|].
    eapply Forall_impl; [exact Hal|]. intros l' Hl'. apply Hdom. exact Hl'.
Qed.

End stateful_async.

(** *** Goroutines on one holder *)

Section goroutines.

Context (SL : SumLike M).
Variables (v : N) (ex : ExemplarBits) (l : loc).

Local Abbreviation goroutine := (@goroutine Storage).

Lemma merged_insert (gs : list goroutine) (i : nat) (g g' : goroutine) :
  gs !! i = Some g ->
  merged (<[i := g']> gs) = merged gs - has_merged g + has_merged g'.
Proof.
  revert i. induction gs as [|g0 gs IH]; intros [|i] Hi; simpl in *;
    try discriminate.
  - injection Hi as ->. lia.
  - rewrite (IH i Hi). lia.
Qed.

Lemma merged_finished (gs : list goroutine) :
  Forall (fun g => g_pc g = Finished) gs -> merged gs = Z.of_nat (length gs).
Proof.
  induction 1 as [|g gs Hg _ IH]; [reflexivity|].
  simpl. unfold has_merged at 1. rewrite Hg, IH. lia.
Qed.

Lemma turns_cons (i j : nat) (sched : list nat) :
  turns i (j :: sched) = if decide (j = i) then S (turns i sched) else turns i sched.
Proof.
  unfold turns. rewrite filter_cons. destruct (decide (j = i)); reflexivity.
Qed.

Lemma turns_app (i : nat) (l1 l2 : list nat) :
  turns i (l1 ++ l2) = (turns i l1 + turns i l2)%nat.
Proof. unfold turns. rewrite filter_app, length_app. reflexivity. Qed.

Lemma turns_sequential (i a n : nat) :
  turns i (flat_map (fun j => replicate 4 j) (seq a n)) =
  if decide (a <= i < a + n)%nat then 4%nat else 0%nat.
Proof.
  revert a. induction n as [|n IH]; intros a.
  - simpl. destruct (decide _); [lia|reflexivity].
  - simpl. rewrite !turns_cons, IH.
    destruct (decide (a = i)); repeat destruct (decide _); lia.
Qed.

(** There is a complete schedule for every number of goroutines. *)
Lemma sequential_schedule_complete (n : nat) :
  complete_schedule n (sequential_schedule n).
Proof.
  unfold complete_schedule, sequential_schedule. split.
  - apply Forall_forall. intros i Hi.
    apply list_elem_of_In, in_flat_map in Hi as (j & Hj & Hi).
    apply in_seq in Hj. apply list_elem_of_In, elem_of_replicate in Hi as [-> _].
    lia.
  - apply Forall_forall. intros i Hi. apply elem_of_seq in Hi.
    rewrite turns_sequential. rewrite decide_True by lia. reflexivity.
Qed.

(** One step of a goroutine that is not finished. *)
Lemma schedule_step_inv (gs : list goroutine)
    (hp : gmap loc (storageHolder Storage Z)) (i : nat) (g : goroutine)
    (h : storageHolder Storage Z) :
  gs !! i = Some g ->
  local_ok SL v l g ->
  g_pc g <> Finished ->
  hp !! l = Some h ->
  total (storage h) = to_int64 (merged gs * toZ v) ->
  exists g' hp' h',
    schedule_step v ex i (gs, hp) = Some (<[i := g']> gs, hp') /\
    local_ok SL v l g' /\
    steps_done (g_pc g') = S (steps_done (g_pc g)) /\
    hp' !! l = Some h' /\
    total (storage h') = to_int64 (merged (<[i := g']> gs) * toZ v) /\
    (forall l', l' <> l -> hp' !! l' = hp !! l').
Proof.
  intros Hi [Hl Hloc] Hpc Hh Htot.
  unfold schedule_step. rewrite Hi. simpl. unfold goroutine_step.
  destruct g as [a c]. simpl in *. destruct c; try congruence; simpl.
  - (* Update *)
    eexists _, hp, h. split; [reflexivity|].
    rewrite (merged_insert _ _ _ _ Hi). unfold has_merged. simpl.
    split; [split; [exact Hl|]|].
    { simpl. rewrite total_Update, Hloc. reflexivity. }
    split; [reflexivity|]. split; [exact Hh|].
    split; [rewrite Htot; f_equal; lia|done].
  - (* Move *)
    unfold syncAccumulator_move.
    destruct (Move (current a) (snapshot a)) as [cur' snap'] eqn:Hmove.
    pose proof (total_Move (current a) (snapshot a)) as [_ Hsnap].
    rewrite Hmove in Hsnap. simpl in Hsnap.
    eexists _, hp, h. split; [reflexivity|].
    rewrite (merged_insert _ _ _ _ Hi). unfold has_merged. simpl.
    split; [split; [exact Hl|]|].
    { simpl. rewrite Hsnap. exact Hloc. }
    split; [reflexivity|]. split; [exact Hh|].
    split; [rewrite Htot; f_equal; lia|done].
  - (* Merge *)
    unfold syncAccumulator_merge. rewrite Hl, Hh. simpl.
    destruct (Merge (snapshot a) (storage h)) as [snap' sto'] eqn:Hmerge.
    pose proof (total_Merge (snapshot a) (storage h)) as [_ Hsto].
    rewrite Hmerge in Hsto. simpl in Hsto. simpl.
    eexists _, _, _. split; [reflexivity|].
    rewrite (merged_insert _ _ _ _ Hi). unfold has_merged. simpl.
    split; [split; [done|exact I]|].
    split; [reflexivity|].
    split; [apply set_storage_lookup; exact Hh|].
    split.
    + simpl. rewrite Hsto, Htot, Hloc, to_int64_add_l, to_int64_add_r.
      f_equal. lia.
    + intros l' Hne. apply set_storage_lookup_ne. congruence.
  - (* the release *)
    unfold syncAccumulator_release. rewrite Hl.
    eexists _, _, _. split; [reflexivity|].
    rewrite (merged_insert _ _ _ _ Hi). unfold has_merged. simpl.
    split; [split; [done|exact I]|].
    split; [reflexivity|].
    split; [apply AddInt64_lookup; exact Hh|].
    split; [simpl; rewrite Htot; f_equal; lia|].
    intros l' Hne. apply AddInt64_lookup_ne. congruence.
Qed.

(** A schedule that gives every goroutine its remaining steps runs to the
    end, and the holder then has the total of all the updates. *)
Lemma run_schedule_inv (sched : list nat) :
  forall (gs : list goroutine) (hp : gmap loc (storageHolder Storage Z)),
  (forall i g, gs !! i = Some g ->
     local_ok SL v l g /\ (steps_done (g_pc g) + turns i sched = 4)%nat) ->
  Forall (fun i => (i < length gs)%nat) sched ->
  (exists h, hp !! l = Some h /\
             total (storage h) = to_int64 (merged gs * toZ v)) ->
  exists gs' hp' h',
    run_schedule v ex sched (gs, hp) = Some (gs', hp') /\
    length gs' = length gs /\
    Forall (fun g => g_pc g = Finished) gs' /\
    hp' !! l = Some h' /\
    total (storage h') = to_int64 (Z.of_nat (length gs) * toZ v) /\
    (forall l', l' <> l -> hp' !! l' = hp !! l').
Proof.
  induction sched as [|i sched IH]; intros gs hp Hgs Hlt (h & Hh & Htot).
  - assert (Hfin : Forall (fun g => g_pc g = Finished) gs).
    { apply Forall_lookup. intros i g Hi. destruct (Hgs i g Hi) as [_ Hst].
      unfold turns in Hst. simpl in Hst.
      destruct (g_pc g); simpl in Hst; (lia || reflexivity). }
    exists gs, hp, h. split; [reflexivity|]. split; [reflexivity|].
    split; [exact Hfin|]. split; [exact Hh|].
    split; [rewrite Htot, (merged_finished _ Hfin); reflexivity|done].
  - apply Forall_cons in Hlt as [Hi Hlt].
    destruct (lookup_lt_is_Some_2 gs i Hi) as [g Hg].
    destruct (Hgs i g Hg) as [Hloc Hst].
    rewrite turns_cons, decide_True in Hst by reflexivity.
    assert (Hpc : g_pc g <> Finished) by (intros Hc; rewrite Hc in Hst; simpl in Hst; lia).
    destruct (schedule_step_inv gs hp i g h Hg Hloc Hpc Hh Htot)
      as (g' & hp1 & h1 & Hstep & Hloc' & Hst' & Hh1 & Htot1 & Hfr1).
    destruct (IH (<[i := g']> gs) hp1) as (gs' & hp' & h' & Hrun & Hlen & Hfin & Hh' & Htot' & Hfr).
    { intros j g0 Hj. destruct (decide (i = j)) as [<-|Hne].
      - rewrite list_lookup_insert_eq in Hj by exact Hi. injection Hj as <-.
        split; [exact Hloc'|]. rewrite Hst'. lia.
      - rewrite list_lookup_insert_ne in Hj by exact Hne.
        destruct (Hgs j g0 Hj) as [H1 H2].
        rewrite turns_cons, decide_False in H2 by exact Hne. done. }
    { rewrite length_insert. exact Hlt. }
    { exists h1. split; assumption. }
    exists gs', hp', h'.
    split; [unfold run_schedule; rewrite (for_range_cons _ _ _ _ _ Hstep); exact Hrun|].
    rewrite length_insert in Hlen, Htot'.
    split; [exact Hlen|]. split; [exact Hfin|]. split; [exact Hh'|].
    split; [exact Htot'|].
    intros l' Hne. rewrite (Hfr l' Hne). apply Hfr1. exact Hne.
Qed.

Lemma merged_initial (accs : list (@syncAccumulator Storage)) :
  merged ((fun a => mkGoroutine a AtUpdate) <$> accs) = 0.
Proof.
  induction accs as [|a accs IH]; [reflexivity|].
  rewrite fmap_cons. simpl. exact IH.
Qed.

(** [NewAccumulator] on a key that the map has, and on one that it does
    not have. *)
Lemma NewAccumulator_existing (c : instrumentBase Z) (kvs : K)
    (h : storageHolder Storage Z) :
  data c !! keysFilter c kvs = Some l ->
  heap c !! l = Some h ->
  compiledSyncBase_NewAccumulator c kvs =
    (mkSyncAcc newStorage newStorage l,
     mkBase (<[l := mkHolder (storage h) (to_int64 (auxiliary h + 1))]> (heap c))
            (desc c) (keysFilter c) (data c)).
Proof.
  intros Hk Hh.
  unfold compiledSyncBase_NewAccumulator, compiledSyncBase_findStorage,
    getOrCreateEntry, AddInt64.
  rewrite Hk. simpl. rewrite Hh. reflexivity.
Qed.

Lemma NewAccumulator_fresh (c : instrumentBase Z) (kvs : K) :
  data c !! keysFilter c kvs = None ->
  compiledSyncBase_NewAccumulator c kvs =
    (mkSyncAcc newStorage newStorage (fresh (dom (heap c))),
     mkBase (<[fresh (dom (heap c)) := mkHolder newStorage (to_int64 (0 + 1))]> (heap c))
            (desc c) (keysFilter c)
            (<[keysFilter c kvs := fresh (dom (heap c))]> (data c))).
Proof.
  intros Hk.
  unfold compiledSyncBase_NewAccumulator, compiledSyncBase_findStorage,
    getOrCreateEntry, AddInt64.
  rewrite Hk. simpl. rewrite lookup_insert_eq. simpl.
  rewrite insert_insert_eq. reflexivity.
Qed.

Lemma new_accumulators_existing (n : nat) (kvs : K) :
  forall (c : instrumentBase Z) (h : storageHolder Storage Z),
  data c !! keysFilter c kvs = Some l ->
  heap c !! l = Some h ->
  exists c1 h1,
    new_accumulators n c kvs = (replicate n (mkSyncAcc newStorage newStorage l), c1) /\
    data c1 = data c /\ keysFilter c1 = keysFilter c /\ desc c1 = desc c /\
    heap c1 !! l = Some h1 /\ storage h1 = storage h /\
    (forall l', l' <> l -> heap c1 !! l' = heap c !! l').
Proof.
  induction n as [|n IH]; intros c h Hk Hh.
  - exists c, h. simpl. repeat split; done.
  - simpl. rewrite (NewAccumulator_existing c kvs h Hk Hh).
    edestruct (IH (mkBase (<[l := mkHolder (storage h) (to_int64 (auxiliary h + 1))]> (heap c))
                     (desc c) (keysFilter c) (data c)))
      as (c1 & h1 & -> & Hd & Hf & Hde & Hh1 & Hs & Hfr).
    { simpl. exact Hk. }
    { simpl. apply lookup_insert_eq. }
    exists c1, h1. simpl in *. repeat split; try done.
    intros l' Hne. rewrite (Hfr l' Hne). apply lookup_insert_ne. congruence.
Qed.

End goroutines.

Lemma new_accumulators_fresh (n : nat) (kvs : K) (c : instrumentBase Z) :
  (0 < n)%nat ->
  data c !! keysFilter c kvs = None ->
  exists l c1 h1,
    heap c !! l = None /\
    new_accumulators n c kvs = (replicate n (mkSyncAcc newStorage newStorage l), c1) /\
    data c1 = <[keysFilter c kvs := l]> (data c) /\
    keysFilter c1 = keysFilter c /\ desc c1 = desc c /\
    heap c1 !! l = Some h1 /\ storage h1 = newStorage /\
    (forall l', l' <> l -> heap c1 !! l' = heap c !! l').
Proof.
  intros Hn Hk. destruct n as [|n]; [lia|].
  set (l := fresh (dom (heap c))).
  assert (Hfresh : heap c !! l = None) by (apply not_elem_of_dom, is_fresh).
  simpl. rewrite (NewAccumulator_fresh c kvs Hk). fold l.
  edestruct (new_accumulators_existing l n kvs
               (mkBase (<[l := mkHolder newStorage (to_int64 (0 + 1))]> (heap c))
                  (desc c) (keysFilter c) (<[keysFilter c kvs := l]> (data c))))
    as (c1 & h1 & -> & Hd & Hf & Hde & Hh1 & Hs & Hfr).
  { simpl. apply lookup_insert_eq. }
  { simpl. apply lookup_insert_eq. }
  exists l, c1, h1. simpl in *. repeat split; try done.
  intros l' Hne. rewrite (Hfr l' Hne). apply lookup_insert_ne. congruence.
Qed.

Lemma concat_singletons {A} (l : list A) : concat ((fun x => [x]) <$> l) = l.
Proof.
  induction l as [|x l IH]; [reflexivity|].
  rewrite fmap_cons. simpl. rewrite IH. reflexivity.
Qed.

(** The point of a key after a cumulative [Collect]. *)
Lemma cumulative_point_key {Aux} (seq : Sequence)
    (hp : gmap loc (storageHolder Storage Aux)) (ents : list (K * loc))
    (pts : list Point) (k : K) (l : loc) :
  Forall2 (cumulative_point seq hp) ents pts ->
  NoDup ents.*1 -> (k, l) ∈ ents ->
  exists pt, cumulative_point seq hp (k, l) pt /\
             filter (fun pt => p_Attributes pt = k) pts = [pt].
Proof.
  intros Hall Hnd Hin.
  set (R := fun (e : K * loc) (o : list Point) =>
              exists pt, o = [pt] /\ cumulative_point seq hp e pt).
  assert (HR : forall e o, R e o -> Forall (fun pt => p_Attributes pt = e.1) o).
  { intros e o (pt & -> & h & out & _ & ->). repeat constructor. }
  assert (Hall' : Forall2 R ents ((fun x => [x]) <$> pts)).
  { apply Forall2_fmap_r. eapply Forall2_impl; [exact Hall|].
    intros e pt He. exists pt. split; [reflexivity|exact He]. }
  destruct (filter_key_concat_in R HR ents _ k l Hall' Hnd Hin)
    as (o & (pt & -> & Hpt) & Hf).
  rewrite concat_singletons in Hf. exists pt. split; assumption.
Qed.

(** C4.  On an instrument without the series, [n] accumulators are bound
    to the attribute set, and one goroutine per accumulator runs
    [Update(v, ex)] and [SnapshotAndProcess(true)].  Under every complete
    schedule of their steps the goroutines finish, and the cumulative
    [Collect] that follows emits exactly one point for the series, whose
    total is [n * v] in [int64]. *)
Theorem syncAccumulator_no_lost_updates (SL : SumLike M)
    (c : instrumentBase Z) (kvs : K) (n : nat) (v : N) (ex : ExemplarBits)
    (sched : list nat) (ents : list (K * loc)) (seq : Sequence)
    (output : slice Instrument) :
  (0 < n)%nat ->
  data c !! keysFilter c kvs = None ->
  (forall k l, data c !! k = Some l -> is_Some (heap c !! l)) ->
  complete_schedule n sched ->
  let accs := (new_accumulators n c kvs).1 in
  let c1 := (new_accumulators n c kvs).2 in
  range_of (data c1) ents ->
  exists gs' hp' c2 output' pt s,
    run_schedule v ex sched ((fun a => mkGoroutine a AtUpdate) <$> accs, heap c1)
      = Some (gs', hp') /\
    Forall (fun g => g_pc g = Finished) gs' /\
    statefulSyncInstrument_Collect ents seq
      (mkBase hp' (desc c1) (keysFilter c1) (data c1)) output = Some (c2, output') /\
    filter (fun pt => p_Attributes pt = keysFilter c kvs)
      (emitted c1 output output') = [pt] /\
    ToStorage (p_Aggregation pt) = Some s /\
    total s = to_int64 (Z.of_nat n * toZ v) /\
    (is_int64 (Z.of_nat n * toZ v) -> total s = Z.of_nat n * toZ v) /\
    p_Temporality pt = CumulativeTemporality /\
    p_Start pt = seq_Start seq /\ p_End pt = seq_Now seq.
Proof.
  intros Hn Hk Hal [Hlt Hturns] accs c1 Hr.
  destruct (new_accumulators_fresh n kvs c Hn Hk)
    as (l & c1' & h1 & Hfresh & Hnew & Hd & Hf & Hde & Hh1 & Hs & Hfr).
  assert (Haccs : accs = replicate n (mkSyncAcc newStorage newStorage l))
    by (unfold accs; rewrite Hnew; reflexivity).
  assert (Hc1 : c1 = c1') by (unfold c1; rewrite Hnew; reflexivity).
  clearbody accs c1. subst accs c1'.
  set (gs := (fun a => mkGoroutine a AtUpdate) <$>
               replicate n (mkSyncAcc (Storage:=Storage) newStorage newStorage l)).
  assert (Hlen : length gs = n) by (unfold gs; rewrite length_fmap, length_replicate; reflexivity).
  destruct (run_schedule_inv SL v ex l sched gs (heap c1))
    as (gs' & hp' & h' & Hrun & _ & Hfin & Hh' & Htot & Hfr').
  { intros i g Hi. unfold gs in Hi.
    rewrite list_lookup_fmap in Hi.
    destruct (replicate n _ !! i) as [a|] eqn:Ha; [|discriminate].
    apply lookup_replicate in Ha as [-> Hin]. injection Hi as <-.
    split; [split; [reflexivity|apply total_newStorage]|].
    simpl. rewrite Forall_forall in Hturns. apply Hturns.
    apply elem_of_seq. lia. }
  { rewrite Hlen. exact Hlt. }
  { exists h1. split; [exact Hh1|]. unfold gs. rewrite merged_initial, Hs.
    unfold newStorage. rewrite total_newStorage. reflexivity. }
  rewrite Hlen in Htot.
  (* the collection *)
  assert (Hall : Forall (fun e => is_Some (hp' !! e.2)) ents).
  { apply Forall_forall. intros [k' l'] Hin. simpl.
    apply (range_of_elem _ _ _ _ Hr) in Hin. rewrite Hd in Hin.
    destruct (decide (keysFilter c kvs = k')) as [<-|Hne].
    - rewrite lookup_insert_eq in Hin. injection Hin as <-. eauto.
    - rewrite lookup_insert_ne in Hin by exact Hne.
      assert (Hl' : l' <> l).
      { intros ->. destruct (Hal _ _ Hin) as [? Hc]. congruence. }
      rewrite (Hfr' l' Hl'), (Hfr l' Hl'). eapply Hal. exact Hin. }
  exists gs', hp'. unfold statefulSyncInstrument_Collect.
  destruct (appendInstrument (mkBase hp' (desc c1) (keysFilter c1) (data c1)) output)
    as [ioutput rest] eqn:Happ.
  rewrite (for_range_ext _ _ _ _ (statefulSyncInstrument_body_eq seq)).
  destruct (cumulative_loop seq ents hp' ioutput Hall)
    as (ioutput' & pts & Hloop & _ & Hpts & Hall2).
  simpl. rewrite Hloop. simpl.
  assert (Hem : emitted c1 output (storeInstrument output rest ioutput') = pts).
  { change (appendInstrument c1 output = (ioutput, rest)) in Happ.
    replace rest with (appendInstrument c1 output).2 by (rewrite Happ; reflexivity).
    apply emitted_store. rewrite Happ. exact Hpts. }
  destruct (cumulative_point_key seq hp' ents pts (keysFilter c kvs) l Hall2)
    as (pt & (h0 & out & Hh0 & Hpt) & Hfilter).
  { eapply range_of_NoDup_fst; exact Hr. }
  { apply (range_of_elem _ _ _ _ Hr). rewrite Hd. apply lookup_insert_eq. }
  simpl in Hh0. rewrite Hh' in Hh0. injection Hh0 as <-.
  eexists _, _, pt, _.
  split; [exact Hrun|]. split; [exact Hfin|]. split; [reflexivity|].
  rewrite Hem. split; [exact Hfilter|]. subst pt. simpl.
  split; [apply ToStorage_ToAggregation|].
  rewrite total_Copy, Htot.
  split; [reflexivity|]. split; [apply to_int64_small|]. done.
Qed.

(** *** The states that the operations reach are well formed *)

Lemma separated_empty {Aux} : separated (∅ : gmap loc (storageHolder Storage Aux)) [].
Proof. split; constructor. Qed.

Lemma getOrCreateEntry_separated {Aux} (zeroAux : Aux) (b : instrumentBase Aux)
    (kvs : K) (ls : list loc) :
  separated (heap b) (locs_of (data b) ++ ls) ->
  separated (heap (getOrCreateEntry zeroAux b kvs).2)
            (locs_of (data (getOrCreateEntry zeroAux b kvs).2) ++ ls).
Proof.
  intros [Hnd Hal]. unfold getOrCreateEntry.
  destruct (data b !! kvs) as [l|] eqn:Hk; simpl; [split; assumption|].
  set (l := fresh (dom (heap b))).
  assert (Hfresh : heap b !! l = None) by (apply not_elem_of_dom, is_fresh).
  assert (Hperm : locs_of (<[kvs := l]> (data b)) ++ ls
                  ≡ₚ l :: (locs_of (data b) ++ ls)).
  { unfold locs_of. rewrite (map_to_list_insert _ _ _ Hk). reflexivity. }
  unfold separated. rewrite Hperm. split.
  - apply NoDup_cons. split; [|exact Hnd].
    intros Hin. rewrite Forall_forall in Hal. apply Hal in Hin.
    rewrite Hfresh in Hin. destruct Hin; discriminate.
  - apply Forall_cons. split; [rewrite lookup_insert_eq; eauto|].
    eapply Forall_impl; [exact Hal|]. intros l' Hl'. simpl in Hl'.
    destruct (decide (l = l')) as [<-|Hne].
    + rewrite lookup_insert_eq. eauto.
    + rewrite lookup_insert_ne by exact Hne. exact Hl'.
Qed.

Lemma AddInt64_is_Some (l l' : loc) (delta : Z)
    (hp : gmap loc (storageHolder Storage Z)) :
  is_Some (AddInt64 l delta hp !! l') <-> is_Some (hp !! l').
Proof.
  unfold AddInt64. destruct (hp !! l) as [h|] eqn:Hl; [|reflexivity].
  destruct (decide (l = l')) as [<-|Hne].
  - rewrite lookup_insert_eq, Hl. split; eauto.
  - rewrite lookup_insert_ne by exact Hne. reflexivity.
Qed.

(** Binding an accumulator keeps a synchronous instrument well formed. *)
Lemma compiledSyncBase_NewAccumulator_separated (c : instrumentBase Z) (kvs : K) :
  separated (heap c) (locs_of (data c)) ->
  separated (heap (compiledSyncBase_NewAccumulator c kvs).2)
            (locs_of (data (compiledSyncBase_NewAccumulator c kvs).2)).
Proof.
  intros Hsep.
  pose proof (getOrCreateEntry_separated 0 c (keysFilter c kvs) []) as Hg.
  rewrite !app_nil_r in Hg. specialize (Hg Hsep).
  unfold compiledSyncBase_NewAccumulator, compiledSyncBase_findStorage.
  destruct (getOrCreateEntry 0 c (keysFilter c kvs)) as [l c1]. simpl in *.
  destruct Hg as [Hnd Hal]. split; [exact Hnd|].
  eapply Forall_impl; [exact Hal|]. intros l' Hl'. apply AddInt64_is_Some. exact Hl'.
Qed.

(** Binding an accumulator keeps a stateful asynchronous instrument well
    formed. *)
Lemma compiledAsyncBase_NewAccumulator_wf (p : statefulAsyncInstrument) (kvs : K) :
  wf_async p ->
  wf_async (mkStatefulAsync (compiledAsyncBase_NewAccumulator (base p) kvs).2 (prior p)).
Proof.
  unfold wf_async. intros Hsep. simpl.
  pose proof (getOrCreateEntry_separated mkNotUsed (base p)
                (keysFilter (base p) kvs) (locs_of (prior p)) Hsep) as Hg.
  unfold compiledAsyncBase_NewAccumulator, compiledAsyncBase_findStorage.
  destruct (getOrCreateEntry mkNotUsed (base p) (keysFilter (base p) kvs)) as [l c1].
  exact Hg.
Qed.

End collect.

End viewstate_facts.

(** ** The theorems at the example states *)

Module witnesses.
Import number viewstate examples viewstate_facts.

Ltac by_decision := apply (bool_decide_unpack _); vm_compute; exact I.

Lemma range_of_map_to_list {K V : Type} `{Countable K} (m : gmap K V) :
  range_of m (map_to_list m).
Proof. unfold range_of. reflexivity. Defined.

Lemma sync1_allocated :
  map_Forall (fun (_ : string) l => is_Some (heap sync1 !! l)) (data sync1).
Proof. by_decision. Defined.

Lemma async1_allocated :
  map_Forall (fun (_ : string) l => is_Some (heap async1 !! l)) (data async1).
Proof. by_decision. Defined.

Lemma sync1_separated : separated (heap sync1) (locs_of (data sync1)).
Proof. unfold separated. split; by_decision. Defined.

Lemma stateful1_wf : wf_async stateful1.
Proof. unfold wf_async, separated. split; by_decision. Defined.

Lemma stateful2_wf : wf_async stateful2.
Proof. unfold wf_async, separated. split; by_decision. Defined.

Lemma schedule1_complete : complete_schedule 3 schedule1.
Proof. unfold complete_schedule. split; by_decision. Defined.

(** C7 at [acc1]: the release takes the count from 2 to 1. *)
Lemma syncAccumulator_SnapshotAndProcess_witness :
  exists a' hp',
    syncAccumulator_SnapshotAndProcess true acc1 heap1 = Some (a', hp') /\
    auxiliary <$> hp' !! 1%positive = Some 1.
Proof.
  destruct (syncAccumulator_SnapshotAndProcess_spec true acc1 heap1 (mkHolder 10 2))
    as (a' & hp' & Hc & _ & _ & _ & _ & _ & Hrel & _); [reflexivity|].
  exists a', hp'. split; [exact Hc|].
  apply Hrel; [reflexivity|]. simpl. lia.
Defined.

(** C10 at [async_acc1]: the second call adds the staged 4 again. *)
Lemma asyncAccumulator_SnapshotAndProcess_witness :
  asyncAccumulator_SnapshotAndProcess true async_acc1 async_heap1 =
  asyncAccumulator_SnapshotAndProcess false async_acc1 async_heap1.
Proof.
  destruct (asyncAccumulator_SnapshotAndProcess_spec true false async_acc1
              async_heap1 (mkHolder 10 mkNotUsed)) as (Hsame & _); [reflexivity|].
  exact Hsame.
Defined.

(** C8 at [async1]. *)
Lemma lowmemoryAsyncInstrument_Collect_witness :
  exists p' output',
    lowmemoryAsyncInstrument_Collect (map_to_list (data async1)) seq1 async1
      no_output = Some (p', output') /\
    size (data p') = 0%nat.
Proof.
  destruct (lowmemoryAsyncInstrument_Collect_spec (map_to_list (data async1)) seq1
              async1 no_output) as [_ Hrun].
  destruct (Hrun (range_of_map_to_list _) async1_allocated)
    as (p' & output' & Hc & _ & Hsize & _).
  exists p', output'. split; [exact Hc|exact Hsize].
Defined.

(** C3 at [sync1]. *)
Lemma lowmemorySyncInstrument_Collect_witness :
  exists p' output',
    lowmemorySyncInstrument_Collect (map_to_list (data sync1)) seq1 sync1
      no_output = Some (p', output').
Proof.
  destruct (lowmemorySyncInstrument_Collect_spec (map_to_list (data sync1)) seq1
              sync1 no_output (range_of_map_to_list _) sync1_separated)
    as (p' & output' & _ & Hc & _).
  exists p', output'. exact Hc.
Defined.

(** C1 at [stateful1]. *)
Lemma statefulAsyncInstrument_Collect_delta_witness :
  exists p' output',
    statefulAsyncInstrument_Collect OverflowAttributeSet
      (map_to_list (data (base stateful1))) seq1 stateful1 no_output
    = Some (p', output').
Proof.
  destruct (statefulAsyncInstrument_Collect_delta OverflowAttributeSet
              (map_to_list (data (base stateful1))) seq1 stateful1 no_output
              (range_of_map_to_list _) stateful1_wf)
    as (p' & output' & Hc & _).
  exists p', output'. exact Hc.
Defined.

(** C2 at [stateful1], whose overflow entry is the holder 3. *)
Lemma statefulAsyncInstrument_Collect_overflow_witness :
  exists p' output' cpy h,
    statefulAsyncInstrument_Collect OverflowAttributeSet
      (map_to_list (data (base stateful1))) seq1 stateful1 no_output
    = Some (p', output') /\
    heap (base p') !! cpy = Some h /\
    data (base p') = {[OverflowAttributeSet := cpy]}.
Proof.
  destruct (statefulAsyncInstrument_Collect_overflow OverflowAttributeSet
              (map_to_list (data (base stateful1))) seq1 stateful1 no_output
              3%positive (range_of_map_to_list _) stateful1_wf)
    as (p' & output' & cpy & h' & Hc & _ & _ & Hdat & Hcpy & _); [reflexivity|].
  exists p', output', cpy. eexists. split; [exact Hc|]. split; [exact Hcpy|exact Hdat].
Defined.

(** C9 at [stateful1] and the series ["gone"]. *)
Lemma statefulAsyncInstrument_Collect_dropped_witness :
  exists p' output',
    statefulAsyncInstrument_Collect OverflowAttributeSet
      (map_to_list (data (base stateful1))) seq1 stateful1 no_output
    = Some (p', output') /\
    prior p' !! "gone" = None.
Proof.
  destruct (statefulAsyncInstrument_Collect_dropped OverflowAttributeSet
              (map_to_list (data (base stateful1))) seq1 stateful1 no_output
              "gone" 5%positive (range_of_map_to_list _) stateful1_wf)
    as (p' & output' & Hc & _ & Hpri & _); [reflexivity|reflexivity|].
  exists p', output'. split; [exact Hc|exact Hpri].
Defined.

(** C4 at three goroutines that add 5 to the new series ["z"] of
    [sync1]. *)
Lemma syncAccumulator_no_lost_updates_witness :
  exists gs' hp' c2 output' pt s,
    run_schedule 5 tt schedule1
      ((fun a => mkGoroutine a AtUpdate) <$> (new_accumulators 3 sync1 "z").1,
       heap (new_accumulators 3 sync1 "z").2) = Some (gs', hp') /\
    statefulSyncInstrument_Collect
      (map_to_list (data (new_accumulators 3 sync1 "z").2)) seq1
      (mkBase hp' "requests" (fun k => k) (data (new_accumulators 3 sync1 "z").2))
      no_output = Some (c2, output') /\
    filter (fun pt => p_Attributes pt = "z")
      (emitted (new_accumulators 3 sync1 "z").2 no_output output') = [pt] /\
    ToStorage (p_Aggregation pt) = Some s /\ total s = 15.
Proof.
  destruct (syncAccumulator_no_lost_updates Int64Sum_SumLike sync1 "z" 3 5 tt
              schedule1 (map_to_list (data (new_accumulators 3 sync1 "z").2))
              seq1 no_output)
    as (gs' & hp' & c2 & output' & pt & s & Hrun & _ & Hc & Hf & Hs & _ & Htot & _).
  - lia.
  - reflexivity.
  - exact sync1_allocated.
  - exact schedule1_complete.
  - apply range_of_map_to_list.
  - exists gs', hp', c2, output', pt, s.
    split; [exact Hrun|]. split; [exact Hc|]. split; [exact Hf|].
    split; [exact Hs|]. apply Htot. unfold is_int64. simpl. lia.
Defined.

End witnesses.

(** ** The example states, evaluated *)

Module tests.
Import number viewstate examples.

(** The low-memory synchronous [Collect] on [sync1]: ["a"] reports its
    delta and stays, ["b"] is deleted, ["c"] stays for its references. *)
Example lowmemorySync_sync1 :
  (fun r => (map_to_list (data r.1), emitted sync1 no_output r.2)) <$>
    lowmemorySyncInstrument_Collect (N:=Z) (ExemplarBits:=unit)
      (map_to_list (data sync1)) seq1 sync1 no_output
  = Some ([("c", 3%positive); ("a", 1%positive)],
          [mkPoint "a" 5 DeltaTemporality 200 300]).
Proof. vm_compute. reflexivity. Qed.

(** The stateful asynchronous [Collect] on [stateful1]: ["a"] reports
    7 - 4, the overflow series did not change and is carried forward in the
    holder 6, ["gone"] is dropped. *)
Example statefulAsync_stateful1 :
  (fun r => (map_to_list (data (base r.1)), map_to_list (prior r.1),
             storage <$> heap (base r.1) !! 6%positive,
             emitted (base stateful1) no_output r.2)) <$>
    statefulAsyncInstrument_Collect (N:=Z) (ExemplarBits:=unit)
      OverflowAttributeSet (map_to_list (data (base stateful1))) seq1 stateful1
      no_output
  = Some ([(OverflowAttributeSet, 6%positive)],
          [(OverflowAttributeSet, 3%positive); ("a", 1%positive)],
          Some 9,
          [mkPoint "a" 3 DeltaTemporality 200 300]).
Proof. vm_compute. reflexivity. Qed.

(** The next cycle, on [stateful2]: ["a"] reports 12 - 7, and ["gone"],
    back at 8, reports 8. *)
Example statefulAsync_stateful2 :
  (fun r => emitted (base stateful2) no_output r.2) <$>
    statefulAsyncInstrument_Collect (N:=Z) (ExemplarBits:=unit)
      OverflowAttributeSet [("a", 7%positive); (OverflowAttributeSet, 6%positive);
                            ("gone", 8%positive)] seq1 stateful2 no_output
  = Some [mkPoint "a" 5 DeltaTemporality 200 300;
          mkPoint "gone" 8 DeltaTemporality 200 300].
Proof. vm_compute. reflexivity. Qed.

(** The coercion of small integers. *)
Example CoerceToFloat64_three :
  CoerceToFloat64 (FromInt64 3) Int64Kind = mkFloat64 false 1024 (2 ^ 51).
Proof. vm_compute. reflexivity. Qed.

End tests.

(** ** More of package [number] *)

Module number_more.
Import number number_facts.

Lemma Float64frombits_is_float64 (b : Z) : is_float64 (Float64frombits b).
Proof.
  unfold is_float64, Float64frombits. cbn [f_sign f_exp f_frac].
  rewrite !Z.land_ones by lia.
  split; apply Z.mod_pos_bound; lia.
Qed.

Lemma Float64bits_frombits (b : Z) :
  is_uint64 b -> Float64bits (Float64frombits b) = b.
Proof.
  intros Hb. rewrite Float64bits_arith by apply Float64frombits_is_float64.
  unfold Float64frombits, is_uint64 in *. cbn [f_sign f_exp f_frac].
  rewrite Z.testbit_odd, !Z.land_ones, !Z.shiftr_div_pow2 by lia.
  assert (Hhi : 0 <= b / 2 ^ 63 < 2)
    by (split; [apply Z.div_pos; lia|apply Z.div_lt_upper_bound; lia]).
  assert (Hodd : Z.b2z (Z.odd (b / 2 ^ 63)) = b / 2 ^ 63).
  { destruct (Z.eq_dec (b / 2 ^ 63) 0) as [->|Hne]; [reflexivity|].
    replace (b / 2 ^ 63) with 1 by lia. reflexivity. }
  rewrite Hodd.
  pose proof (Z.div_mod b (2 ^ 52) ltac:(lia)) as H1.
  pose proof (Z.div_mod (b / 2 ^ 52) (2 ^ 11) ltac:(lia)) as H2.
  rewrite Z.div_div in H2 by lia.
  change (2 ^ 52 * 2 ^ 11) with (2 ^ 63) in H2. lia.
Qed.

(** X1.  A [Number] read as an [int64] and written back is the same
    [Number]: the signed reading loses none of the 64 bits. *)
Theorem FromInt64_ToInt64 (n : Number) :
  is_uint64 n -> FromInt64 (ToInt64 n) = n.
Proof.
  unfold is_uint64, FromInt64, ToInt64, to_uint64, to_int64. intros Hn.
  destruct (Z_lt_le_dec n (2 ^ 63)) as [Hlo|Hhi].
  - rewrite (Z.mod_small (n + 2 ^ 63)) by lia.
    replace (n + 2 ^ 63 - 2 ^ 63) with n by lia. apply Z.mod_small. lia.
  - replace ((n + 2 ^ 63) mod 2 ^ 64) with (n - 2 ^ 63)
      by (apply Z.mod_unique with (q := 1); lia).
    symmetry. apply Z.mod_unique with (q := -1); lia.
Qed.

Lemma FromInt64_ToInt64_witness : FromInt64 (ToInt64 (2 ^ 64 - 1)) = 2 ^ 64 - 1.
Proof. apply FromInt64_ToInt64. unfold is_uint64. lia. Defined.

(** X2.  A [Number] read as a [float64] and written back is the same
    [Number]: every 64-bit pattern is the pattern of the float it decodes
    to, and that float is a binary64 datum. *)
Theorem FromFloat64_ToFloat64 (n : Number) :
  is_uint64 n ->
  is_float64 (ToFloat64 n) /\ FromFloat64 (ToFloat64 n) = n.
Proof.
  intros Hn. unfold FromFloat64, ToFloat64.
  rewrite (to_uint64_small n) by exact Hn.
  split; [apply Float64frombits_is_float64|].
  rewrite Float64bits_frombits by exact Hn. apply to_uint64_small. exact Hn.
Qed.

Lemma FromFloat64_ToFloat64_witness :
  FromFloat64 (ToFloat64 (2 ^ 63 + 5)) = 2 ^ 63 + 5.
Proof. apply FromFloat64_ToFloat64. unfold is_uint64. lia. Defined.

(** X3.  Under [Int64Kind] the coercion never returns a float with the
    sign bit set, whatever the [Number]. *)
Theorem CoerceToFloat64_Int64Kind_sign (n : Number) :
  is_uint64 n -> f_sign (CoerceToFloat64 n Int64Kind) = false.
Proof.
  intros [Hn _]. unfold CoerceToFloat64. simpl.
  rewrite float64_of_Z_sign. apply Z.ltb_ge. exact Hn.
Qed.

Lemma CoerceToFloat64_Int64Kind_sign_witness :
  f_sign (CoerceToFloat64 (FromInt64 (-7)) Int64Kind) = false.
Proof.
  apply CoerceToFloat64_Int64Kind_sign. unfold is_uint64, FromInt64, to_uint64.
  apply Z.mod_pos_bound. lia.
Defined.

Lemma float64_of_Z_small (m : Z) :
  0 < m < 2 ^ 53 ->
  float64_of_Z m =
    mkFloat64 false (1023 + Z.log2 m) (m * 2 ^ (52 - Z.log2 m) - 2 ^ 52).
Proof.
  intros Hm. unfold float64_of_Z.
  destruct (Z.eqb_spec m 0) as [->|_]; [lia|].
  rewrite Z.abs_eq by lia.
  assert (Hlog : Z.log2 m < 53) by (apply Z.log2_lt_pow2; lia).
  destruct (Z.leb_spec (Z.log2 m) 52) as [_|Hgt]; [|lia].
  destruct (Z.ltb_spec m 0); [lia|reflexivity].
Qed.

(** X4.  Under [Int64Kind] the coercion is exact below [2^53]: two
    different integers of that range that are not negative coerce to
    different floats. *)
Theorem CoerceToFloat64_Int64Kind_injective (i j : int64) :
  0 <= i < 2 ^ 53 -> 0 <= j < 2 ^ 53 -> i <> j ->
  CoerceToFloat64 (FromInt64 i) Int64Kind <> CoerceToFloat64 (FromInt64 j) Int64Kind.
Proof.
  intros Hi Hj Hne. unfold CoerceToFloat64, FromInt64. simpl.
  rewrite !to_uint64_small by (unfold is_uint64; lia).
  assert (Hzero : float64_of_Z 0 = mkFloat64 false 0 0) by reflexivity.
  assert (Hexp : forall m, 0 < m < 2 ^ 53 -> 1023 <= f_exp (float64_of_Z m)).
  { intros m Hm. rewrite float64_of_Z_small by exact Hm. simpl.
    pose proof (Z.log2_nonneg m). lia. }
  destruct (Z.eq_dec i 0) as [->|Hi0]; destruct (Z.eq_dec j 0) as [->|Hj0].
  - congruence.
  - intros Heq. pose proof (Hexp j ltac:(lia)) as He.
    rewrite <- Heq, Hzero in He. simpl in He. lia.
  - intros Heq. pose proof (Hexp i ltac:(lia)) as He.
    rewrite Heq, Hzero in He. simpl in He. lia.
  - rewrite !float64_of_Z_small by lia. intros Heq.
    injection Heq as Hlog Hfrac.
    assert (Hl : Z.log2 i = Z.log2 j) by lia. rewrite Hl in Hfrac.
    assert (Hlog' : 0 <= Z.log2 j < 53).
    { split; [apply Z.log2_nonneg|apply Z.log2_lt_pow2; lia]. }
    assert (Hpow : 0 < 2 ^ (52 - Z.log2 j)) by (apply Z.pow_pos_nonneg; lia).
    nia.
Qed.

Lemma CoerceToFloat64_Int64Kind_injective_witness :
  CoerceToFloat64 (FromInt64 (2 ^ 53 - 2)) Int64Kind
  <> CoerceToFloat64 (FromInt64 (2 ^ 53 - 1)) Int64Kind.
Proof. apply CoerceToFloat64_Int64Kind_injective; lia. Defined.

End number_more.

(** ** More of the instruments *)

Module collect_more.
Import number viewstate number_facts viewstate_facts.

Section collect.

Context {K : Type} `{Countable K}.
Context {Descriptor N Storage Aggregation ExemplarBits : Type}.
Context `{M : !Methods N Storage Aggregation ExemplarBits}.

Local Abbreviation Point := (@Point K Aggregation).
Local Abbreviation Instrument := (@Instrument K Descriptor Aggregation).
Local Abbreviation instrumentBase := (@instrumentBase K _ _ Descriptor Storage).
Local Abbreviation statefulAsyncInstrument :=
  (@statefulAsyncInstrument K _ _ Descriptor Storage).

Lemma mkBase_eta {Aux} (p : instrumentBase Aux) :
  mkBase (heap p) (desc p) (keysFilter p) (data p) = p.
Proof. destruct p; reflexivity. Qed.

(** X5.  With every pointer of the map allocated, the stateful
    synchronous [Collect] returns and leaves the instrument as it was: no
    entry is removed and no holder is written.  It emits one point per
    entry, in the order of the visit: a copy of the entry's storage,
    cumulative, from [seq.Start] to [seq.Now]. *)
Theorem statefulSyncInstrument_Collect_readonly (ents : list (K * loc))
    (seq : Sequence) (p : instrumentBase Z) (output : slice Instrument) :
  range_of (data p) ents ->
  (forall k l, data p !! k = Some l -> is_Some (heap p !! l)) ->
  exists output',
    statefulSyncInstrument_Collect ents seq p output = Some (p, output') /\
    Forall2 (cumulative_point seq (heap p)) ents (emitted p output output').
Proof.
  intros Hr Hal. unfold statefulSyncInstrument_Collect.
  destruct (appendInstrument p output) as [ioutput rest] eqn:Happ.
  rewrite (for_range_ext _ _ _ _ (statefulSyncInstrument_body_eq seq)).
  destruct (cumulative_loop seq ents (heap p) ioutput
              (range_of_allocated _ _ _ Hr Hal))
    as (ioutput' & pts & -> & _ & Hpts & Hall).
  simpl. rewrite mkBase_eta. eexists. split; [reflexivity|].
  replace rest with (appendInstrument p output).2 by (rewrite Happ; reflexivity).
  rewrite (emitted_store p output ioutput' pts); [exact Hall|].
  rewrite Happ. exact Hpts.
Qed.

(** The points of a loop that emits at most one point per entry, with the
    entry's key, follow the order of the visit. *)
Lemma attributes_sublist (R : K * loc -> list Point -> Prop)
    (ents : list (K * loc)) (outs : list (list Point)) :
  (forall e o, R e o -> o = [] \/ exists pt, o = [pt] /\ p_Attributes pt = e.1) ->
  Forall2 R ents outs ->
  sublist (p_Attributes <$> concat outs) ents.*1.
Proof.
  intros HR. induction 1 as [|e o ents outs He _ IH]; [constructor|].
  rewrite (fmap_cons fst). cbn [concat].
  destruct (HR e o He) as [->|(pt & -> & Hpt)].
  - rewrite app_nil_l. apply sublist_cons. exact IH.
  - change ([pt] ++ concat outs) with (pt :: concat outs).
    rewrite fmap_cons, Hpt. apply sublist_skip. exact IH.
Qed.

Lemma lowmemory_entry_shape (seq : Sequence)
    (hp hp' : gmap loc (storageHolder Storage Z)) (dat dat' : gmap K loc)
    (e : K * loc) (o : list Point) :
  lowmemory_entry seq hp hp' dat dat' e o ->
  o = [] \/ exists pt, o = [pt] /\ p_Attributes pt = e.1.
Proof.
  intros (h & out & _ & _ & Hc).
  destruct (HasChange _); destruct Hc as [-> _]; [right|left]; eauto.
Qed.

Lemma lowmemory_entry_changed (seq : Sequence)
    (hp hp' : gmap loc (storageHolder Storage Z)) (dat dat' : gmap K loc)
    (e : K * loc) (o : list Point) :
  lowmemory_entry seq hp hp' dat dat' e o ->
  Forall (fun pt =>
            p_Temporality pt = DeltaTemporality /\
            p_Start pt = seq_Last seq /\ p_End pt = seq_Now seq /\
            exists s, ToStorage (p_Aggregation pt) = Some s /\ HasChange s = true) o.
Proof.
  intros (h & out & _ & _ & Hc).
  destruct (HasChange _) eqn:Hch; destruct Hc as [-> _]; repeat constructor.
  eexists. split; [apply ToStorage_ToAggregation|exact Hch].
Qed.

Lemma Forall_concat_Forall2 {A B} (R : A -> list B -> Prop) (P : B -> Prop)
    (l : list A) (outs : list (list B)) :
  (forall a o, R a o -> Forall P o) -> Forall2 R l outs -> Forall P (concat outs).
Proof.
  intros HR. induction 1 as [|a o l outs Ha _ IH]; [constructor|].
  simpl. apply Forall_app. split; [eapply HR; exact Ha|exact IH].
Qed.

Lemma separated_range (p : instrumentBase Z) (ents : list (K * loc)) :
  range_of (data p) ents ->
  separated (heap p) (locs_of (data p)) ->
  NoDup ents.*1 /\ NoDup ents.*2 /\ Forall (fun e => is_Some (heap p !! e.2)) ents.
Proof.
  intros Hr [Hnd Hal].
  split; [eapply range_of_NoDup_fst; exact Hr|].
  split; [rewrite (range_of_locs _ _ Hr); exact Hnd|].
  apply Forall_forall. intros [k l] Hin. simpl.
  rewrite Forall_forall in Hal. apply Hal.
  rewrite <- (range_of_locs _ _ Hr). apply (list_elem_of_fmap_2 snd _ _ Hin).
Qed.

(** A run of the low-memory synchronous [Collect], with what its loop
    did. *)
Lemma lowmemorySyncInstrument_Collect_run (ents : list (K * loc))
    (seq : Sequence) (p : instrumentBase Z) (output : slice Instrument) :
  range_of (data p) ents ->
  separated (heap p) (locs_of (data p)) ->
  exists p' output' outs,
    lowmemorySyncInstrument_Collect ents seq p output = Some (p', output') /\
    emitted p output output' = concat outs /\
    desc p' = desc p /\ keysFilter p' = keysFilter p /\
    Forall2 (lowmemory_entry seq (heap p) (heap p') (data p) (data p')) ents outs /\
    (forall l, l ∉ ents.*2 -> heap p' !! l = heap p !! l) /\
    (forall k, data p !! k = None -> data p' !! k = None) /\
    (forall l, auxiliary <$> heap p' !! l = auxiliary <$> heap p !! l).
Proof.
  intros Hr Hsep. destruct (separated_range p ents Hr Hsep) as (Hnk & Hnl & Hal).
  unfold lowmemorySyncInstrument_Collect.
  destruct (appendInstrument p output) as [ioutput rest] eqn:Happ.
  destruct (lowmemory_loop seq ents (heap p) (data p) ioutput Hnk Hnl Hal)
    as (hp' & dat' & ioutput' & outs & -> & Hd & Hel & Hcap & Hall & Hfh & Hfd & Haux).
  simpl. eexists _, _, outs. split; [reflexivity|]. simpl.
  split.
  { replace rest with (appendInstrument p output).2 by (rewrite Happ; reflexivity).
    apply emitted_store. rewrite Happ. exact Hel. }
  split; [reflexivity|]. split; [reflexivity|]. split; [exact Hall|].
  split; [exact Hfh|]. split; [|exact Haux].
  intros k Hk. rewrite Hfd; [exact Hk|].
  eapply range_of_notin; [exact Hr|exact Hk].
Qed.

(** X6.  The low-memory synchronous [Collect] never emits a point without
    a change: every point it emits is a delta point from [seq.Last] to
    [seq.Now] whose storage has a change, and the attribute sets of the
    points follow the order of the visit, at most one point per entry. *)
Theorem lowmemorySyncInstrument_Collect_emitted (ents : list (K * loc))
    (seq : Sequence) (p : instrumentBase Z) (output : slice Instrument) :
  range_of (data p) ents ->
  separated (heap p) (locs_of (data p)) ->
  exists p' output',
    lowmemorySyncInstrument_Collect ents seq p output = Some (p', output') /\
    Forall (fun pt =>
              p_Temporality pt = DeltaTemporality /\
              p_Start pt = seq_Last seq /\ p_End pt = seq_Now seq /\
              exists s, ToStorage (p_Aggregation pt) = Some s /\ HasChange s = true)
      (emitted p output output') /\
    sublist (p_Attributes <$> emitted p output output') ents.*1 /\
    (length (emitted p output output') <= size (data p))%nat.
Proof.
  intros Hr Hsep.
  destruct (lowmemorySyncInstrument_Collect_run ents seq p output Hr Hsep)
    as (p' & output' & outs & Hc & Hem & _ & _ & Hall & _).
  exists p', output'. split; [exact Hc|]. rewrite Hem.
  assert (Hsub : sublist (p_Attributes <$> concat outs) ents.*1).
  { eapply attributes_sublist; [|exact Hall]. intros e o.
    apply lowmemory_entry_shape. }
  split; [|split; [exact Hsub|]].
  - eapply Forall_concat_Forall2; [|exact Hall]. intros e o.
    apply lowmemory_entry_changed.
  - apply sublist_length in Hsub. rewrite !length_fmap in Hsub.
    rewrite Hr, length_map_to_list in Hsub. exact Hsub.
Qed.

Lemma separated_submap {Aux} (hp hp' : gmap loc (storageHolder Storage Aux))
    (m m' : gmap K loc) :
  separated hp (locs_of m) ->
  (forall k l, m' !! k = Some l -> m !! k = Some l) ->
  (forall l, is_Some (hp !! l) -> is_Some (hp' !! l)) ->
  separated hp' (locs_of m').
Proof.
  intros [Hnd Hal] Hsub Hdom. split.
  - unfold locs_of. apply NoDup_fmap_2_strong; [|apply NoDup_map_to_list].
    intros [k1 l1] [k2 l2] H1 H2 Heq. simpl in Heq. subst l2.
    apply elem_of_map_to_list in H1, H2. f_equal.
    eapply (locs_of_inj m); eauto.
  - apply Forall_forall. intros l Hin.
    apply list_elem_of_fmap in Hin as ([k l'] & -> & Hin). simpl.
    apply elem_of_map_to_list in Hin. apply Hdom.
    rewrite Forall_forall in Hal. apply Hal. eapply locs_of_elem. eauto.
Qed.

Lemma Forall2_elem_l {A B} (R : A -> B -> Prop) (l : list A) (k : list B) (x : A) :
  Forall2 R l k -> x ∈ l -> exists y, y ∈ k /\ R x y.
Proof.
  intros Hall Hin. apply list_elem_of_lookup in Hin as [i Hi].
  destruct (Forall2_lookup_l _ _ _ _ _ Hall Hi) as (y & Hy & HR).
  exists y. split; [eapply list_elem_of_lookup_2; exact Hy|exact HR].
Qed.

Lemma concat_all_nil {A} (outs : list (list A)) :
  Forall (fun o => o = []) outs -> concat outs = [].
Proof. induction 1 as [|o outs -> _ IH]; [reflexivity|exact IH]. Qed.

(** After a low-memory synchronous [Collect] the instrument is well
    formed, has lost entries only, and the holder of every entry holds
    what [Move] left behind. *)
Lemma lowmemorySyncInstrument_Collect_after (ents : list (K * loc))
    (seq : Sequence) (p : instrumentBase Z) (output : slice Instrument) :
  range_of (data p) ents ->
  separated (heap p) (locs_of (data p)) ->
  exists p' output',
    lowmemorySyncInstrument_Collect ents seq p output = Some (p', output') /\
    separated (heap p') (locs_of (data p')) /\
    (forall k l, data p' !! k = Some l -> data p !! k = Some l) /\
    (forall l, auxiliary <$> heap p' !! l = auxiliary <$> heap p !! l) /\
    (forall k l, data p' !! k = Some l ->
       exists h out, heap p !! l = Some h /\
         heap p' !! l = Some (mkHolder (Move (storage h) out).1 (auxiliary h))).
Proof.
  intros Hr Hsep.
  destruct (lowmemorySyncInstrument_Collect_run ents seq p output Hr Hsep)
    as (p' & output' & outs & Hc & _ & _ & _ & Hall & _ & Hnone & Haux).
  assert (Hent : forall k l, data p' !! k = Some l ->
            data p !! k = Some l /\
            exists h out, heap p !! l = Some h /\
              heap p' !! l = Some (mkHolder (Move (storage h) out).1 (auxiliary h))).
  { intros k l Hk.
    destruct (data p !! k) as [l0|] eqn:Hk0;
      [|rewrite (Hnone k Hk0) in Hk; discriminate].
    apply (range_of_elem _ _ _ _ Hr) in Hk0 as Hin.
    destruct (Forall2_elem_l _ _ _ _ Hall Hin) as (o & _ & h & out & Hh & Hh' & Hch).
    simpl in *.
    assert (l = l0).
    { destruct (HasChange _); destruct Hch as [_ Hd]; rewrite Hd in Hk;
        [|destruct (auxiliary h =? 0); [discriminate|]];
        rewrite Hk0 in Hk; congruence. }
    subst l0. split; [reflexivity|]. eauto. }
  exists p', output'. split; [exact Hc|]. split.
  { eapply separated_submap; [exact Hsep| |].
    - intros k l Hk. apply (Hent k l Hk).
    - intros l [h Hl]. specialize (Haux l). rewrite Hl in Haux.
      destruct (heap p' !! l); [eauto|discriminate]. }
  split; [intros k l Hk; apply (Hent k l Hk)|]. split; [exact Haux|].
  intros k l Hk. apply (Hent k l Hk).
Qed.

(** X7.  For a sum-like algebra, a second low-memory synchronous
    [Collect] right after a first one emits no point at all, and keeps
    exactly the entries whose reference count is not zero. *)
Theorem lowmemorySyncInstrument_Collect_twice (SL : SumLike M)
    (ents : list (K * loc)) (seq : Sequence) (p : instrumentBase Z)
    (output : slice Instrument) :
  range_of (data p) ents ->
  separated (heap p) (locs_of (data p)) ->
  exists p' output',
    lowmemorySyncInstrument_Collect ents seq p output = Some (p', output') /\
    forall ents2 seq2 (output2 : slice Instrument),
      range_of (data p') ents2 ->
      exists p'' output'',
        lowmemorySyncInstrument_Collect ents2 seq2 p' output2 = Some (p'', output'') /\
        emitted p' output2 output'' = [] /\
        forall k,
          data p'' !! k =
            match data p' !! k with
            | Some l =>
                match heap p' !! l with
                | Some h => if auxiliary h =? 0 then None else Some l
                | None => None
                end
            | None => None
            end.
Proof.
  intros Hr Hsep.
  destruct (lowmemorySyncInstrument_Collect_after ents seq p output Hr Hsep)
    as (p' & output' & Hc & Hsep' & _ & _ & Hreset).
  exists p', output'. split; [exact Hc|].
  intros ents2 seq2 output2 Hr2.
  destruct (lowmemorySyncInstrument_Collect_run ents2 seq2 p' output2 Hr2 Hsep')
    as (p'' & output'' & outs & Hc2 & Hem & _ & _ & Hall & _ & Hnone & _).
  exists p'', output''. split; [exact Hc2|].
  (* no entry has a change left *)
  assert (Hent : forall k l o,
            (k, l) ∈ ents2 ->
            lowmemory_entry seq2 (heap p') (heap p'') (data p') (data p'') (k, l) o ->
            o = [] /\ exists h, heap p' !! l = Some h /\
              data p'' !! k = if auxiliary h =? 0 then None else Some l).
  { intros k l o Hin (h & out & Hh & _ & Hch). simpl in Hh, Hch.
    apply (range_of_elem _ _ _ _ Hr2) in Hin.
    destruct (Hreset k l Hin) as (h0 & out0 & _ & Hh0).
    rewrite Hh in Hh0. injection Hh0 as ->. simpl in Hch.
    pose proof (total_Move (storage h0) out0) as [Hz _].
    pose proof (total_Move (Move (storage h0) out0).1 out) as [_ Hm].
    rewrite HasChange_total, Hm, Hz in Hch. simpl in Hch.
    destruct Hch as [-> Hd]. split; [reflexivity|].
    eexists. split; [exact Hh|]. simpl. rewrite Hd, Hin. reflexivity. }
  split.
  - rewrite Hem. apply concat_all_nil. apply Forall_forall. intros o Ho.
    apply list_elem_of_lookup in Ho as [i Ho].
    destruct (Forall2_lookup_r _ _ _ _ _ Hall Ho) as ([k l] & He & Hle).
    apply (Hent k l o); [eapply list_elem_of_lookup_2; exact He|exact Hle].
  - intros k. destruct (data p' !! k) as [l|] eqn:Hk; [|apply Hnone; exact Hk].
    apply (range_of_elem _ _ _ _ Hr2) in Hk as Hin.
    destruct (Forall2_elem_l _ _ _ _ Hall Hin) as (o & _ & Hle).
    destruct (Hent k l o Hin Hle) as (_ & h & -> & Hd). exact Hd.
Qed.

Lemma for_range_invariant {A S : Type} (P : S -> Prop)
    (body : A -> S -> option S) (l : list A) :
  (forall a s s', body a s = Some s' -> P s -> P s') ->
  forall s s', for_range body l s = Some s' -> P s -> P s'.
Proof.
  intros Hb. induction l as [|a l IH]; intros s s' Hrun Hs; simpl in Hrun.
  - injection Hrun as <-. exact Hs.
  - destruct (body a s) as [s1|] eqn:Ha; [|discriminate].
    eapply IH; [exact Hrun|]. eapply Hb; eauto.
Qed.

Lemma cumulative_body_descriptor {Aux} (seq : Sequence) (e : K * loc)
    (st st' : gmap loc (storageHolder Storage Aux) * Instrument) :
  cumulative_body seq e st = Some st' ->
  i_Descriptor st'.2 = i_Descriptor st.2.
Proof.
  destruct e as [k l], st as [hp io]. unfold cumulative_body.
  destruct (hp !! l) as [h|]; [|discriminate]. simpl.
  rewrite appendPoint_eq. simpl. intros [= <-]. reflexivity.
Qed.

Lemma lowmemorySyncInstrument_body_descriptor (seq : Sequence) (e : K * loc)
    (st st' : gmap loc (storageHolder Storage Z) * gmap K loc * Instrument) :
  lowmemorySyncInstrument_body seq e st = Some st' ->
  i_Descriptor st'.2 = i_Descriptor st.2.
Proof.
  destruct e as [k l], st as [[hp dat] io]. unfold lowmemorySyncInstrument_body.
  destruct (hp !! l) as [h|]; [|discriminate]. simpl.
  rewrite appendPoint_eq. simpl. rewrite last_snoc. simpl.
  rewrite ToStorage_ToAggregation. simpl.
  destruct (HasChange _); [intros [= <-]; reflexivity|].
  destruct (auxiliary h =? 0); intros [= <-]; reflexivity.
Qed.

Section stateful_async.

Variable OverflowAttributeSet : K.

Lemma statefulAsyncInstrument_body_descriptor (seq : Sequence) (pri : gmap K loc)
    (e : K * loc) (st st' : @scanState K Descriptor Storage Aggregation) :
  statefulAsyncInstrument_body OverflowAttributeSet seq pri e st = Some st' ->
  i_Descriptor (sc_ioutput st') = i_Descriptor (sc_ioutput st).
Proof.
  destruct e as [k l]. unfold statefulAsyncInstrument_body.
  destruct (sc_heap st !! l) as [h|]; [|discriminate]. simpl.
  destruct (pri !! k) as [pl|].
  - destruct (sc_heap st !! pl) as [pv|]; [|discriminate]. simpl.
    destruct (SubtractSwap (storage pv) (storage h)) as [d e'].
    destruct (_ !! pl) as [pv1|]; [|discriminate]. simpl.
    destruct (HasChange _); simpl; [|intros [= <-]; reflexivity].
    rewrite appendPoint_eq. simpl. intros [= <-]. reflexivity.
  - rewrite appendPoint_eq. simpl. intros [= <-]. reflexivity.
Qed.

(** X8.  Whenever the stateful asynchronous [Collect] returns, the map it
    scanned is the new [prior] map, so [InMemorySize] reports the number of
    series of the cycle just collected, whatever [prior] held before. *)
Theorem statefulAsyncInstrument_InMemorySize (ents : list (K * loc))
    (seq : Sequence) (p p' : statefulAsyncInstrument)
    (output output' : slice Instrument) :
  statefulAsyncInstrument_Collect OverflowAttributeSet ents seq p output
    = Some (p', output') ->
  prior p' = data (base p) /\
  InMemorySize p' = size (data (base p)) /\
  (range_of (data (base p)) ents -> InMemorySize p' = length ents).
Proof.
  unfold statefulAsyncInstrument_Collect, statefulAsyncInstrument_rotate.
  destruct (appendInstrument (base p) output) as [ioutput rest].
  destruct (statefulAsyncInstrument_scan _ ents seq p ioutput) as [st|];
    [|discriminate]. simpl.
  assert (Hgoal : prior p' = data (base p) ->
            prior p' = data (base p) /\
            InMemorySize p' = size (data (base p)) /\
            (range_of (data (base p)) ents -> InMemorySize p' = length ents)).
  { intros Hp. unfold InMemorySize. rewrite Hp. split; [reflexivity|].
    split; [reflexivity|]. intros Hr. rewrite Hr, length_map_to_list. reflexivity. }
  destruct (sc_ofe st) as [ofe|].
  - destruct (sc_heap st !! ofe) as [ofh|]; [|discriminate]. simpl.
    intros [= <- _]. apply Hgoal. reflexivity.
  - intros [= <- _]. apply Hgoal. reflexivity.
Qed.

Lemma delta_entry_shape (seq : Sequence) (pri : gmap K loc)
    (hp hp' : gmap loc (storageHolder Storage notUsed))
    (e : K * loc) (o : list Point) :
  delta_entry seq pri hp hp' e o ->
  o = [] \/ exists pt, o = [pt] /\ p_Attributes pt = e.1.
Proof.
  intros (h & _ & Hm). destruct (pri !! e.1).
  - destruct Hm as (pv & _ & _ & _ & Hc).
    destruct (HasChange _); [destruct Hc as [out ->]; right|left]; eauto.
  - destruct Hm as (_ & out & ->). right. eauto.
Qed.

Lemma delta_entry_delta (seq : Sequence) (pri : gmap K loc)
    (hp hp' : gmap loc (storageHolder Storage notUsed))
    (e : K * loc) (o : list Point) :
  delta_entry seq pri hp hp' e o ->
  Forall (fun pt => p_Temporality pt = DeltaTemporality /\
                    p_Start pt = seq_Last seq /\ p_End pt = seq_Now seq) o.
Proof.
  intros (h & _ & Hm). destruct (pri !! e.1).
  - destruct Hm as (pv & _ & _ & _ & Hc).
    destruct (HasChange _); [destruct Hc as [out ->]|subst o]; repeat constructor.
  - destruct Hm as (_ & out & ->). repeat constructor.
Qed.

(** X9.  The points of a stateful asynchronous [Collect] are delta points
    from [seq.Last] to [seq.Now]; their attribute sets follow the order of
    the visit, at most one point per entry; and when [data] does not have
    the Overflow Set, the new [data] map is empty and no holder is
    allocated. *)
Theorem statefulAsyncInstrument_Collect_emitted (ents : list (K * loc))
    (seq : Sequence) (p : statefulAsyncInstrument) (output : slice Instrument) :
  range_of (data (base p)) ents ->
  wf_async p ->
  exists p' output',
    statefulAsyncInstrument_Collect OverflowAttributeSet ents seq p output
      = Some (p', output') /\
    Forall (fun pt => p_Temporality pt = DeltaTemporality /\
                      p_Start pt = seq_Last seq /\ p_End pt = seq_Now seq)
      (emitted (base p) output output') /\
    sublist (p_Attributes <$> emitted (base p) output output') ents.*1 /\
    (length (emitted (base p) output output') <= size (data (base p)))%nat /\
    (data (base p) !! OverflowAttributeSet = None ->
     data (base p') = ∅ /\
     forall l, is_Some (heap (base p') !! l) <-> is_Some (heap (base p) !! l)).
Proof.
  intros Hr Hwf.
  destruct (statefulAsyncInstrument_Collect_run OverflowAttributeSet ents seq p
              output Hr Hwf)
    as (p' & output' & outs & Hc & Hem & Hall & _ & _ & Hof).
  exists p', output'. split; [exact Hc|]. rewrite Hem.
  assert (Hsub : sublist (p_Attributes <$> concat outs) ents.*1).
  { eapply attributes_sublist; [|exact Hall]. intros e o. apply delta_entry_shape. }
  split.
  { eapply Forall_concat_Forall2; [|exact Hall]. intros e o. apply delta_entry_delta. }
  split; [exact Hsub|]. split.
  { apply sublist_length in Hsub. rewrite !length_fmap in Hsub.
    rewrite Hr, length_map_to_list in Hsub. exact Hsub. }
  intros Hov. rewrite Hov in Hof. exact Hof.
Qed.

(** X10.  Whenever one of the four [Collect] methods returns, [output] has
    exactly one more instrument, in its next slot and with the descriptor
    of the instrument collected, also when no point was emitted; the
    descriptor and the key filter of the instrument are unchanged. *)
Theorem Collect_appends_one_instrument (ents : list (K * loc)) (seq : Sequence)
    (output output' : slice Instrument) :
  (forall p p' : instrumentBase Z,
     statefulSyncInstrument_Collect ents seq p output = Some (p', output') ->
     one_instrument_appended (desc p) output output' /\
     desc p' = desc p /\ keysFilter p' = keysFilter p) /\
  (forall p p' : instrumentBase Z,
     lowmemorySyncInstrument_Collect ents seq p output = Some (p', output') ->
     one_instrument_appended (desc p) output output' /\
     desc p' = desc p /\ keysFilter p' = keysFilter p) /\
  (forall p p' : instrumentBase notUsed,
     lowmemoryAsyncInstrument_Collect ents seq p output = Some (p', output') ->
     one_instrument_appended (desc p) output output' /\
     desc p' = desc p /\ keysFilter p' = keysFilter p) /\
  (forall p p' : statefulAsyncInstrument,
     statefulAsyncInstrument_Collect OverflowAttributeSet ents seq p output
       = Some (p', output') ->
     one_instrument_appended (desc (base p)) output output' /\
     desc (base p') = desc (base p) /\
     keysFilter (base p') = keysFilter (base p)).
Proof.
  assert (Happ : forall {Aux} (b : instrumentBase Aux) io rest,
            appendInstrument b output = (io, rest) ->
            i_Descriptor io = desc b /\ rest = tail (spare output)).
  { intros Aux b io rest. unfold appendInstrument.
    destruct (spare output); intros [= <- <-]; split; reflexivity. }
  split; [|split; [|split]].
  - intros p p'. unfold statefulSyncInstrument_Collect.
    destruct (appendInstrument p output) as [io rest] eqn:Ha.
    destruct (Happ _ _ _ _ Ha) as [Hd ->].
    destruct (for_range _ ents _) as [[hp io']|] eqn:Hrun; [|discriminate].
    simpl. intros [= <- <-]. simpl. split; [|split; reflexivity].
    exists io'. split; [reflexivity|]. split; [|reflexivity].
    rewrite <- Hd.
    apply (for_range_invariant
             (fun st => i_Descriptor st.2 = i_Descriptor io) _ _
             (fun a s s' Hb Hs => eq_trans (cumulative_body_descriptor seq a s s' Hb) Hs)
             _ _ Hrun eq_refl).
  - intros p p'. unfold lowmemorySyncInstrument_Collect.
    destruct (appendInstrument p output) as [io rest] eqn:Ha.
    destruct (Happ _ _ _ _ Ha) as [Hd ->].
    destruct (for_range _ ents _) as [[[hp dat] io']|] eqn:Hrun; [|discriminate].
    simpl. intros [= <- <-]. simpl. split; [|split; reflexivity].
    exists io'. split; [reflexivity|]. split; [|reflexivity].
    rewrite <- Hd.
    apply (for_range_invariant
             (fun st => i_Descriptor st.2 = i_Descriptor io) _ _
             (fun a s s' Hb Hs =>
                eq_trans (lowmemorySyncInstrument_body_descriptor seq a s s' Hb) Hs)
             _ _ Hrun eq_refl).
  - intros p p'. unfold lowmemoryAsyncInstrument_Collect.
    destruct (appendInstrument p output) as [io rest] eqn:Ha.
    destruct (Happ _ _ _ _ Ha) as [Hd ->].
    destruct (for_range _ ents _) as [[hp io']|] eqn:Hrun; [|discriminate].
    simpl. intros [= <- <-]. simpl. split; [|split; reflexivity].
    exists io'. split; [reflexivity|]. split; [|reflexivity].
    rewrite <- Hd.
    apply (for_range_invariant
             (fun st => i_Descriptor st.2 = i_Descriptor io) _ _
             (fun a s s' Hb Hs => eq_trans (cumulative_body_descriptor seq a s s' Hb) Hs)
             _ _ Hrun eq_refl).
  - intros p p'.
    unfold statefulAsyncInstrument_Collect, statefulAsyncInstrument_scan,
      statefulAsyncInstrument_rotate.
    destruct (appendInstrument (base p) output) as [io rest] eqn:Ha.
    destruct (Happ _ _ _ _ Ha) as [Hd ->].
    destruct (for_range _ ents _) as [st|] eqn:Hrun; [|discriminate]. simpl.
    assert (Hio : i_Descriptor (sc_ioutput st) = desc (base p)).
    { rewrite <- Hd.
      apply (for_range_invariant
               (fun st => i_Descriptor (sc_ioutput st) = i_Descriptor io) _ _
               (fun a s s' Hb Hs =>
                  eq_trans (statefulAsyncInstrument_body_descriptor seq _ a s s' Hb) Hs)
               _ _ Hrun eq_refl). }
    destruct (sc_ofe st) as [ofe|].
    + destruct (sc_heap st !! ofe) as [ofh|]; [|discriminate]. simpl.
      intros [= <- <-]. simpl. split; [|split; reflexivity].
      exists (sc_ioutput st). split; [reflexivity|]. split; [exact Hio|reflexivity].
    + intros [= <- <-]. simpl. split; [|split; reflexivity].
      exists (sc_ioutput st). split; [reflexivity|]. split; [exact Hio|reflexivity].
Qed.

End stateful_async.

End collect.

End collect_more.

(** ** The reference counts of a synchronous instrument *)

Module refcount.
Import number viewstate number_facts viewstate_facts collect_more.

Section refcount.

Context {K : Type} `{Countable K}.
Context {Descriptor N Storage Aggregation ExemplarBits : Type}.
Context `{M : !Methods N Storage Aggregation ExemplarBits}.

Local Abbreviation instrumentBase := (@instrumentBase K _ _ Descriptor Storage).
Local Abbreviation syncSystem := (@syncSystem K _ _ Descriptor Storage).
Local Abbreviation syncAccumulator := (@syncAccumulator Storage).

Lemma bound_to_cons (l : loc) (k : K) (a : syncAccumulator)
    (live : list (K * syncAccumulator)) :
  bound_to l ((k, a) :: live) =
  ((if decide (holder a = l) then 1 else 0) + bound_to l live)%nat.
Proof.
  unfold bound_to. rewrite filter_cons. simpl.
  destruct (decide (holder a = l)); reflexivity.
Qed.

Lemma bound_to_insert (l : loc) (live : list (K * syncAccumulator)) (i : nat)
    (k : K) (a a' : syncAccumulator) :
  live !! i = Some (k, a) -> holder a' = holder a ->
  bound_to l (<[i := (k, a')]> live) = bound_to l live.
Proof.
  intros Hi Hh. revert i Hi.
  induction live as [|[k0 a0] live IH]; intros [|i] Hi; simpl in Hi;
    try discriminate.
  - injection Hi as -> ->. simpl. rewrite !bound_to_cons, Hh. reflexivity.
  - simpl. rewrite !bound_to_cons, (IH i Hi). reflexivity.
Qed.

Lemma bound_to_delete (l : loc) (live : list (K * syncAccumulator)) (i : nat)
    (k : K) (a : syncAccumulator) :
  live !! i = Some (k, a) ->
  bound_to l live =
  ((if decide (holder a = l) then 1 else 0) + bound_to l (delete i live))%nat.
Proof.
  revert i. induction live as [|[k0 a0] live IH]; intros [|i] Hi; simpl in Hi;
    try discriminate.
  - injection Hi as -> ->. simpl. apply bound_to_cons.
  - simpl. rewrite !bound_to_cons, (IH i Hi). lia.
Qed.

Lemma bound_to_le (l : loc) (live : list (K * syncAccumulator)) :
  (bound_to l live <= length live)%nat.
Proof. unfold bound_to. apply length_filter. Qed.

Lemma bound_to_pos (l : loc) (live : list (K * syncAccumulator)) (k : K)
    (a : syncAccumulator) :
  (k, a) ∈ live -> holder a = l -> (0 < bound_to l live)%nat.
Proof.
  intros Hin Hl. unfold bound_to.
  assert (Hf : (k, a) ∈ filter (fun ka => holder ka.2 = l) live)
    by (apply list_elem_of_filter; split; assumption).
  destruct (filter _ live); [apply elem_of_nil in Hf; destruct Hf|simpl; lia].
Qed.

Lemma bound_to_none (l : loc) (live : list (K * syncAccumulator)) :
  Forall (fun ka => holder ka.2 <> l) live -> bound_to l live = 0%nat.
Proof.
  induction 1 as [|[k a] live Hne _ IH]; [reflexivity|].
  rewrite bound_to_cons, IH. simpl in Hne. rewrite decide_False by exact Hne.
  reflexivity.
Qed.

(** What [SnapshotAndProcess] does to the store. *)
Lemma syncAccumulator_SnapshotAndProcess_store (release : bool)
    (a a' : syncAccumulator) (hp hp' : gmap loc (storageHolder Storage Z)) :
  syncAccumulator_SnapshotAndProcess release a hp = Some (a', hp') ->
  holder a' = holder a /\
  exists h s,
    hp !! holder a = Some h /\
    hp' !! holder a =
      Some (@mkHolder Storage Z s
              (if release then to_int64 (auxiliary h + -1) else auxiliary h)) /\
    (forall l, l <> holder a -> hp' !! l = hp !! l).
Proof.
  unfold syncAccumulator_SnapshotAndProcess, syncAccumulator_merge,
    syncAccumulator_move, syncAccumulator_release.
  destruct (Move (current a) (snapshot a)) as [cur' snap1]. simpl.
  destruct (hp !! holder a) as [h|] eqn:Hh; [|discriminate]. simpl.
  destruct (Merge snap1 (storage h)) as [snap2 sto']. simpl.
  intros [= <- <-]. simpl. split; [reflexivity|].
  pose proof (set_storage_lookup (holder a) sto' hp h Hh) as Hset.
  exists h, sto'. split; [reflexivity|]. destruct release.
  - split; [rewrite (AddInt64_lookup _ _ _ _ Hset); reflexivity|].
    intros l Hne. rewrite AddInt64_lookup_ne by congruence.
    apply set_storage_lookup_ne. congruence.
  - split; [exact Hset|]. intros l Hne. apply set_storage_lookup_ne. congruence.
Qed.

Lemma separated_same_dom {Aux} (hp hp' : gmap loc (storageHolder Storage Aux))
    (ls : list loc) :
  separated hp ls ->
  (forall l, is_Some (hp !! l) -> is_Some (hp' !! l)) ->
  separated hp' ls.
Proof.
  intros [Hnd Hal] Hdom. split; [exact Hnd|].
  eapply Forall_impl; [exact Hal|]. intros l. apply Hdom.
Qed.

(** A referenced entry outlives a [Collect]. *)
Lemma lowmemorySyncInstrument_Collect_keeps (ents : list (K * loc))
    (seq : Sequence) (p p' : instrumentBase Z)
    (output output' : slice (Instrument (K:=K) (Descriptor:=Descriptor)
                               (Aggregation:=Aggregation))) :
  range_of (data p) ents ->
  separated (heap p) (locs_of (data p)) ->
  lowmemorySyncInstrument_Collect ents seq p output = Some (p', output') ->
  separated (heap p') (locs_of (data p')) /\
  (forall k l, data p' !! k = Some l -> data p !! k = Some l) /\
  (forall l, auxiliary <$> heap p' !! l = auxiliary <$> heap p !! l) /\
  (forall k l h, data p !! k = Some l -> heap p !! l = Some h ->
     auxiliary h <> 0 -> data p' !! k = Some l).
Proof.
  intros Hr Hsep Hc.
  destruct (lowmemorySyncInstrument_Collect_after ents seq p output Hr Hsep)
    as (p1 & output1 & Hc1 & Hsep' & Hsub & Haux & _).
  destruct (lowmemorySyncInstrument_Collect_run ents seq p output Hr Hsep)
    as (p2 & output2 & outs & Hc2 & _ & _ & _ & Hall & _).
  rewrite Hc in Hc1, Hc2. injection Hc1 as <- <-. injection Hc2 as <- <-.
  split; [exact Hsep'|]. split; [exact Hsub|]. split; [exact Haux|].
  intros k l h Hk Hh Hne.
  apply (range_of_elem _ _ _ _ Hr) in Hk as Hin.
  destruct (Forall2_elem_l _ _ _ _ Hall Hin) as (o & _ & h0 & out & Hh0 & _ & Hch).
  simpl in Hh0, Hch. rewrite Hh in Hh0. injection Hh0 as <-.
  destruct (HasChange _); destruct Hch as [_ Hd]; rewrite Hd.
  - exact Hk.
  - destruct (Z.eqb_spec (auxiliary h) 0); [contradiction|exact Hk].
Qed.

Lemma sync_step_invariant (s s' : syncSystem) :
  sync_invariant s -> sync_step s s' -> sync_invariant s'.
Proof.
  intros (Hsep & Hlive & Hcount & Hlen) Hstep.
  destruct Hstep as [s kvs Hroom|s i k a v ex Hi|s i k a a' hp' Hi Hsnap
                     |s i k a a' hp' Hi Hsnap|s ents seq output p' output' Hr Hc];
    unfold sync_invariant; simpl.
  - (* NewAccumulator *)
    set (c := sys_inst s) in *. set (k := keysFilter c kvs).
    pose proof (compiledSyncBase_NewAccumulator_separated c kvs Hsep) as Hsep'.
    split; [exact Hsep'|].
    destruct (data c !! k) as [l|] eqn:Hk.
    + assert (Hl : is_Some (heap c !! l)).
      { destruct Hsep as [_ Hal]. rewrite Forall_forall in Hal.
        apply Hal. eapply locs_of_elem. exact Hk. }
      destruct Hl as [h Hh].
      rewrite (NewAccumulator_existing l c kvs h Hk Hh). simpl.
      split; [constructor; [exact Hk|exact Hlive]|].
      split; [|lia].
      intros k' l' h' Hk' Hh'. rewrite bound_to_cons. simpl.
      destruct (decide (l = l')) as [<-|Hne].
      * rewrite lookup_insert_eq in Hh'. injection Hh' as <-. simpl.
        rewrite (Hcount k l h Hk Hh).
        pose proof (bound_to_le l (sys_live s)).
        rewrite to_int64_small by (unfold is_int64; lia). lia.
      * rewrite lookup_insert_ne in Hh' by exact Hne.
        rewrite (Hcount k' l' h' Hk' Hh'). reflexivity.
    + rewrite (NewAccumulator_fresh c kvs Hk). simpl.
      set (l := fresh (dom (heap c))).
      assert (Hfresh : heap c !! l = None) by (apply not_elem_of_dom, is_fresh).
      assert (Hother : forall k' l', data c !! k' = Some l' -> l' <> l).
      { intros k' l' Hk' ->. destruct Hsep as [_ Hal]. rewrite Forall_forall in Hal.
        destruct (Hal l (locs_of_elem _ _ _ Hk')) as [? Hc]. congruence. }
      assert (Hnone : Forall (fun ka : K * syncAccumulator => holder ka.2 <> l)
                        (sys_live s)).
      { eapply Forall_impl; [exact Hlive|]. intros [k' a'] Hb. simpl in Hb |- *.
        eapply Hother. exact Hb. }
      split.
      { constructor; [simpl; apply lookup_insert_eq|].
        eapply Forall_impl; [exact Hlive|]. intros [k' a'] Hb. simpl in Hb |- *.
        rewrite lookup_insert_ne; [exact Hb|]. intros Heq. fold c in Hb.
        fold k in Heq. rewrite <- Heq, Hk in Hb. discriminate. }
      split; [|lia].
      intros k' l' h' Hk' Hh'. rewrite bound_to_cons. simpl.
      destruct (decide (k = k')) as [<-|Hne].
      * rewrite lookup_insert_eq in Hk'. injection Hk' as <-.
        rewrite lookup_insert_eq in Hh'. injection Hh' as <-. simpl.
        rewrite decide_True by reflexivity. rewrite (bound_to_none l _ Hnone).
        reflexivity.
      * rewrite lookup_insert_ne in Hk' by exact Hne.
        pose proof (Hother k' l' Hk') as Hl'.
        rewrite lookup_insert_ne in Hh' by congruence.
        rewrite decide_False by congruence.
        rewrite (Hcount k' l' h' Hk' Hh'). reflexivity.
  - (* Update *)
    split; [exact Hsep|]. split.
    { apply Forall_insert; [exact Hlive|]. simpl.
      rewrite Forall_lookup in Hlive. apply (Hlive i (k, a) Hi). }
    split; [|rewrite length_insert; exact Hlen].
    intros k' l' h' Hk' Hh'.
    rewrite (bound_to_insert l' _ i k a _ Hi) by reflexivity.
    apply (Hcount k' l' h' Hk' Hh').
  - (* SnapshotAndProcess(false) *)
    destruct (syncAccumulator_SnapshotAndProcess_store _ _ _ _ _ Hsnap)
      as (Hhold & h & sto & Hh & Hh' & Hfr).
    assert (Hdom : forall l, is_Some (heap (sys_inst s) !! l) -> is_Some (hp' !! l)).
    { intros l Hl. destruct (decide (l = holder a)) as [->|Hne];
        [rewrite Hh'; eauto|rewrite (Hfr l Hne); exact Hl]. }
    split; [eapply separated_same_dom; [exact Hsep|exact Hdom]|].
    split.
    { apply Forall_insert; [exact Hlive|]. simpl. rewrite Hhold.
      rewrite Forall_lookup in Hlive. apply (Hlive i (k, a) Hi). }
    split; [|rewrite length_insert; exact Hlen].
    intros k' l' h' Hk' Hl'.
    rewrite (bound_to_insert l' _ i k a a' Hi Hhold).
    destruct (decide (l' = holder a)) as [->|Hne].
    + rewrite Hh' in Hl'. injection Hl' as <-. simpl.
      apply (Hcount k' (holder a) h Hk' Hh).
    + rewrite (Hfr l' Hne) in Hl'. apply (Hcount k' l' h' Hk' Hl').
  - (* SnapshotAndProcess(true) *)
    destruct (syncAccumulator_SnapshotAndProcess_store _ _ _ _ _ Hsnap)
      as (Hhold & h & sto & Hh & Hh' & Hfr).
    assert (Hdom : forall l, is_Some (heap (sys_inst s) !! l) -> is_Some (hp' !! l)).
    { intros l Hl. destruct (decide (l = holder a)) as [->|Hne];
        [rewrite Hh'; eauto|rewrite (Hfr l Hne); exact Hl]. }
    split; [eapply separated_same_dom; [exact Hsep|exact Hdom]|].
    split.
    { apply Forall_forall. intros ka Hin. rewrite Forall_forall in Hlive.
      apply Hlive. eapply elem_of_sublist; [exact Hin|apply sublist_delete]. }
    assert (Hlt : (i < length (sys_live s))%nat) by (eapply lookup_lt_Some; exact Hi).
    split; [|rewrite length_delete by eauto; lia].
    intros k' l' h' Hk' Hl'.
    pose proof (bound_to_delete l' _ i k a Hi) as Hbd.
    destruct (decide (l' = holder a)) as [->|Hne].
    + rewrite Hh' in Hl'. injection Hl' as <-. simpl.
      rewrite (Hcount k' (holder a) h Hk' Hh), Hbd.
      rewrite decide_True by reflexivity.
      pose proof (bound_to_le (holder a) (delete i (sys_live s))).
      rewrite length_delete in H0 by eauto.
      rewrite to_int64_small by (unfold is_int64; lia). lia.
    + rewrite (Hfr l' Hne) in Hl'.
      rewrite (Hcount k' l' h' Hk' Hl'), Hbd.
      rewrite decide_False by congruence. reflexivity.
  - (* Collect *)
    destruct (lowmemorySyncInstrument_Collect_keeps ents seq _ _ _ _ Hr Hsep Hc)
      as (Hsep' & Hsub & Haux & Hkeep).
    split; [exact Hsep'|]. split.
    { apply Forall_forall. intros [k a] Hin. simpl.
      rewrite Forall_forall in Hlive. pose proof (Hlive _ Hin) as Hk. simpl in Hk.
      destruct Hsep as [_ Hal]. rewrite Forall_forall in Hal.
      destruct (Hal _ (locs_of_elem _ _ _ Hk)) as [h Hh].
      apply (Hkeep k (holder a) h Hk Hh).
      rewrite (Hcount k _ h Hk Hh).
      pose proof (bound_to_pos (holder a) _ k a Hin eq_refl). lia. }
    split; [|exact Hlen].
    intros k l h' Hk Hh'. apply Hsub in Hk.
    pose proof (Haux l) as Ha. rewrite Hh' in Ha.
    destruct (heap (sys_inst s) !! l) as [h|] eqn:Hh; [|discriminate].
    simpl in Ha. injection Ha as ->. apply (Hcount k l h Hk Hh).
Qed.

(** X11.  In every state that [NewAccumulator], [Update],
    [SnapshotAndProcess] and the low-memory [Collect] reach from an
    instrument without series: the reference count of every holder of the
    map is the number of accumulators bound to it and not released; every
    such accumulator still points to the holder that the map has for its
    attribute set, with a count above zero, so its [SnapshotAndProcess]
    returns and a [Collect] has not removed its entry. *)
Theorem sync_reference_counts (d : Descriptor) (f : K -> K) (s : syncSystem) :
  sync_reachable d f s ->
  sync_invariant s /\
  (forall k a, (k, a) ∈ sys_live s ->
     data (sys_inst s) !! k = Some (holder a) /\
     (exists h, heap (sys_inst s) !! holder a = Some h /\ 0 < auxiliary h) /\
     forall release,
       is_Some (syncAccumulator_SnapshotAndProcess release a (heap (sys_inst s)))).
Proof.
  intros Hreach.
  assert (Hinv : sync_invariant s).
  { induction Hreach as [|s s' _ IH Hstep].
    - unfold sync_invariant. simpl. split; [|split; [constructor|split]].
      + unfold locs_of. rewrite map_to_list_empty. apply separated_empty.
      + intros k l h Hk. rewrite lookup_empty in Hk. discriminate.
      + lia.
    - eapply sync_step_invariant; eassumption. }
  split; [exact Hinv|].
  destruct Hinv as (Hsep & Hlive & Hcount & _).
  intros k a Hin. rewrite Forall_forall in Hlive.
  pose proof (Hlive _ Hin) as Hk. simpl in Hk.
  destruct Hsep as [_ Hal]. rewrite Forall_forall in Hal.
  destruct (Hal _ (locs_of_elem _ _ _ Hk)) as [h Hh].
  split; [exact Hk|]. split.
  - exists h. split; [exact Hh|]. rewrite (Hcount k _ h Hk Hh).
    pose proof (bound_to_pos (holder a) _ k a Hin eq_refl). lia.
  - intros release.
    unfold syncAccumulator_SnapshotAndProcess, syncAccumulator_merge,
      syncAccumulator_move.
    destruct (Move (current a) (snapshot a)) as [cur' snap']. simpl.
    rewrite Hh. simpl. destruct (Merge snap' (storage h)). simpl. eauto.
Qed.

End refcount.

End refcount.

(** ** More of the accumulators *)

Module accumulator_more.
Import number viewstate number_facts viewstate_facts.

Section accumulators.

Context {K : Type} `{Countable K}.
Context {Descriptor N Storage Aggregation ExemplarBits : Type}.
Context `{M : !Methods N Storage Aggregation ExemplarBits}.

Local Abbreviation instrumentBase := (@instrumentBase K _ _ Descriptor Storage).
Local Abbreviation syncAccumulator := (@syncAccumulator Storage).
Local Abbreviation asyncAccumulator := (@asyncAccumulator N).

Lemma compiledSyncBase_NewAccumulator_bound (c : instrumentBase Z) (kvs : K) :
  data (compiledSyncBase_NewAccumulator c kvs).2 !! keysFilter c kvs
    = Some (holder (compiledSyncBase_NewAccumulator c kvs).1) /\
  keysFilter (compiledSyncBase_NewAccumulator c kvs).2 = keysFilter c /\
  current (compiledSyncBase_NewAccumulator c kvs).1 = newStorage /\
  snapshot (compiledSyncBase_NewAccumulator c kvs).1 = newStorage /\
  (forall k, k <> keysFilter c kvs ->
     data (compiledSyncBase_NewAccumulator c kvs).2 !! k = data c !! k).
Proof.
  unfold compiledSyncBase_NewAccumulator, compiledSyncBase_findStorage,
    getOrCreateEntry.
  destruct (data c !! keysFilter c kvs) as [l|] eqn:Hk; simpl.
  - repeat split; done.
  - rewrite lookup_insert_eq. repeat split; try done.
    intros k Hne. apply lookup_insert_ne. congruence.
Qed.

(** X12.  Two attribute sets that the key filter maps to the same key are
    one series: the accumulators that [NewAccumulator] binds to them point
    to the same holder, which is the entry of the key, and the second call
    adds no entry.  Both accumulators start with initialised storages. *)
Theorem compiledSyncBase_NewAccumulator_same_holder (c : instrumentBase Z)
    (kvs kvs' : K) :
  keysFilter c kvs = keysFilter c kvs' ->
  let r1 := compiledSyncBase_NewAccumulator c kvs in
  let r2 := compiledSyncBase_NewAccumulator r1.2 kvs' in
  holder r1.1 = holder r2.1 /\
  data r2.2 !! keysFilter c kvs = Some (holder r1.1) /\
  data r2.2 = data r1.2 /\
  current r2.1 = newStorage /\ snapshot r2.1 = newStorage.
Proof.
  intros Hf r1 r2.
  destruct (compiledSyncBase_NewAccumulator_bound c kvs) as (Hb1 & Hf1 & _).
  fold r1 in Hb1, Hf1.
  assert (Hk' : data r1.2 !! keysFilter r1.2 kvs' = Some (holder r1.1))
    by (rewrite Hf1, <- Hf; exact Hb1).
  unfold r2, compiledSyncBase_NewAccumulator, compiledSyncBase_findStorage,
    getOrCreateEntry.
  rewrite Hk'. simpl. repeat split; try done.
Qed.

Lemma asyncAccumulator_Updates_holder (a : asyncAccumulator)
    (vs : list (N * ExemplarBits)) :
  a_holder (asyncAccumulator_Updates a vs) = a_holder a /\
  a_current (asyncAccumulator_Updates a vs) =
    match last vs with Some ve => ve.1 | None => a_current a end.
Proof.
  induction vs as [|ve vs IH] using rev_ind; [split; reflexivity|].
  unfold asyncAccumulator_Updates in *. rewrite foldl_app, last_snoc. simpl.
  split; [apply IH|reflexivity].
Qed.

(** X13.  The asynchronous accumulator keeps the last value only: after
    any run of [Update] calls, [SnapshotAndProcess] applies one [Update] of
    the algebra to the holder, with the value of the last call (the value
    staged before, when there was no call) and with the zero exemplar bits,
    whatever exemplar bits the calls passed. *)
Theorem asyncAccumulator_last_value (release : bool) (a : asyncAccumulator)
    (vs : list (N * ExemplarBits))
    (hp : gmap loc (storageHolder Storage notUsed))
    (h : storageHolder Storage notUsed) :
  hp !! a_holder a = Some h ->
  asyncAccumulator_SnapshotAndProcess release (asyncAccumulator_Updates a vs) hp =
  Some (<[a_holder a :=
            mkHolder (Update (storage h)
                        (match last vs with Some ve => ve.1 | None => a_current a end)
                        zeroExemplarBits)
                     (auxiliary h)]> hp).
Proof.
  intros Hh. destruct (asyncAccumulator_Updates_holder a vs) as [Hhold Hcur].
  unfold asyncAccumulator_SnapshotAndProcess, set_storage.
  rewrite Hhold, Hh, Hcur. reflexivity.
Qed.

Section sum_like.

Context (SL : SumLike M).

Lemma syncAccumulator_Updates_total (a : syncAccumulator)
    (vs : list (N * ExemplarBits)) :
  is_int64 (total (current a)) ->
  holder (syncAccumulator_Updates a vs) = holder a /\
  snapshot (syncAccumulator_Updates a vs) = snapshot a /\
  total (current (syncAccumulator_Updates a vs)) =
    to_int64 (total (current a) + sum_of vs).
Proof.
  revert a. induction vs as [|ve vs IH]; intros a Ha.
  - unfold sum_of. simpl. rewrite Z.add_0_r, to_int64_small by exact Ha.
    repeat split.
  - unfold syncAccumulator_Updates in *. simpl.
    destruct (IH (syncAccumulator_Update a ve.1 ve.2)) as (Hh & Hs & Ht).
    { simpl. rewrite total_Update. apply to_int64_range. }
    split; [rewrite Hh; reflexivity|]. split; [rewrite Hs; reflexivity|].
    rewrite Ht. simpl. rewrite total_Update, to_int64_add_l.
    unfold sum_of. simpl. f_equal. lia.
Qed.

(** [SnapshotAndProcess] on the totals of a sum-like algebra. *)
Lemma syncAccumulator_SnapshotAndProcess_total (release : bool)
    (a : syncAccumulator) (hp : gmap loc (storageHolder Storage Z))
    (h : storageHolder Storage Z) :
  hp !! holder a = Some h ->
  exists a' hp' h',
    syncAccumulator_SnapshotAndProcess release a hp = Some (a', hp') /\
    holder a' = holder a /\
    total (current a') = 0 /\
    hp' !! holder a = Some h' /\
    total (storage h') = to_int64 (total (storage h) + total (current a)) /\
    (forall l, l <> holder a -> hp' !! l = hp !! l).
Proof.
  intros Hh.
  unfold syncAccumulator_SnapshotAndProcess, syncAccumulator_merge,
    syncAccumulator_move, syncAccumulator_release.
  pose proof (total_Move (current a) (snapshot a)) as [Hcur Hsnap].
  destruct (Move (current a) (snapshot a)) as [cur' snap1]. simpl in *.
  rewrite Hh. simpl.
  pose proof (total_Merge snap1 (storage h)) as [_ Hsto].
  destruct (Merge snap1 (storage h)) as [snap2 sto']. simpl in *.
  pose proof (set_storage_lookup (holder a) sto' hp h Hh) as Hset.
  destruct release.
  - eexists _, _, _. split; [reflexivity|]. simpl.
    split; [reflexivity|]. split; [exact Hcur|].
    split; [apply (AddInt64_lookup _ _ _ _ Hset)|]. simpl.
    split; [rewrite Hsto, Hsnap; reflexivity|].
    intros l Hne. rewrite AddInt64_lookup_ne by congruence.
    apply set_storage_lookup_ne. congruence.
  - eexists _, _, _. split; [reflexivity|]. simpl.
    split; [reflexivity|]. split; [exact Hcur|]. split; [exact Hset|]. simpl.
    split; [rewrite Hsto, Hsnap; reflexivity|].
    intros l Hne. apply set_storage_lookup_ne. congruence.
Qed.

(** X14.  For a sum-like algebra the synchronous accumulator sums its
    updates: after a run of [Update] calls, [SnapshotAndProcess] adds the
    staged total and the sum of the run to the total of the holder and
    leaves the staged total at zero, so a second [SnapshotAndProcess]
    without an update in between leaves the total of the holder as it
    is. *)
Theorem syncAccumulator_sums_updates (release release' : bool)
    (a : syncAccumulator) (vs : list (N * ExemplarBits))
    (hp : gmap loc (storageHolder Storage Z)) (h : storageHolder Storage Z) :
  hp !! holder a = Some h ->
  is_int64 (total (current a)) ->
  exists a1 hp1 h1,
    syncAccumulator_SnapshotAndProcess release (syncAccumulator_Updates a vs) hp
      = Some (a1, hp1) /\
    hp1 !! holder a = Some h1 /\
    total (storage h1) =
      to_int64 (total (storage h) + total (current a) + sum_of vs) /\
    total (current a1) = 0 /\
    exists a2 hp2 h2,
      syncAccumulator_SnapshotAndProcess release' a1 hp1 = Some (a2, hp2) /\
      hp2 !! holder a = Some h2 /\
      total (storage h2) = total (storage h1) /\
      total (current a2) = 0.
Proof.
  intros Hh Ha.
  destruct (syncAccumulator_Updates_total a vs Ha) as (Hhold & _ & Htot).
  destruct (syncAccumulator_SnapshotAndProcess_total release
              (syncAccumulator_Updates a vs) hp h)
    as (a1 & hp1 & h1 & Hc1 & Hh1 & Hz1 & Hl1 & Ht1 & _);
    [rewrite Hhold; exact Hh|].
  rewrite Hhold in Hl1. rewrite Htot, to_int64_add_r in Ht1.
  exists a1, hp1, h1. split; [exact Hc1|]. split; [exact Hl1|].
  split; [rewrite Ht1; f_equal; lia|]. split; [exact Hz1|].
  destruct (syncAccumulator_SnapshotAndProcess_total release' a1 hp1 h1)
    as (a2 & hp2 & h2 & Hc2 & _ & Hz2 & Hl2 & Ht2 & _);
    [rewrite Hh1, Hhold; exact Hl1|].
  rewrite Hh1, Hhold in Hl2.
  exists a2, hp2, h2. split; [exact Hc2|]. split; [exact Hl2|].
  split; [|exact Hz2].
  rewrite Ht2, Hz1, Z.add_0_r, Ht1. apply to_int64_small, to_int64_range.
Qed.

End sum_like.

End accumulators.

End accumulator_more.

(** ** The fan-out accumulator *)

Module fanout.
Import number viewstate number_facts viewstate_facts.

Lemma for_range_app {A S : Type} (body : A -> S -> option S) (l1 l2 : list A)
    (s : S) :
  for_range body (l1 ++ l2) s = for_range body l1 s ≫= for_range body l2.
Proof.
  revert s. induction l1 as [|a l1 IH]; intros s; [reflexivity|].
  simpl. destruct (body a s) as [s1|]; [apply IH|reflexivity].
Qed.

Section interface.

Context {W N ExemplarBits : Type}.

Local Abbreviation Accumulator := (Accumulator W N ExemplarBits).
Local Abbreviation multiAccumulator := (multiAccumulator W N ExemplarBits).

Lemma multiAccumulator_MaySample_app (a b : multiAccumulator) (isTraced : bool)
    (w : W) :
  multiAccumulator_MaySample (a ++ b) isTraced w =
  match multiAccumulator_MaySample a isTraced w with
  | Some false => multiAccumulator_MaySample b isTraced w
  | r => r
  end.
Proof.
  induction a as [|coll a IH]; [reflexivity|]. simpl.
  destruct (acc_Updater coll) as [u|]; [|reflexivity]. simpl.
  destruct (upd_MaySample u isTraced w) as [[|]|]; simpl; [reflexivity|exact IH|reflexivity].
Qed.

(** X15.  A fan-out that holds a fan-out behaves as the flat fan-out of
    the same members in the same order, for each of the three methods. *)
Theorem multiAccumulator_nested (a b : multiAccumulator) :
  (forall release w,
     multiAccumulator_SnapshotAndProcess (multiAccumulator_Accumulator a :: b) release w
     = multiAccumulator_SnapshotAndProcess (a ++ b) release w) /\
  (forall value ex w,
     multiAccumulator_Update (multiAccumulator_Accumulator a :: b) value ex w
     = multiAccumulator_Update (a ++ b) value ex w) /\
  (forall isTraced w,
     multiAccumulator_MaySample (multiAccumulator_Accumulator a :: b) isTraced w
     = multiAccumulator_MaySample (a ++ b) isTraced w).
Proof.
  split; [|split].
  - intros release w. unfold multiAccumulator_SnapshotAndProcess.
    rewrite for_range_app. simpl. unfold multiAccumulator_SnapshotAndProcess.
    destruct (for_range _ a w); reflexivity.
  - intros value ex w. unfold multiAccumulator_Update.
    rewrite for_range_app. simpl. unfold multiAccumulator_Update.
    destruct (for_range _ a w); reflexivity.
  - intros isTraced w. rewrite multiAccumulator_MaySample_app. simpl.
    destruct (multiAccumulator_MaySample a isTraced w) as [[|]|]; reflexivity.
Qed.

(** X16.  [MaySample] of a fan-out answers false exactly when every member
    is an [Updater] that answers false, and true exactly when some member
    answers true after members that all answered false; the members after
    it are not asked. *)
Theorem multiAccumulator_MaySample_spec (a : multiAccumulator) (isTraced : bool)
    (w : W) :
  (multiAccumulator_MaySample a isTraced w = Some false <->
   Forall (answers isTraced w false) a) /\
  (multiAccumulator_MaySample a isTraced w = Some true <->
   exists l1 coll l2,
     a = l1 ++ coll :: l2 /\
     Forall (answers isTraced w false) l1 /\ answers isTraced w true coll).
Proof.
  induction a as [|coll a [IHf IHt]].
  - split; split.
    + constructor.
    + reflexivity.
    + discriminate.
    + intros (l1 & c & l2 & Heq & _). destruct l1; discriminate.
  - simpl. unfold answers at 1 3.
    destruct (acc_Updater coll) as [u|] eqn:Hu; simpl.
    + destruct (upd_MaySample u isTraced w) as [[|]|] eqn:Hb; simpl.
      * split; split.
        -- discriminate.
        -- intros Hall. apply Forall_cons in Hall as [(u' & Hu' & Hb') _].
           rewrite Hu in Hu'. injection Hu' as <-. congruence.
        -- intros _. exists [], coll, a. split; [reflexivity|].
           split; [constructor|]. exists u. split; assumption.
        -- reflexivity.
      * split; split.
        -- intros Hr. constructor; [exists u; split; assumption|].
           apply IHf. exact Hr.
        -- intros Hall. apply Forall_cons in Hall as [_ Hall]. apply IHf. exact Hall.
        -- intros Hr. apply IHt in Hr as (l1 & c & l2 & -> & Hl1 & Hc).
           exists (coll :: l1), c, l2. split; [reflexivity|].
           split; [|exact Hc]. constructor; [exists u; split; assumption|exact Hl1].
        -- intros (l1 & c & l2 & Heq & Hl1 & Hc). apply IHt.
           destruct l1 as [|c0 l1].
           ++ injection Heq as <- <-. destruct Hc as (u' & Hu' & Hb').
              rewrite Hu in Hu'. injection Hu' as <-. congruence.
           ++ injection Heq as <- ->. apply Forall_cons in Hl1 as [_ Hl1].
              exists l1, c, l2. split; [reflexivity|]. split; assumption.
      * split; split; try discriminate.
        -- intros Hall. apply Forall_cons in Hall as [(u' & Hu' & Hb') _].
           rewrite Hu in Hu'. injection Hu' as <-. congruence.
        -- intros (l1 & c & l2 & Heq & Hl1 & Hc). destruct l1 as [|c0 l1].
           ++ injection Heq as <- <-. destruct Hc as (u' & Hu' & Hb').
              rewrite Hu in Hu'. injection Hu' as <-. congruence.
           ++ injection Heq as <- ->. apply Forall_cons in Hl1 as [(u' & Hu' & Hb') _].
              rewrite Hu in Hu'. injection Hu' as <-. congruence.
    + split; split; try discriminate.
      * intros Hall. apply Forall_cons in Hall as [(u' & Hu' & _) _]. congruence.
      * intros (l1 & c & l2 & Heq & Hl1 & Hc). destruct l1 as [|c0 l1].
        -- injection Heq as <- <-. destruct Hc as (u' & Hu' & _). congruence.
        -- injection Heq as <- ->. apply Forall_cons in Hl1 as [(u' & Hu' & _) _].
           congruence.
Qed.

End interface.

Section objects.

Context {N Storage Aggregation ExemplarBits : Type}.
Context `{M : !Methods N Storage Aggregation ExemplarBits}.

Local Abbreviation world := (@world N Storage).

Lemma occurrences_cons (l l0 : loc) (ls : list loc) :
  occurrences l (l0 :: ls) =
  if decide (l0 = l) then S (occurrences l ls) else occurrences l ls.
Proof.
  unfold occurrences. rewrite filter_cons. destruct (decide (l0 = l)); reflexivity.
Qed.

(** X17.  [Update] through a fan-out of synchronous accumulators, all
    allocated, returns: the accumulator at each address is updated once per
    member that names it, so twice when the fan-out names it twice, and
    the holders and the other objects are as they were. *)
Theorem multiAccumulator_Update_sync (Samp_MaySample : bool -> bool)
    (ls : list loc) (value : N) (ex : ExemplarBits) (w : world) :
  Forall (fun l => is_Some (w_sync w !! l)) ls ->
  exists w',
    multiAccumulator_Update (syncAccumulator_Accumulator Samp_MaySample <$> ls)
      value ex w = Some w' /\
    w_holders w' = w_holders w /\
    w_async_holders w' = w_async_holders w /\
    w_async w' = w_async w /\
    forall l,
      w_sync w' !! l =
      Nat.iter (occurrences l ls) (fun a => syncAccumulator_Update a value ex)
        <$> w_sync w !! l.
Proof.
  revert w. induction ls as [|l0 ls IH]; intros w Hall.
  - exists w. split; [reflexivity|]. repeat split.
    intros l. simpl. destruct (w_sync w !! l); reflexivity.
  - apply Forall_cons in Hall as [[a0 Ha0] Hall].
    set (w1 := mkWorld (w_holders w) (w_async_holders w)
                 (<[l0 := syncAccumulator_Update a0 value ex]> (w_sync w))
                 (w_async w)).
    destruct (IH w1) as (w' & Hrun & Hh & Hah & Has & Hsync).
    { eapply Forall_impl; [exact Hall|]. intros l Hl. simpl.
      destruct (decide (l0 = l)) as [<-|Hne];
        [rewrite lookup_insert_eq; eauto|rewrite lookup_insert_ne by exact Hne; exact Hl]. }
    exists w'. split.
    { unfold multiAccumulator_Update in *. rewrite fmap_cons. simpl.
      rewrite Ha0. simpl. exact Hrun. }
    split; [exact Hh|]. split; [exact Hah|]. split; [exact Has|].
    intros l. rewrite Hsync, occurrences_cons. simpl.
    destruct (decide (l0 = l)) as [<-|Hne].
    + rewrite lookup_insert_eq, Ha0.
      cbn [fmap option_fmap option_map]. f_equal. symmetry.
      apply Nat.iter_succ_r.
    + rewrite lookup_insert_ne by exact Hne. reflexivity.
Qed.

(** X18.  A fan-out of asynchronous accumulators never samples, whatever
    addresses it names; and [Update] through it, when they are allocated,
    stages the value in every accumulator it names and leaves the others
    and all the holders as they were. *)
Theorem multiAccumulator_async (ls : list loc) (value : N) (ex : ExemplarBits)
    (w : world) :
  (forall isTraced,
     multiAccumulator_MaySample (asyncAccumulator_Accumulator <$> ls) isTraced w
     = Some false) /\
  (Forall (fun l => is_Some (w_async w !! l)) ls ->
   exists w',
     multiAccumulator_Update (asyncAccumulator_Accumulator <$> ls) value ex w
       = Some w' /\
     w_holders w' = w_holders w /\
     w_async_holders w' = w_async_holders w /\
     w_sync w' = w_sync w /\
     forall l,
       w_async w' !! l =
       (fun a => if decide (l ∈ ls) then mkAsyncAcc value (a_holder a) else a)
         <$> w_async w !! l).
Proof.
  split.
  - intros isTraced. induction ls as [|l ls IH]; [reflexivity|exact IH].
  - revert w. induction ls as [|l0 ls IH]; intros w Hall.
    + exists w. split; [reflexivity|]. repeat split.
      intros l. destruct (w_async w !! l) as [a|]; [|reflexivity].
      cbn [fmap option_fmap option_map].
      rewrite decide_False by apply not_elem_of_nil. reflexivity.
    + apply Forall_cons in Hall as [[a0 Ha0] Hall].
      set (w1 := mkWorld (w_holders w) (w_async_holders w) (w_sync w)
                   (<[l0 := asyncAccumulator_Update a0 value ex]> (w_async w))).
      destruct (IH w1) as (w' & Hrun & Hh & Hah & Hs & Hasync).
      { eapply Forall_impl; [exact Hall|]. intros l Hl. simpl.
        destruct (decide (l0 = l)) as [<-|Hne];
          [rewrite lookup_insert_eq; eauto|rewrite lookup_insert_ne by exact Hne; exact Hl]. }
      exists w'. split.
      { unfold multiAccumulator_Update in *. rewrite fmap_cons. simpl.
        rewrite Ha0. simpl. exact Hrun. }
      split; [exact Hh|]. split; [exact Hah|]. split; [exact Hs|].
      intros l. rewrite Hasync. simpl.
      destruct (decide (l0 = l)) as [<-|Hne].
      * rewrite lookup_insert_eq, Ha0. simpl.
        rewrite (decide_True (P := l0 ∈ l0 :: ls)) by left.
        destruct (decide (l0 ∈ ls)); reflexivity.
      * rewrite lookup_insert_ne by exact Hne.
        destruct (w_async w !! l) as [a|]; [|reflexivity]. simpl.
        destruct (decide (l ∈ ls)) as [Hin|Hnin].
        -- rewrite decide_True by (right; exact Hin). reflexivity.
        -- rewrite decide_False; [reflexivity|].
           intros Hc. apply elem_of_cons in Hc as [->|Hc]; [congruence|contradiction].
Qed.

End objects.

End fanout.

(** ** One series from the first call to the last *)

Module lifecycle.
Import number viewstate number_facts viewstate_facts collect_more refcount accumulator_more.

Section sync_series.

Context {K : Type} `{Countable K}.
Context {Descriptor N Storage Aggregation ExemplarBits : Type}.
Context `{M : !Methods N Storage Aggregation ExemplarBits} (SL : SumLike M).

Local Abbreviation Point := (@Point K Aggregation).
Local Abbreviation Instrument := (@Instrument K Descriptor Aggregation).
Local Abbreviation instrumentBase := (@instrumentBase K _ _ Descriptor Storage).

Lemma to_int64_idem (z : Z) : to_int64 (to_int64 z) = to_int64 z.
Proof. apply to_int64_small, to_int64_range. Qed.

(** A new series of an instrument without series, after a run of updates
    and the final [SnapshotAndProcess]. *)
Lemma new_series_released (d : Descriptor) (f : K -> K) (kvs : K)
    (vs : list (N * ExemplarBits)) :
  let r := compiledSyncBase_NewAccumulator (mkBase ∅ d f ∅ : instrumentBase Z) kvs in
  exists a' hp' h',
    syncAccumulator_SnapshotAndProcess true (syncAccumulator_Updates r.1 vs) (heap r.2)
      = Some (a', hp') /\
    hp' !! holder r.1 = Some h' /\
    total (storage h') = to_int64 (sum_of vs) /\ auxiliary h' = 0 /\
    data r.2 = {[f kvs := holder r.1]} /\
    desc r.2 = d /\ keysFilter r.2 = f.
Proof.
  intros r. subst r. rewrite NewAccumulator_fresh by apply lookup_empty.
  cbn [fst snd heap data keysFilter desc].
  set (l := fresh (dom (∅ : gmap loc (storageHolder Storage Z)))).
  set (a := mkSyncAcc newStorage newStorage l).
  set (hp := <[l := mkHolder newStorage (to_int64 (0 + 1))]> ∅).
  assert (Hl : hp !! holder a = Some (mkHolder newStorage (to_int64 (0 + 1))))
    by apply lookup_insert_eq.
  assert (Hint : is_int64 (total (current a))).
  { simpl. unfold newStorage. rewrite total_newStorage. unfold is_int64. lia. }
  destruct (syncAccumulator_Updates_total SL a vs Hint) as (Hh & _ & Htot).
  assert (Hl' : hp !! holder (syncAccumulator_Updates a vs)
                = Some (mkHolder newStorage (to_int64 (0 + 1))))
    by (rewrite Hh; exact Hl).
  destruct (syncAccumulator_SnapshotAndProcess_total SL true _ hp _ Hl')
    as (a' & hp' & h' & Hrun & Hha & Hcur & Hh' & Htot' & Hother).
  destruct (syncAccumulator_SnapshotAndProcess_store true _ _ _ _ Hrun)
    as (_ & h0 & s0 & Hh0 & Hh0' & _).
  rewrite Hh in Hh', Hother, Hh0, Hh0'.
  exists a', hp', h'. split; [exact Hrun|]. split; [exact Hh'|].
  split.
  { rewrite Htot', Htot. cbn [storage current a]. unfold newStorage.
    rewrite total_newStorage, to_int64_add_r. reflexivity. }
  split.
  { pose proof (eq_trans (eq_sym Hl) Hh0) as E. injection E as <-.
    pose proof (eq_trans (eq_sym Hh') Hh0') as E. injection E as ->.
    reflexivity. }
  split; [reflexivity|]. split; reflexivity.
Qed.

(** The low-memory [Collect] of an instrument with one series. *)
Lemma single_series_Collect (p : instrumentBase Z) (k : K) (l : loc)
    (h : storageHolder Storage Z) (seq : Sequence) (output : slice Instrument) :
  data p = {[k := l]} ->
  heap p !! l = Some h ->
  exists p' output' h',
    lowmemorySyncInstrument_Collect [(k, l)] seq p output = Some (p', output') /\
    heap p' !! l = Some h' /\
    total (storage h') = 0 /\ auxiliary h' = auxiliary h /\
    if total (storage h) =? 0
    then emitted p output output' = [] /\
         data p' = (if auxiliary h =? 0 then ∅ else {[k := l]})
    else (exists pt s,
            emitted p output output' = [pt] /\
            p_Attributes pt = k /\
            p_Temporality pt = DeltaTemporality /\
            p_Start pt = seq_Last seq /\ p_End pt = seq_Now seq /\
            ToStorage (p_Aggregation pt) = Some s /\
            total s = total (storage h)) /\
         data p' = {[k := l]}.
Proof.
  intros Hdat Hh.
  assert (Hr : range_of (data p) [(k, l)]).
  { rewrite Hdat. unfold range_of. rewrite map_to_list_singleton. reflexivity. }
  assert (Hsep : separated (heap p) (locs_of (data p))).
  { rewrite Hdat, locs_of_singleton. split.
    - apply NoDup_singleton.
    - constructor; [rewrite Hh; eauto|constructor]. }
  destruct (lowmemorySyncInstrument_Collect_run _ seq p output Hr Hsep)
    as (p' & output' & outs & Hrun & Hem & _ & _ & Hall & _ & Hnone & _).
  apply Forall2_cons_inv_l in Hall as (o & outs' & Hent & Hnil & ->).
  apply Forall2_nil_inv_l in Hnil as ->.
  destruct Hent as (h1 & out & Hh1 & Hh1' & Hcase).
  cbn [fst snd] in Hh1, Hh1', Hcase.
  rewrite Hh in Hh1. injection Hh1 as <-.
  exists p', output'. eexists. split; [exact Hrun|]. split; [exact Hh1'|].
  destruct (total_Move (storage h) out) as [Hm1 Hm2].
  split; [exact Hm1|]. split; [reflexivity|].
  rewrite HasChange_total, Hm2 in Hcase.
  assert (Hmap : forall v, data p' !! k = v -> data p' = from_option (fun l' => {[k := l']}) ∅ v).
  { intros v Hv. apply map_eq. intros k'. destruct (decide (k' = k)) as [->|Hne].
    - rewrite Hv. destruct v; simpl; [rewrite lookup_singleton_eq|rewrite lookup_empty];
        reflexivity.
    - rewrite Hnone by (rewrite Hdat; apply lookup_singleton_ne; congruence).
      destruct v; simpl; [rewrite lookup_singleton_ne by congruence|rewrite lookup_empty];
        reflexivity. }
  rewrite Hem. simpl. rewrite app_nil_r.
  destruct (total (storage h) =? 0); simpl in Hcase; destruct Hcase as [-> Hk].
  - split; [reflexivity|]. rewrite (Hmap _ Hk).
    destruct (auxiliary h =? 0); [reflexivity|].
    rewrite Hdat, lookup_singleton_eq. reflexivity.
  - split.
    + eexists _, _. split; [reflexivity|]. cbn [p_Attributes p_Temporality p_Start p_End p_Aggregation].
      repeat (split; [reflexivity|]). split; [apply ToStorage_ToAggregation|exact Hm2].
    + rewrite (Hmap _ Hk). rewrite Hdat, lookup_singleton_eq. reflexivity.
Qed.

(** X19.  One series of a low-memory synchronous instrument with a
    sum-like algebra, from the first call to the last.  On an instrument
    without series, [NewAccumulator], a run of [Update] calls and the final
    [SnapshotAndProcess] return, and the [Collect] that follows returns.
    When the sum of the run, wrapped to [int64], is zero, it emits no point
    and removes the series.  Otherwise it emits exactly one point, a delta
    point for the filtered attribute set whose total is that sum, and keeps
    the series; the next [Collect] emits no point and removes it. *)
Theorem lowmemory_series (d : Descriptor) (f : K -> K) (kvs : K)
    (vs : list (N * ExemplarBits)) (seq seq2 : Sequence)
    (output output2 : slice Instrument) :
  let r := compiledSyncBase_NewAccumulator (mkBase ∅ d f ∅ : instrumentBase Z) kvs in
  exists a' hp' p' output',
    syncAccumulator_SnapshotAndProcess true (syncAccumulator_Updates r.1 vs) (heap r.2)
      = Some (a', hp') /\
    range_of (data r.2) [(f kvs, holder r.1)] /\
    lowmemorySyncInstrument_Collect [(f kvs, holder r.1)] seq (with_heap r.2 hp') output
      = Some (p', output') /\
    if to_int64 (sum_of vs) =? 0
    then emitted (with_heap r.2 hp') output output' = [] /\ data p' = ∅
    else (exists pt s,
            emitted (with_heap r.2 hp') output output' = [pt] /\
            p_Attributes pt = f kvs /\
            p_Temporality pt = DeltaTemporality /\
            p_Start pt = seq_Last seq /\ p_End pt = seq_Now seq /\
            ToStorage (p_Aggregation pt) = Some s /\
            total s = to_int64 (sum_of vs)) /\
         data p' = {[f kvs := holder r.1]} /\
         exists p'' output'',
           lowmemorySyncInstrument_Collect [(f kvs, holder r.1)] seq2 p' output2
             = Some (p'', output'') /\
           emitted p' output2 output'' = [] /\ data p'' = ∅.
Proof.
  intros r.
  destruct (new_series_released d f kvs vs)
    as (a' & hp' & h' & Hrun & Hh' & Htot & Haux & Hdat & _ & _).
  fold r in Hrun, Hh', Hdat.
  destruct (single_series_Collect (with_heap r.2 hp') (f kvs) (holder r.1) h'
              seq output Hdat Hh')
    as (p' & output' & h1 & Hc & Hh1 & Htot1 & Haux1 & Hcase).
  exists a', hp', p', output'. split; [exact Hrun|].
  split.
  { rewrite Hdat. unfold range_of. rewrite map_to_list_singleton. reflexivity. }
  split; [exact Hc|].
  rewrite Htot, Haux in Hcase.
  destruct (to_int64 (sum_of vs) =? 0).
  - exact Hcase.
  - destruct Hcase as [Hpt Hdat']. split; [exact Hpt|]. split; [exact Hdat'|].
    destruct (single_series_Collect p' (f kvs) (holder r.1) h1 seq2 output2 Hdat' Hh1)
      as (p'' & output'' & _ & Hc2 & _ & _ & _ & Hcase2).
    rewrite Htot1, Haux1, Haux in Hcase2. simpl in Hcase2.
    exists p'', output''. split; [exact Hc2|exact Hcase2].
Qed.

End sync_series.
End lifecycle.

(** ** The asynchronous instrument and its accumulators *)

Module async_safety.
Import number viewstate number_facts viewstate_facts collect_more refcount.

Section stateful_async.

Context {K : Type} `{Countable K}.
Context {Descriptor N Storage Aggregation ExemplarBits : Type}.
Context `{M : !Methods N Storage Aggregation ExemplarBits}.

Variable OverflowAttributeSet : K.

Local Abbreviation Instrument := (@Instrument K Descriptor Aggregation).
Local Abbreviation instrumentBase := (@instrumentBase K _ _ Descriptor Storage).
Local Abbreviation statefulAsyncInstrument :=
  (@statefulAsyncInstrument K _ _ Descriptor Storage).
Local Abbreviation asyncSystem := (@asyncSystem K _ _ Descriptor N Storage).

Lemma getOrCreateEntry_allocated {Aux} (zeroAux : Aux) (b : instrumentBase Aux)
    (kvs : K) :
  (forall k l, data b !! k = Some l -> is_Some (heap b !! l)) ->
  is_Some (heap (getOrCreateEntry zeroAux b kvs).2 !! (getOrCreateEntry zeroAux b kvs).1) /\
  forall l, is_Some (heap b !! l) ->
            is_Some (heap (getOrCreateEntry zeroAux b kvs).2 !! l).
Proof.
  intros Hal. unfold getOrCreateEntry.
  destruct (data b !! kvs) as [l0|] eqn:Hk; cbn [fst snd heap].
  - split; [eapply Hal; exact Hk|]. intros l Hl. exact Hl.
  - split; [rewrite lookup_insert_eq; eauto|].
    intros l Hl. destruct (decide (fresh (dom (heap b)) = l)) as [<-|Hne].
    + rewrite lookup_insert_eq. eauto.
    + rewrite lookup_insert_ne by exact Hne. exact Hl.
Qed.

Lemma wf_async_allocated (p : statefulAsyncInstrument) (k : K) (l : loc) :
  wf_async p -> data (base p) !! k = Some l -> is_Some (heap (base p) !! l).
Proof.
  intros [_ Hal] Hk. rewrite Forall_forall in Hal. apply Hal.
  apply elem_of_app. left. eapply locs_of_elem. exact Hk.
Qed.

Lemma statefulAsyncInstrument_Collect_allocated (ents : list (K * loc))
    (seq : Sequence) (p p' : statefulAsyncInstrument)
    (output output' : slice Instrument) (l : loc) :
  range_of (data (base p)) ents ->
  wf_async p ->
  statefulAsyncInstrument_Collect OverflowAttributeSet ents seq p output
    = Some (p', output') ->
  is_Some (heap (base p) !! l) -> is_Some (heap (base p') !! l).
Proof.
  intros Hr Hwf Hc Hl.
  destruct (statefulAsyncInstrument_Collect_run OverflowAttributeSet ents seq p output
              Hr Hwf)
    as (p1 & output1 & outs & Hc1 & _ & _ & _ & _ & Hof).
  rewrite Hc in Hc1. injection Hc1 as <- <-.
  destruct (data (base p) !! OverflowAttributeSet) as [l0|].
  - destruct Hof as (cpy & h' & Hfresh & _ & _ & _ & Hdom).
    apply Hdom; [|exact Hl]. intros ->. rewrite Hfresh in Hl.
    destruct Hl as [? Hl]. discriminate.
  - destruct Hof as [_ Hdom]. apply Hdom. exact Hl.
Qed.

Lemma async_step_invariant (s s' : asyncSystem) :
  async_invariant s -> async_step OverflowAttributeSet s s' -> async_invariant s'.
Proof.
  intros [Hwf Hlive] Hstep.
  destruct Hstep as [s kvs|s i a v ex Hi|s i a release hp' Hi Hrun
                    |s ents seq output p' output' Hr Hc];
    unfold async_invariant; cbn [asys_inst asys_live base prior heap data].
  - split; [apply compiledAsyncBase_NewAccumulator_wf; exact Hwf|].
    unfold compiledAsyncBase_NewAccumulator, compiledAsyncBase_findStorage.
    destruct (getOrCreateEntry_allocated mkNotUsed (base (asys_inst s))
                (keysFilter (base (asys_inst s)) kvs)) as [Hnew Hmono].
    { intros k l. apply wf_async_allocated. exact Hwf. }
    destruct (getOrCreateEntry mkNotUsed (base (asys_inst s))
                (keysFilter (base (asys_inst s)) kvs)) as [l c'].
    cbn [fst snd a_holder] in *.
    constructor; [exact Hnew|].
    eapply Forall_impl; [exact Hlive|]. intros a Ha. apply Hmono. exact Ha.
  - split; [exact Hwf|].
    rewrite Forall_forall in Hlive. rewrite Forall_forall. intros a' Ha'.
    apply list_elem_of_lookup in Ha' as [j Hj].
    destruct (decide (i = j)) as [<-|Hne].
    + rewrite list_lookup_insert_eq in Hj by (eapply lookup_lt_Some; exact Hi).
      injection Hj as <-. cbn [asyncAccumulator_Update a_holder].
      apply Hlive. eapply list_elem_of_lookup_2. exact Hi.
    + rewrite list_lookup_insert_ne in Hj by exact Hne.
      apply Hlive. eapply list_elem_of_lookup_2. exact Hj.
  - unfold asyncAccumulator_SnapshotAndProcess in Hrun.
    destruct (heap (base (asys_inst s)) !! a_holder a) as [h|]; [|discriminate].
    simpl in Hrun. injection Hrun as <-.
    split.
    + unfold wf_async. cbn [base prior heap data].
      eapply separated_same_dom; [exact Hwf|].
      intros l Hl. apply set_storage_is_Some. exact Hl.
    + eapply Forall_impl; [exact Hlive|]. intros a0 Ha0.
      apply set_storage_is_Some. exact Ha0.
  - split; [eapply statefulAsyncInstrument_Collect_wf; eauto|].
    eapply Forall_impl; [exact Hlive|]. intros a Ha.
    eapply statefulAsyncInstrument_Collect_allocated; eauto.
Qed.

(** X20.  In every state that [NewAccumulator], [Update],
    [SnapshotAndProcess] and the stateful [Collect] reach from an
    asynchronous instrument without series, the holders of the two maps
    are allocated and distinct; the [SnapshotAndProcess] of every
    accumulator made so far returns, also of one made before the maps were
    rotated; and [Collect] returns, in whatever order it visits the map. *)
Theorem async_calls_return (d : Descriptor) (f : K -> K) (s : asyncSystem) :
  async_reachable OverflowAttributeSet d f s ->
  wf_async (asys_inst s) /\
  (forall a release,
     a ∈ asys_live s ->
     is_Some (asyncAccumulator_SnapshotAndProcess release a
                (heap (base (asys_inst s))))) /\
  (forall ents seq (output : slice Instrument),
     range_of (data (base (asys_inst s))) ents ->
     is_Some (statefulAsyncInstrument_Collect OverflowAttributeSet ents seq
                (asys_inst s) output)).
Proof.
  intros Hreach.
  assert (Hinv : async_invariant s).
  { induction Hreach as [|s s' _ IH Hstep].
    - split.
      + unfold wf_async. cbn [asys_inst base prior data heap]. unfold locs_of.
        rewrite map_to_list_empty. simpl. apply separated_empty.
      + constructor.
    - eapply async_step_invariant; eauto. }
  destruct Hinv as [Hwf Hlive]. split; [exact Hwf|]. split.
  - intros a release Ha. rewrite Forall_forall in Hlive.
    destruct (Hlive a Ha) as [h Hh].
    unfold asyncAccumulator_SnapshotAndProcess. rewrite Hh. simpl. eauto.
  - intros ents seq output Hr.
    destruct (statefulAsyncInstrument_Collect_run OverflowAttributeSet ents seq
                (asys_inst s) output Hr Hwf) as (p' & output' & _ & Hc & _).
    rewrite Hc. eauto.
Qed.


Section sum_like.

Context (SL : SumLike M).


End sum_like.

End stateful_async.

End async_safety.

(** ** The properties above at the example states *)

Module more_witnesses.
Import number viewstate examples viewstate_facts witnesses.

(** X5 at [sync1]. *)
Lemma statefulSyncInstrument_Collect_readonly_witness :
  exists output',
    statefulSyncInstrument_Collect (map_to_list (data sync1)) seq1 sync1 no_output
    = Some (sync1, output').
Proof.
  destruct (collect_more.statefulSyncInstrument_Collect_readonly
              (map_to_list (data sync1)) seq1 sync1 no_output
              (range_of_map_to_list _) sync1_allocated) as (output' & Hc & _).
  exists output'. exact Hc.
Defined.

(** X6 at [sync1]. *)
Lemma lowmemorySyncInstrument_Collect_emitted_witness :
  exists p' output',
    lowmemorySyncInstrument_Collect (map_to_list (data sync1)) seq1 sync1 no_output
    = Some (p', output') /\
    (length (emitted sync1 no_output output') <= size (data sync1))%nat.
Proof.
  destruct (collect_more.lowmemorySyncInstrument_Collect_emitted
              (map_to_list (data sync1)) seq1 sync1 no_output
              (range_of_map_to_list _) sync1_separated)
    as (p' & output' & Hc & _ & _ & Hlen).
  exists p', output'. split; [exact Hc|exact Hlen].
Defined.

(** X7 at [sync1]. *)
Lemma lowmemorySyncInstrument_Collect_twice_witness :
  exists p' output' p'' output'',
    lowmemorySyncInstrument_Collect (map_to_list (data sync1)) seq1 sync1 no_output
    = Some (p', output') /\
    lowmemorySyncInstrument_Collect (map_to_list (data p')) seq1 p' no_output
    = Some (p'', output'') /\
    emitted p' no_output output'' = [].
Proof.
  destruct (collect_more.lowmemorySyncInstrument_Collect_twice Int64Sum_SumLike
              (map_to_list (data sync1)) seq1 sync1 no_output
              (range_of_map_to_list _) sync1_separated)
    as (p' & output' & Hc & Hnext).
  destruct (Hnext (map_to_list (data p')) seq1 no_output (range_of_map_to_list _))
    as (p'' & output'' & Hc2 & Hem & _).
  exists p', output', p'', output''. split; [exact Hc|]. split; [exact Hc2|exact Hem].
Defined.

(** X8 at [stateful1]: two series were scanned. *)
Lemma statefulAsyncInstrument_InMemorySize_witness :
  exists p' output',
    statefulAsyncInstrument_Collect OverflowAttributeSet
      (map_to_list (data (base stateful1))) seq1 stateful1 no_output
    = Some (p', output') /\
    InMemorySize p' = size (data (base stateful1)).
Proof.
  eexists _, _.
  refine ((fun Hc =>
             conj Hc (proj1 (proj2 (collect_more.statefulAsyncInstrument_InMemorySize
                                      OverflowAttributeSet _ seq1 stateful1 _
                                      no_output _ Hc)))) _).
  vm_compute. reflexivity.
Defined.

(** X9 at [stateful2], which has the Overflow Set. *)
Lemma statefulAsyncInstrument_Collect_emitted_witness :
  exists p' output',
    statefulAsyncInstrument_Collect OverflowAttributeSet
      (map_to_list (data (base stateful2))) seq1 stateful2 no_output
    = Some (p', output') /\
    (length (emitted (base stateful2) no_output output')
     <= size (data (base stateful2)))%nat.
Proof.
  destruct (collect_more.statefulAsyncInstrument_Collect_emitted OverflowAttributeSet
              (map_to_list (data (base stateful2))) seq1 stateful2 no_output
              (range_of_map_to_list _) stateful2_wf)
    as (p' & output' & Hc & _ & _ & Hlen & _).
  exists p', output'. split; [exact Hc|exact Hlen].
Defined.

(** X10 at the low-memory [Collect] of [sync1]. *)
Lemma Collect_appends_one_instrument_witness :
  exists p' output',
    lowmemorySyncInstrument_Collect (map_to_list (data sync1)) seq1 sync1 no_output
    = Some (p', output') /\
    one_instrument_appended (desc sync1) no_output output'.
Proof.
  eexists _, _.
  refine ((fun Hc =>
             conj Hc
               (proj1 (proj1 (proj2 (collect_more.Collect_appends_one_instrument
                                       OverflowAttributeSet _ seq1 no_output _))
                         sync1 _ Hc))) _).
  vm_compute. reflexivity.
Defined.

(** X11 after one [NewAccumulator] on an instrument without series. *)
Lemma sync_reference_counts_witness :
  sync_invariant
    (mkSyncSystem
       (compiledSyncBase_NewAccumulator
          (mkBase (K:=string) (Storage:=Z) ∅ "requests" (fun k => k) ∅) "a").2
       [("a", (compiledSyncBase_NewAccumulator
                 (mkBase (K:=string) (Storage:=Z) ∅ "requests" (fun k => k) ∅) "a").1)]).
Proof.
  refine (proj1 (refcount.sync_reference_counts "requests" (fun k => k) _ _)).
  eapply reach_step; [apply reach_init|].
  apply (step_NewAccumulator
           (mkSyncSystem (mkBase (K:=string) (Storage:=Z) ∅ "requests" (fun k => k) ∅) [])
           "a").
  simpl. lia.
Defined.

(** X12 at a key filter that drops every attribute. *)
Lemma compiledSyncBase_NewAccumulator_same_holder_witness :
  holder (compiledSyncBase_NewAccumulator
            (mkBase (K:=string) (Storage:=Z) ∅ "requests" (fun _ => "all") ∅) "a").1
  = holder (compiledSyncBase_NewAccumulator
              (compiledSyncBase_NewAccumulator
                 (mkBase (K:=string) (Storage:=Z) ∅ "requests" (fun _ => "all") ∅) "a").2
              "b").1.
Proof.
  exact (proj1 (accumulator_more.compiledSyncBase_NewAccumulator_same_holder
                  (mkBase (K:=string) (Storage:=Z) ∅ "requests" (fun _ => "all") ∅)
                  "a" "b" eq_refl)).
Defined.

(** X13 at [async_acc1]: of the values 1 and 9, the 9 is added. *)
Lemma asyncAccumulator_last_value_witness :
  asyncAccumulator_SnapshotAndProcess true
    (asyncAccumulator_Updates async_acc1 [(1, tt); (9, tt)]) async_heap1
  = Some (<[1%positive := mkHolder (Update 10 9 zeroExemplarBits) mkNotUsed]> async_heap1).
Proof.
  exact (accumulator_more.asyncAccumulator_last_value true async_acc1
           [(1, tt); (9, tt)] async_heap1 (mkHolder 10 mkNotUsed) eq_refl).
Defined.

(** X14 at [acc1], which has staged 5, and the updates 1 and 9. *)
Lemma syncAccumulator_sums_updates_witness :
  exists a1 hp1 h1,
    syncAccumulator_SnapshotAndProcess true
      (syncAccumulator_Updates acc1 [(1, tt); (9, tt)]) heap1 = Some (a1, hp1) /\
    hp1 !! 1%positive = Some h1 /\
    total (storage h1) = to_int64 (10 + 5 + 10).
Proof.
  destruct (accumulator_more.syncAccumulator_sums_updates Int64Sum_SumLike true false
              acc1 [(1, tt); (9, tt)] heap1 (mkHolder 10 2))
    as (a1 & hp1 & h1 & Hc & Hh & Htot & _).
  - reflexivity.
  - unfold is_int64. simpl. lia.
  - exists a1, hp1, h1. split; [exact Hc|]. split; [exact Hh|exact Htot].
Defined.

(** X17 at a fan-out that names [acc1] twice. *)
Lemma multiAccumulator_Update_sync_witness :
  exists w',
    multiAccumulator_Update
      (syncAccumulator_Accumulator (fun isTraced => isTraced)
         <$> [1%positive; 1%positive])
      3 tt (mkWorld heap1 async_heap1 {[1%positive := acc1]} ∅) = Some w' /\
    w_sync w' !! 1%positive
    = Some (syncAccumulator_Update (syncAccumulator_Update acc1 3 tt) 3 tt).
Proof.
  destruct (fanout.multiAccumulator_Update_sync (fun isTraced => isTraced)
              [1%positive; 1%positive] 3 tt
              (mkWorld heap1 async_heap1 {[1%positive := acc1]} ∅))
    as (w' & Hc & _ & _ & _ & Hs).
  - by_decision.
  - exists w'. split; [exact Hc|]. rewrite Hs. reflexivity.
Defined.

(** X18 at a fan-out of [async_acc1]. *)
Lemma multiAccumulator_async_witness :
  exists w',
    multiAccumulator_Update (asyncAccumulator_Accumulator <$> [1%positive])
      3 tt (mkWorld heap1 async_heap1 ∅ {[1%positive := async_acc1]}) = Some w' /\
    w_holders w' = heap1.
Proof.
  destruct (proj2 (fanout.multiAccumulator_async [1%positive] 3 tt
                     (mkWorld heap1 async_heap1 ∅ {[1%positive := async_acc1]})))
    as (w' & Hc & Hh & _).
  - by_decision.
  - exists w'. split; [exact Hc|exact Hh].
Defined.

(** X20 after one [NewAccumulator] on an instrument without series. *)
Lemma async_calls_return_witness :
  wf_async
    (mkStatefulAsync
       (compiledAsyncBase_NewAccumulator
          (mkBase (K:=string) (Storage:=Z) ∅ "queue" (fun k => k) ∅) "a").2
       ∅).
Proof.
  refine (proj1 (async_safety.async_calls_return OverflowAttributeSet "queue"
                   (fun k => k)
                   (mkAsyncSystem _
                      [(compiledAsyncBase_NewAccumulator
                          (mkBase (K:=string) (Storage:=Z) ∅ "queue" (fun k => k) ∅)
                          "a").1]) _)).
  eapply areach_step; [apply areach_init|].
  apply (astep_NewAccumulator OverflowAttributeSet
           (mkAsyncSystem
              (mkStatefulAsync
                 (mkBase (K:=string) (Storage:=Z) ∅ "queue" (fun k => k) ∅) ∅) [])
           "a").
Defined.


End more_witnesses.
